(** * miles.py: a page crawler that downloads linked files in parallel

    A shallow embedding of [src/miles.py] and of the library routines it
    calls ([urllib.parse.urljoin], [re.findall] on the patterns of
    [FILE_REGEX], [os.path.basename], [os.path.join], [requests.get],
    [open]/[write]/[os.stat], [concurrent.futures.ProcessPoolExecutor],
    [int] on a string), followed by the properties of the crawl
    pipeline and of the command line.

    Conventions of the embedding:
    - Python [str] values are lists of 8-bit characters.  The NFKC
      check of [urlsplit] ([_checknetloc]), which can only fire on an
      authority with a character outside ASCII, is left out; the
      statements about when resolving a link raises are made for
      ASCII text.
    - A function that can raise returns a [result]; a function that
      writes files takes the disk and returns the new one.
    - The network, the openability of paths, the point at which a
      write fails and the number of worker processes the machine can
      start are given by a [world] that does not change during a
      crawl.
    - The pool is that of CPython 3.11 on Linux, as a step machine; a
      schedule is a list of its events.  A download in a worker opens
      its file, writes it in pieces and returns, and the pieces of
      several workers interleave on the one disk.  [download_url] as a
      function is a download that runs alone.
    - The lines [crawl] prints are the fields of a [report]; the
      progress line of [download_url] is not modelled.
    - [main] asks a [machine] whether the destination exists and to
      create it; of [usage] only the exit is modelled, not the message. *)

From Stdlib Require Import Ascii String ZArith List Lia Bool Floats Sorted.
From Stdlib Require Import Decimal DecimalString.
From stdpp Require Import gmap strings list.

Local Open Scope char_scope.
Local Open Scope list_scope.

(** ** Python strings *)

Module Py.

Abbreviation str := (list ascii).

(** [lit "abc"] is the Python literal ['abc']. *)
Definition lit (s : string) : str := list_ascii_of_string s.

(** The double quote character. *)
Definition dquote : ascii := ascii_of_nat 34.
Definition TAB : ascii := ascii_of_nat 9.
Definition LF : ascii := ascii_of_nat 10.
Definition CR : ascii := ascii_of_nat 13.
Definition NUL : ascii := ascii_of_nat 0.

Definition str_eqb (a b : str) : bool := bool_decide (a = b).

(** [c in s] for a one-character [c]. *)
Definition contains (c : ascii) (s : str) : bool := bool_decide (c ∈ s).

(** [s.find(c)]: index of the first occurrence, [None] for Python's -1. *)
Fixpoint find (c : ascii) (s : str) : option nat :=
  match s with
  | [] => None
  | x :: s' => if Ascii.eqb x c then Some 0 else S <$> find c s'
  end.

(** [s.split(c, 1)] when [c] occurs in [s], as the pair (head, tail);
    also [s.partition(c)] without its middle component. *)
Fixpoint cut (c : ascii) (s : str) : option (str * str) :=
  match s with
  | [] => None
  | x :: s' =>
      if Ascii.eqb x c then Some ([], s')
      else match cut c s' with
           | Some (a, b) => Some (x :: a, b)
           | None => None
           end
  end.

(** [s.partition(c)] as (before, found, after). *)
Definition partition (c : ascii) (s : str) : str * bool * str :=
  match cut c s with
  | Some (a, b) => (a, true, b)
  | None => (s, false, [])
  end.

(** [s.rpartition(c)[2]]: what follows the last [c], or all of [s]. *)
Fixpoint after_last (c : ascii) (s : str) : str :=
  match s with
  | [] => []
  | x :: s' =>
      if contains c s' then after_last c s'
      else if Ascii.eqb x c then s' else s
  end.

(** [s.split(c)]: never empty, [''.split(c) = ['']]. *)
Fixpoint split (c : ascii) (s : str) : list str :=
  match s with
  | [] => [[]]
  | x :: s' =>
      if Ascii.eqb x c then [] :: split c s'
      else match split c s' with
           | seg :: segs => (x :: seg) :: segs
           | [] => [[x]]
           end
  end.

(** [c.join(l)]. *)
Fixpoint join (c : ascii) (l : list str) : str :=
  match l with
  | [] => []
  | [a] => a
  | a :: l' => a ++ c :: join c l'
  end.

Definition is_upper (c : ascii) : bool :=
  (65 <=? nat_of_ascii c)%nat && (nat_of_ascii c <=? 90)%nat.
Definition is_lower (c : ascii) : bool :=
  (97 <=? nat_of_ascii c)%nat && (nat_of_ascii c <=? 122)%nat.
Definition is_digit (c : ascii) : bool :=
  (48 <=? nat_of_ascii c)%nat && (nat_of_ascii c <=? 57)%nat.

(** [c.isascii() and c.isalpha()]. *)
Definition is_ascii_alpha (c : ascii) : bool := is_upper c || is_lower c.

(** [c.lower()] on one character; only ASCII letters change (the one
    caller lowers strings of scheme characters). *)
Definition lower_char (c : ascii) : ascii :=
  if is_upper c then ascii_of_nat (nat_of_ascii c + 32) else c.

Definition lower (s : str) : str := map lower_char s.

(** [s.lstrip(cs)] and [s.strip(cs)] for a character predicate. *)
Fixpoint lstrip (p : ascii -> bool) (s : str) : str :=
  match s with
  | x :: s' => if p x then lstrip p s' else s
  | [] => []
  end.

Definition rstrip (p : ascii -> bool) (s : str) : str :=
  rev (lstrip p (rev s)).

Definition strip (p : ascii -> bool) (s : str) : str :=
  rstrip p (lstrip p s).

(** [s.replace(c, "")]. *)
Definition remove_char (c : ascii) (s : str) : str :=
  filter (fun x => x <> c) s.

(** [s[:1] == c]. *)
Definition starts_with_char (c : ascii) (s : str) : bool :=
  match s with
  | x :: _ => Ascii.eqb x c
  | [] => false
  end.

(** Truthiness of a string: [bool(s)]. *)
Definition truthy (s : str) : bool :=
  match s with [] => false | _ => true end.

End Py.

Import Py.

(** ** Exceptions *)

(** The exceptions that can leave the functions of the program.
    [RequestException] stands for the whole class of that name in
    [requests] ([ConnectionError], [Timeout], [HTTPError], ...), which is
    what [download_url] catches.  [OtherError] is any exception outside
    that class that a collaborator may raise. *)
Inductive exn : Type :=
  | RequestException
  | SystemExit (code : Z)
  | KeyError (key : str)
  | ValueError
  | OSError
  | OverflowError
  | ZeroDivisionError
  | OtherError.

Global Instance exn_eq_dec : EqDecision exn.
Proof. solve_decision. Defined.

(** A computation that returns or raises. *)
Inductive result (A : Type) : Type :=
  | Ok (a : A)
  | Raise (e : exn).
Arguments Ok {A} a.
Arguments Raise {A} e.

Global Instance result_eq_dec {A} `{EqDecision A} : EqDecision (result A).
Proof. solve_decision. Defined.

Global Instance result_ret : MRet result := fun A a => Ok a.
Global Instance result_bind : MBind result := fun A B k r =>
  match r with
  | Ok a => k a
  | Raise e => Raise e
  end.

(** ** urllib.parse (CPython 3.11): urlsplit, urlparse, urlunparse, urljoin *)

Module Url.

Definition uses_relative : list str :=
  map lit [""; "ftp"; "http"; "gopher"; "nntp"; "imap";
           "wais"; "file"; "https"; "shttp"; "mms";
           "prospero"; "rtsp"; "rtspu"; "sftp";
           "svn"; "svn+ssh"; "ws"; "wss"]%string.

Definition uses_netloc : list str :=
  map lit [""; "ftp"; "http"; "gopher"; "nntp"; "telnet";
           "imap"; "wais"; "file"; "mms"; "https"; "shttp";
           "snews"; "prospero"; "rtsp"; "rtspu"; "rsync";
           "svn"; "svn+ssh"; "sftp"; "nfs"; "git"; "git+ssh";
           "ws"; "wss"]%string.

Definition uses_params : list str :=
  map lit [""; "ftp"; "hdl"; "prospero"; "http"; "imap";
           "https"; "shttp"; "rtsp"; "rtspu"; "sip"; "sips";
           "mms"; "sftp"; "tel"]%string.

(** [s in l] for a list of strings. *)
Definition member (s : str) (l : list str) : bool := bool_decide (s ∈ l).

(** [c in scheme_chars]: letters, digits and [+-.]. *)
Definition is_scheme_char (c : ascii) : bool :=
  is_lower c || is_upper c || is_digit c
  || Ascii.eqb c "+" || Ascii.eqb c "-" || Ascii.eqb c ".".

(** [c in _WHATWG_C0_CONTROL_OR_SPACE]: code points 0 to 32. *)
Definition is_c0_or_space (c : ascii) : bool := (nat_of_ascii c <=? 32)%nat.

(** The loop over [_UNSAFE_URL_BYTES_TO_REMOVE = ['\t', '\r', '\n']]. *)
Definition remove_unsafe (s : str) : str :=
  remove_char LF (remove_char CR (remove_char TAB s)).

Record SplitResult : Type := mkSplit {
  s_scheme : str; s_netloc : str; s_path : str;
  s_query : str; s_fragment : str }.

Record ParseResult : Type := mkParse {
  scheme : str; netloc : str; path : str;
  params : str; query : str; fragment : str }.

(** [s.find(c, start)]. *)
Definition find_from (c : ascii) (s : str) (start : nat) : option nat :=
  (fun i => start + i) <$> find c (drop start s).

(** [s.rfind(c)]. *)
Fixpoint rfind (c : ascii) (s : str) : option nat :=
  match s with
  | [] => None
  | x :: s' =>
      match rfind c s' with
      | Some i => Some (S i)
      | None => if Ascii.eqb x c then Some 0 else None
      end
  end.

(** [_splitnetloc(url, start)]. *)
Definition splitnetloc (url : str) (start : nat) : str * str :=
  let delim :=
    foldl (fun d c => match find_from c url start with
                      | Some w => Nat.min d w
                      | None => d
                      end) (length url) (lit "/?#") in
  (take (delim - start) (drop start url), drop delim url).

(** [_check_bracketed_netloc(netloc)]; [true] when it returns, [false]
    when it raises [ValueError].  [host_ok] is [_check_bracketed_host]:
    the IPvFuture pattern or an IPv6 literal accepted by [ipaddress]. *)
Definition check_bracketed_netloc (host_ok : str -> bool) (netloc : str) : bool :=
  let hostname_and_port := after_last "@" netloc in
  let '(before_bracket, have_open_br, bracketed) :=
    partition "[" hostname_and_port in
  if have_open_br then
    if truthy before_bracket then false
    else
      let '(hostname, _, port) := partition "]" bracketed in
      if truthy port && negb (starts_with_char ":" port) then false
      else host_ok hostname
  else
    let '(hostname, _, port) := partition ":" hostname_and_port in
    host_ok hostname.

(** The tail of [urlsplit]: fragment and query are cut off the rest. *)
Definition split_tail (scheme netloc url : str) : SplitResult :=
  let '(url, fragment) :=
    match cut "#" url with Some (a, b) => (a, b) | None => (url, []) end in
  let '(url, query) :=
    match cut "?" url with Some (a, b) => (a, b) | None => (url, []) end in
  mkSplit scheme netloc url query fragment.

(** The scheme step of [urlsplit]: when the text before the first colon
    starts with a letter and consists of scheme characters, it is the
    scheme, lowered, and the URL continues after the colon. *)
Definition split_scheme (url scheme : str) : str * str :=
  match find ":" url, url with
  | Some (S i), c0 :: _ =>
      if is_ascii_alpha c0 && forallb is_scheme_char (take (S i) url)
      then (lower (take (S i) url), drop (S (S i)) url)
      else (scheme, url)
  | _, _ => (scheme, url)
  end.

(** The authority step of [urlsplit]: after [//] comes the netloc,
    whose brackets are checked. *)
Definition split_authority (host_ok : str -> bool) (scheme url : str)
    : result SplitResult :=
  match url with
  | "/" :: "/" :: _ =>
      let '(netloc, url) := splitnetloc url 2 in
      if (contains "[" netloc && negb (contains "]" netloc))
         || (contains "]" netloc && negb (contains "[" netloc))
      then Raise ValueError
      else if contains "[" netloc && contains "]" netloc
              && negb (check_bracketed_netloc host_ok netloc)
      then Raise ValueError
      else Ok (split_tail scheme netloc url)
  | _ => Ok (split_tail scheme [] url)
  end.

(** [urlsplit(url, scheme)] with [allow_fragments=True]. *)
Definition urlsplit (host_ok : str -> bool) (url scheme : str) : result SplitResult :=
  let url := lstrip is_c0_or_space url in
  let scheme := strip is_c0_or_space scheme in
  let url := remove_unsafe url in
  let scheme := remove_unsafe scheme in
  let '(scheme, url) := split_scheme url scheme in
  split_authority host_ok scheme url.

(** [_splitparams(url)]; its caller guarantees [';' in url]. *)
Definition splitparams (url : str) : str * str :=
  match (if contains "/" url
         then find_from ";" url (default 0 (rfind "/" url))
         else find ";" url) with
  | Some i => (take i url, drop (S i) url)
  | None => (url, [])
  end.

(** [urlparse(url, scheme)]. *)
Definition urlparse (host_ok : str -> bool) (url scheme : str) : result ParseResult :=
  r ← urlsplit host_ok url scheme;
  let '(url, params) :=
    if member (s_scheme r) uses_params && contains ";" (s_path r)
    then splitparams (s_path r)
    else (s_path r, []) in
  mret (mkParse (s_scheme r) (s_netloc r) url params (s_query r) (s_fragment r)).

(** [urlunsplit((scheme, netloc, url, query, fragment))]. *)
Definition urlunsplit (scheme netloc url query fragment : str) : str :=
  let url :=
    if truthy netloc
       || (truthy scheme && member scheme uses_netloc
           && negb (str_eqb (take 2 url) (lit "//")))
    then
      let url := if truthy url && negb (starts_with_char "/" url)
                 then "/" :: url else url in
      lit "//" ++ netloc ++ url
    else url in
  let url := if truthy scheme then scheme ++ ":" :: url else url in
  let url := if truthy query then url ++ "?" :: query else url in
  let url := if truthy fragment then url ++ "#" :: fragment else url in
  url.

(** [urlunparse((scheme, netloc, url, params, query, fragment))]. *)
Definition urlunparse (scheme netloc url params query fragment : str) : str :=
  let url := if truthy params then url ++ ";" :: params else url in
  urlunsplit scheme netloc url query fragment.

(** [segments[1:-1] = filter(None, segments[1:-1])]. *)
Definition filter_middle (segments : list str) : list str :=
  match segments with
  | first :: (_ :: _) as rest =>
      first :: filter (fun s => truthy s = true) (removelast rest)
            ++ [List.last rest []]
  | _ => segments
  end.

(** The loop of [urljoin] over the segments: [..] pops, [.] is skipped. *)
Definition resolve_segments (segments : list str) : list str :=
  foldl (fun resolved seg =>
           if str_eqb seg (lit "..") then removelast resolved
           else if str_eqb seg (lit ".") then resolved
           else resolved ++ [seg]) [] segments.

(** [urljoin(base, url)]. *)
Definition urljoin (host_ok : str -> bool) (base url : str) : result str :=
  if negb (truthy base) then Ok url
  else if negb (truthy url) then Ok base
  else
    b ← urlparse host_ok base [];
    u ← urlparse host_ok url (scheme b);
    if negb (str_eqb (scheme u) (scheme b))
       || negb (member (scheme u) uses_relative)
    then Ok url
    else if member (scheme u) uses_netloc && truthy (netloc u)
    then Ok (urlunparse (scheme u) (netloc u) (path u)
                        (params u) (query u) (fragment u))
    else
      let netloc := if member (scheme u) uses_netloc then netloc b else netloc u in
      if negb (truthy (path u)) && negb (truthy (params u))
      then
        let query := if negb (truthy (query u)) then query b else query u in
        Ok (urlunparse (scheme u) netloc (path b) (params b) query (fragment u))
      else
        let base_parts := split "/" (path b) in
        let base_parts :=
          if negb (str_eqb (List.last base_parts []) [])
          then removelast base_parts else base_parts in
        let segments :=
          if starts_with_char "/" (path u) then split "/" (path u)
          else filter_middle (base_parts ++ split "/" (path u)) in
        let resolved_path := resolve_segments segments in
        let resolved_path :=
          if member (List.last segments []) [lit "."; lit ".."]
          then resolved_path ++ [[]] else resolved_path in
        let joined := join "/" resolved_path in
        Ok (urlunparse (scheme u) netloc
                       (if truthy joined then joined else lit "/")
                       (params u) (query u) (fragment u)).

End Url.

(** ** re.findall on the pattern class of [FILE_REGEX] *)

Module Re.

(** What one pattern position accepts: a literal character, [.] (any
    character but a newline) or a negated set [[^...]]. *)
Inductive cclass : Type :=
  | Char (c : ascii)
  | Dot
  | NotIn (cs : list ascii).

Definition accepts (k : cclass) (x : ascii) : bool :=
  match k with
  | Char c => Ascii.eqb x c
  | Dot => negb (Ascii.eqb x LF)
  | NotIn cs => negb (contains x cs)
  end.

(** Greedy quantifiers: none, [?], [*], [+]. *)
Inductive quant : Type := One | Opt | Star | Plus.

(** A pattern is a sequence of quantified positions and the two
    parentheses of its capture group. *)
Inductive item : Type :=
  | Atom (k : cclass) (q : quant)
  | GroupOpen
  | GroupClose.

Definition regex : Type := list item.

(** A successful match attempt: offsets of the group and of the end. *)
Record hit : Type := mkHit { g_start : nat; g_end : nat; m_end : nat }.

(** One character of class [k], then [cont] on the rest. *)
Definition one (k : cclass) (cont : str -> nat -> option hit)
    (s : str) (off : nat) : option hit :=
  match s with
  | x :: s' => if accepts k x then cont s' (S off) else None
  | [] => None
  end.

(** Greedy repetition of class [k] before [cont]: as many characters as
    possible first, one fewer on each failure of [cont]. *)
Fixpoint star (k : cclass) (cont : str -> nat -> option hit)
    (s : str) (off : nat) : option hit :=
  match one k (star k cont) s off with
  | Some h => Some h
  | None => cont s off
  end.

(** Backtracking match of [r] at the front of [s], which sits at offset
    [off] of the text; [gs] and [ge] are the offsets of the group so
    far. *)
Fixpoint match_here (r : regex) (s : str) (off gs ge : nat) : option hit :=
  match r with
  | [] => Some (mkHit gs ge off)
  | GroupOpen :: r' => match_here r' s off off ge
  | GroupClose :: r' => match_here r' s off gs off
  | Atom k q :: r' =>
      let cont := fun s off => match_here r' s off gs ge in
      match q with
      | One => one k cont s off
      | Opt =>
          match one k cont s off with
          | Some h => Some h
          | None => cont s off
          end
      | Star => star k cont s off
      | Plus => one k (star k cont) s off
      end
  end.

(** Leftmost match at or after the front of [s] (offset [pos]). *)
Fixpoint search (r : regex) (s : str) (pos : nat) : option (nat * hit) :=
  match match_here r s pos pos pos with
  | Some h => Some (pos, h)
  | None =>
      match s with
      | [] => None
      | _ :: s' => search r s' (S pos)
      end
  end.

(** One element of [re.finditer]: where the match lies and its group. *)
Record span : Type := mkSpan { m_from : nat; m_to : nat; group1 : str }.

(** The scan of [re.finditer]: search, record, continue at the end of
    the match.  The patterns of [FILE_REGEX] match at least six
    characters; after an empty match the scan moves on one character. *)
Fixpoint scan (fuel : nat) (r : regex) (text : str) (pos : nat) : list span :=
  match fuel with
  | 0 => []
  | S fuel' =>
      if (length text <? pos)%nat then []
      else
        match search r (drop pos text) pos with
        | None => []
        | Some (st, h) =>
            mkSpan st (m_end h) (take (g_end h - g_start h) (drop (g_start h) text))
            :: scan fuel' r text (if (m_end h =? st)%nat then S (m_end h) else m_end h)
        end
  end.

Definition finditer (r : regex) (text : str) : list span :=
  scan (S (length text)) r text 0.

(** [re.findall(r, text)] for a pattern with one group. *)
Definition findall (r : regex) (text : str) : list str :=
  map group1 (finditer r text).

(** Literal text as a pattern. *)
Definition chars (s : string) : regex := map (fun c => Atom (Char c) One) (lit s).

End Re.

(** ** os.path (POSIX) *)

Module OsPath.

(** [os.path.basename(p)]: what follows the last slash. *)
Definition basename (p : str) : str := after_last "/" p.

(** [os.path.join(a, b)]. *)
Definition join (a b : str) : str :=
  if starts_with_char "/" b then b
  else if negb (truthy a) || Ascii.eqb (List.last a "/") "/" then a ++ b
  else a ++ "/" :: b.

End OsPath.

(** ** miles.py: constants *)

Import Re.

(** The tail shared by every pattern of the table:
    ["?([^\" ]+.EXT)] for an extension [EXT]. *)
Definition quoted_target (ext : string) : regex :=
  [Atom (Char dquote) Opt; GroupOpen;
   Atom (NotIn [dquote; " "]) Plus; Atom Dot One]
  ++ chars ext ++ [GroupClose].

(** [<img.*src="?([^\" ]+.EXT)] *)
Definition img_src (ext : string) : regex :=
  chars "<img" ++ [Atom Dot Star] ++ chars "src=" ++ quoted_target ext.

(** [<a.*href="?([^\" ]+.EXT)] *)
Definition a_href (ext : string) : regex :=
  chars "<a" ++ [Atom Dot Star] ++ chars "href=" ++ quoted_target ext.

(** [<audio.*src="?([^\" ]+.mp3)] *)
Definition audio_src : regex :=
  chars "<audio" ++ [Atom Dot Star] ++ chars "src=" ++ quoted_target "mp3".

(** [a.*href="?([^\" ]+.mp3)], written without its [<] in the source. *)
Definition bare_a_href : regex :=
  chars "a" ++ [Atom Dot Star] ++ chars "href=" ++ quoted_target "mp3".

(** The dictionary [FILE_REGEX]. *)
Definition FILE_REGEX : gmap str (list regex) :=
  list_to_map
    [(lit "jpg", [img_src "jpg"; a_href "jpg"]);
     (lit "mp3", [audio_src; bare_a_href]);
     (lit "pdf", [a_href "pdf"]);
     (lit "png", [img_src "png"; a_href "png"])].

(** [MEGABYTES = 1<<20]; the report divides by [1024 * 1024]. *)
Definition MEGABYTES : Z := Z.shiftl 1 20.

(** ** requests *)

Module Requests.

(** What [requests.get] returns: the status line and the body, as bytes
    ([content]) and decoded ([text]). *)
Record Response : Type := mkResponse {
  status_code : Z;
  content : list ascii;
  text : str }.

(** [Response.raise_for_status()]: [HTTPError], a [RequestException],
    for the client and server error codes. *)
Definition raise_for_status (r : Response) : result unit :=
  if ((400 <=? status_code r) && (status_code r <? 600))%Z
  then Raise RequestException
  else Ok tt.

(** [bool(response)], that is [Response.ok]: [raise_for_status] does not
    raise. *)
Definition ok (r : Response) : bool :=
  match raise_for_status r with
  | Ok _ => true
  | Raise _ => false
  end.

End Requests.

Import Requests.

(** ** The environment of a crawl *)

(** The files of the machine: path to bytes. *)
Abbreviation disk := (gmap str (list ascii)).

(** What the program cannot decide itself: the answer of the network to
    a GET (a response, or the exception [requests.get] raises); whether
    a path can be opened for writing (its directory exists, it is not
    itself a directory, its name is not too long, ...); whether the
    bytes written to an open file all reach it, [write_limit w path
    data] being [None] then and [Some m] when the write or the close
    raises [OSError] once [m] bytes are in the file (the disk is full,
    a quota is met, ...); and whether the machine can start a given
    number of worker processes.  All are fixed for the duration of a
    crawl. *)
Record world : Type := mkWorld {
  get : str -> result Response;
  can_open : str -> bool;
  write_limit : str -> list ascii -> option nat;
  can_start : Z -> bool }.

(** [open(file=path, mode='wb')]: creates or truncates the file. *)
Definition open_wb (w : world) (path : str) (fs : disk) : result disk :=
  if contains NUL path then Raise ValueError
  else if negb (truthy path) then Raise OSError
  else if can_open w path then Ok (<[path := []]> fs)
  else Raise OSError.

(** How many bytes of [data] reach the file at [path]. *)
Definition extent (w : world) (path : str) (data : list ascii) : nat :=
  match write_limit w path data with
  | Some m => Nat.min m (length data)
  | None => length data
  end.

(** The bytes [chunk] written at [offset] into a file that holds [old];
    a gap between the end of the file and the offset reads as null
    bytes. *)
Definition pwrite (old : list ascii) (offset : nat) (chunk : list ascii)
    : list ascii :=
  take offset old ++ replicate (offset - length old) NUL
    ++ chunk ++ drop (offset + length chunk) old.

(** [stream.write(data)] on a stream just opened with [open_wb], then
    the close at the end of the [with] block, with nothing else
    writing to the file meanwhile: the bytes that reach the file stay
    there when the write raises. *)
Definition write (w : world) (path : str) (data : list ascii) (fs : disk)
    : result unit * disk :=
  let fs' := <[path := take (extent w path data) data]> fs in
  match write_limit w path data with
  | None => (Ok tt, fs')
  | Some _ => (Raise OSError, fs')
  end.

(** [os.stat(path).st_size]. *)
Definition st_size (fs : disk) (path : str) : result Z :=
  match fs !! path with
  | Some data => Ok (Z.of_nat (length data))
  | None => Raise OSError
  end.

(** [n / (1024 * 1024)] for an integer [n]: the quotient rounded once to
    the nearest double. *)
Definition div_megabyte (n : Z) : float :=
  SF2Prim (binary_normalize prec emax n (-20) false).

(** ** miles.py: functions *)

(** A generator object of [extract_urls]: not yet started, suspended at
    its [yield] (with the rest of the three loops), or finished. *)
Inductive generator : Type :=
  | Fresh (url : str) (file_types : list str)
  | Suspended (url : str) (page : str) (matches : list str)
              (regexes : list regex) (file_types : list str)
  | Finished.

(** What [next] on a generator does. *)
Inductive signal : Type :=
  | Yield (u : str)
  | StopIteration
  | Raised (e : exn).

(** A pool task ends with the value [download_url] returned ([None] or
    a path) or with the exception it raised. *)
Abbreviation outcome := (result (option str)).

(** How far the download in a worker has come: it has opened its file
    and written [offset] bytes, or it has ended before writing (the
    fetch failed, or the file could not be opened). *)
Inductive phase : Type :=
  | Halted
  | Writing (offset : nat).

(** The pool of [ProcessPoolExecutor]: work items waiting to be queued,
    items in the call queue, items in a worker, how far the downloads
    in the workers have come, the futures that are set, and the items
    cancelled before they were queued; with the disk the workers write
    to. *)
Record pool : Type := mkPool {
  pending : list (nat * str);
  queued : list (nat * str);
  running : list (nat * str);
  progress : gmap nat phase;
  futures : gmap nat outcome;
  cancelled : list (nat * str);
  files : disk }.

(** The pool's manager moves the next work item to the call queue; a
    free worker takes the next queued item; the worker holding item [i]
    fetches its URL and opens the local file; it writes the next [k]
    bytes; it closes the file and hands back what [download_url]
    returns or raises; the caller, having met an exception while it
    reads the results in order, cancels what is not queued yet. *)
Inductive event : Type :=
  | Enqueue
  | Start
  | Begin (i : nat)
  | Write (i k : nat)
  | Finish (i : nat)
  | Cancel.

Global Instance event_eq_dec : EqDecision event.
Proof. solve_decision. Defined.

(** What the result iterator of [executor.map] has produced so far when
    it reads the futures in submission order. *)
Inductive reading : Type :=
  | Complete (results : list (option str))
  | Failed (e : exn)
  | Waiting.

(** The four lines [crawl] prints; [bytes_downloaded] is the sum of the
    file sizes before it is divided into megabytes. *)
Record report : Type := mkReport {
  files_downloaded : nat;
  bytes_downloaded : Z;
  Mbytes_downloaded : float;
  time_total : float;
  bandwidth : float }.

(** What a call of [crawl] shows: the URLs it submitted to the pool, in
    order, and the report, or the exception that leaves [crawl]. *)
Record observation : Type := mkObs {
  submitted : list str;
  returned : result report }.

Section Crawler.

(** [urllib.parse._check_bracketed_host], see [Url.check_bracketed_netloc]. *)
Variable host_ok : str -> bool.

Definition resolve_url (base url : str) : result str :=
  Url.urljoin host_ok base url.

(** [yield resolve_url(url, relative_url)] and the state it leaves. *)
Definition yield_resolved (url page relative_url : str) (matches : list str)
    (regexes : list regex) (file_types : list str) : signal * generator :=
  match resolve_url url relative_url with
  | Ok u => (Yield u, Suspended url page matches regexes file_types)
  | Raise e => (Raised e, Finished)
  end.

(** The [for regex] loop looking for its next pattern with a match. *)
Fixpoint next_regex (page : str) (regexes : list regex)
    : option (str * list str * list regex) :=
  match regexes with
  | [] => None
  | r :: rs =>
      match findall r page with
      | m :: ms => Some (m, ms, rs)
      | [] => next_regex page rs
      end
  end.

(** The [for filetype] loop looking for its next match. *)
Fixpoint next_filetype (url page : str) (file_types : list str)
    : signal * generator :=
  match file_types with
  | [] => (StopIteration, Finished)
  | ft :: fts =>
      match FILE_REGEX !! ft with
      | None => (Raised (KeyError ft), Finished)
      | Some rs =>
          match next_regex page rs with
          | Some (m, ms, rs') => yield_resolved url page m ms rs' fts
          | None => next_filetype url page fts
          end
      end
  end.

(** Run the loops from where they stand to the next [yield]. *)
Definition advance (url page : str) (matches : list str)
    (regexes : list regex) (file_types : list str) : signal * generator :=
  match matches with
  | m :: ms => yield_resolved url page m ms regexes file_types
  | [] =>
      match next_regex page regexes with
      | Some (m, ms, rs) => yield_resolved url page m ms rs file_types
      | None => next_filetype url page file_types
      end
  end.

Definition extract_urls (url : str) (file_types : list str) : generator :=
  Fresh url file_types.

(** [next(g)]. *)
Definition next (w : world) (g : generator) : signal * generator :=
  match g with
  | Fresh url file_types =>
      match get w url with
      | Raise e => (Raised e, Finished)
      | Ok response =>
          if negb (ok response) then (Raised (SystemExit 5), Finished)
          else advance url (text response) [] [] file_types
      end
  | Suspended url page matches regexes file_types =>
      advance url page matches regexes file_types
  | Finished => (StopIteration, Finished)
  end.

(** Iterating a generator to its end: the values it yields and how it
    stops. *)
Inductive iterates (w : world) : generator -> list str -> result unit -> Prop :=
  | iterates_stop g g' :
      next w g = (StopIteration, g') -> iterates w g [] (Ok tt)
  | iterates_raise g g' e :
      next w g = (Raised e, g') -> iterates w g [] (Raise e)
  | iterates_yield g g' u us r :
      next w g = (Yield u, g') -> iterates w g' us r ->
      iterates w g (u :: us) r.

(** A run of yields followed by another: the second only happens when
    the first ends without an exception. *)
Definition then_run (a b : list str * result unit) : list str * result unit :=
  match a.2 with
  | Ok _ => (a.1 ++ b.1, b.2)
  | Raise e => a
  end.

(** The innermost loop over the matches of one pattern. *)
Fixpoint run_matches (url : str) (matches : list str) : list str * result unit :=
  match matches with
  | [] => ([], Ok tt)
  | m :: ms =>
      match resolve_url url m with
      | Ok u => then_run ([u], Ok tt) (run_matches url ms)
      | Raise e => ([], Raise e)
      end
  end.

(** The loop over the patterns of one file type. *)
Fixpoint run_regexes (url page : str) (regexes : list regex) : list str * result unit :=
  match regexes with
  | [] => ([], Ok tt)
  | r :: rs => then_run (run_matches url (findall r page)) (run_regexes url page rs)
  end.

(** The loop over the file types. *)
Fixpoint run_filetypes (url page : str) (file_types : list str) : list str * result unit :=
  match file_types with
  | [] => ([], Ok tt)
  | ft :: fts =>
      match FILE_REGEX !! ft with
      | None => ([], Raise (KeyError ft))
      | Some rs => then_run (run_regexes url page rs) (run_filetypes url page fts)
      end
  end.

(** [extract_urls(url, file_types)] consumed to its end, as [zip] does
    inside [executor.map]. *)
Definition extract_all (w : world) (url : str) (file_types : list str)
    : list str * result unit :=
  match get w url with
  | Raise e => ([], Raise e)
  | Ok response =>
      if negb (ok response) then ([], Raise (SystemExit 5))
      else run_filetypes url (text response) file_types
  end.

(** The body of the [try] block of [download_url]. *)
Definition fetch (w : world) (url : str) : result Response :=
  response ← get w url;
  _ ← raise_for_status response;
  mret response.

Definition download_url (w : world) (url destination : str) (fs : disk)
    : outcome * disk :=
  match fetch w url with
  | Raise RequestException => (Ok None, fs)
  | Raise e => (Raise e, fs)
  | Ok response =>
      let name := OsPath.basename url in
      let local_path := OsPath.join destination name in
      match open_wb w local_path fs with
      | Raise e => (Raise e, fs)
      | Ok fs' =>
          match write w local_path (content response) fs' with
          | (Ok _, fs'') => (Ok (Some local_path), fs'')
          | (Raise e, fs'') => (Raise e, fs'')
          end
      end
  end.

(** *** The process pool *)

(** [EXTRA_QUEUED_CALLS]: the call queue holds one item more than
    there are workers. *)
Definition EXTRA_QUEUED_CALLS : nat := 1.

(** [executor.map] submits one work item per URL, numbered in order. *)
Definition submit (urls : list str) (fs : disk) : pool :=
  mkPool (imap (fun i u => (i, u)) urls) [] [] ∅ ∅ [] fs.

(** The URL of work item [i] among [items]. *)
Fixpoint item_url (i : nat) (items : list (nat * str)) : option str :=
  match items with
  | [] => None
  | (j, u) :: rest => if (i =? j)%nat then Some u else item_url i rest
  end.

Definition without (i : nat) (items : list (nat * str)) : list (nat * str) :=
  filter (fun t => t.1 <> i) items.

(** The result iterator reading the futures at [indices] in order: it
    waits at the first that is not set and stops at the first that holds
    an exception. *)
Fixpoint read_results (fut : gmap nat outcome) (indices : list nat) : reading :=
  match indices with
  | [] => Complete []
  | i :: rest =>
      match fut !! i with
      | None => Waiting
      | Some (Raise e) => Failed e
      | Some (Ok r) =>
          match read_results fut rest with
          | Complete rs => Complete (r :: rs)
          | other => other
          end
      end
  end.

(** The download of [url] in phase [ph] has nothing left to write. *)
Definition written_out (w : world) (destination url : str) (ph : phase)
    : bool :=
  match ph with
  | Halted => true
  | Writing offset =>
      match fetch w url with
      | Ok response =>
          (offset =? extent w (OsPath.join destination (OsPath.basename url))
                            (content response))%nat
      | Raise _ => false
      end
  end.

(** One step of a pool of [workers] processes serving [n] work items.
    What a download hands back does not depend on the disk, so the
    future of a completed item is set to the value of [download_url]
    whatever the other workers have written. *)
Definition step (w : world) (destination : str) (workers n : nat)
    (ev : event) (st : pool) : option pool :=
  match ev with
  | Enqueue =>
      match pending st with
      | t :: rest =>
          if (length (queued st) <? workers + EXTRA_QUEUED_CALLS)%nat
          then Some (mkPool rest (queued st ++ [t]) (running st) (progress st)
                            (futures st) (cancelled st) (files st))
          else None
      | [] => None
      end
  | Start =>
      match queued st with
      | t :: rest =>
          if (length (running st) <? workers)%nat
          then Some (mkPool (pending st) rest (running st ++ [t]) (progress st)
                            (futures st) (cancelled st) (files st))
          else None
      | [] => None
      end
  | Begin i =>
      match item_url i (running st), progress st !! i with
      | Some url, None =>
          let local_path := OsPath.join destination (OsPath.basename url) in
          match (_ ← fetch w url; open_wb w local_path (files st)) with
          | Ok fs =>
              Some (mkPool (pending st) (queued st) (running st)
                           (<[i := Writing 0]> (progress st))
                           (futures st) (cancelled st) fs)
          | Raise _ =>
              Some (mkPool (pending st) (queued st) (running st)
                           (<[i := Halted]> (progress st))
                           (futures st) (cancelled st) (files st))
          end
      | _, _ => None
      end
  | Write i k =>
      match item_url i (running st), progress st !! i with
      | Some url, Some (Writing offset) =>
          let local_path := OsPath.join destination (OsPath.basename url) in
          match fetch w url with
          | Ok response =>
              let data := content response in
              if (0 <? k)%nat && (offset + k <=? extent w local_path data)%nat
              then
                let old := default [] (files st !! local_path) in
                Some (mkPool (pending st) (queued st) (running st)
                             (<[i := Writing (offset + k)]> (progress st))
                             (futures st) (cancelled st)
                             (<[local_path :=
                                  pwrite old offset (take k (drop offset data))]>
                                (files st)))
              else None
          | Raise _ => None
          end
      | _, _ => None
      end
  | Finish i =>
      match item_url i (running st), progress st !! i with
      | Some url, Some ph =>
          if written_out w destination url ph
          then Some (mkPool (pending st) (queued st) (without i (running st))
                            (delete i (progress st))
                            (<[i := (download_url w url destination (files st)).1]>
                               (futures st))
                            (cancelled st) (files st))
          else None
      | _, _ => None
      end
  | Cancel =>
      match read_results (futures st) (seq 0 n) with
      | Failed _ =>
          Some (mkPool [] (queued st) (running st) (progress st) (futures st)
                       (cancelled st ++ pending st) (files st))
      | _ => None
      end
  end.

(** A sequence of steps; [None] when one of them is not possible. *)
Fixpoint run (w : world) (destination : str) (workers n : nat)
    (evs : list event) (st : pool) : option pool :=
  match evs with
  | [] => Some st
  | ev :: evs' =>
      match step w destination workers n ev st with
      | Some st' => run w destination workers n evs' st'
      | None => None
      end
  end.

(** Nothing left to queue, to start or to finish: the [with] block can
    exit. *)
Definition idle (st : pool) : bool :=
  match pending st, queued st, running st with
  | [], [], [] => true
  | _, _, _ => false
  end.

(** *** crawl *)

(** [[file for file in results if file]]. *)
Definition truthy_files (results : list (option str)) : list str :=
  filter (fun f => truthy f = true) (omap id results).

(** [sum(os.stat(file).st_size for file in files)]. *)
Fixpoint total_size (fs : disk) (paths : list str) : result Z :=
  match paths with
  | [] => Ok 0%Z
  | p :: rest =>
      n ← st_size fs p;
      m ← total_size fs rest;
      mret (n + m)%Z
  end.

(** The statistics computed after the pool is shut down; [start] and
    [stop] are the two readings of [time.time()]. *)
Definition statistics (start stop : float) (fs : disk) (paths : list str)
    : result report :=
  total ← total_size fs paths;
  let Mbytes_downloaded := div_megabyte total in
  let time_total := (stop - start)%float in
  if (time_total =? 0)%float then Raise ZeroDivisionError
  else mret (mkReport (length paths) total Mbytes_downloaded time_total
                      (Mbytes_downloaded / time_total)%float).

(** [ProcessPoolExecutor] starts its worker processes at the first
    [submit]; when the machine cannot start them, that [submit] raises. *)
Definition launch_fails (w : world) (cpus : Z) (urls : list str) : bool :=
  match urls with
  | [] => false
  | _ :: _ => negb (can_start w cpus)
  end.

(** [crawl(url, file_types, destination, cpus)] on the disk [fs], with
    the clock readings [start] and [stop] and the pool following the
    schedule [evs].  [None] when [evs] is not a run of the pool to its
    end.  [ProcessPoolExecutor] refuses a number of workers that is not
    positive, and one that does not fit the C integer its queue is
    made for.  When the extractor raises, [executor.map] has no
    result iterator yet: the items already submitted still run while
    the pool shuts down and none is cancelled. *)
Definition crawl (w : world) (start stop : float) (evs : list event) (fs : disk)
    (url : str) (file_types : list str) (destination : str) (cpus : Z)
    : option observation :=
  if (cpus <=? 0)%Z then Some (mkObs [] (Raise ValueError))
  else if (2 ^ 31 - 1 <=? cpus)%Z then Some (mkObs [] (Raise OverflowError))
  else
    let '(urls, stopped) := extract_all w url file_types in
    if launch_fails w cpus urls then Some (mkObs (take 1 urls) (Raise OSError))
    else
      st ← run w destination (Z.to_nat cpus) (length urls) evs (submit urls fs);
      if negb (idle st) then None
      else
        match stopped with
        | Raise e =>
            if bool_decide (Cancel ∈ evs) then None
            else Some (mkObs urls (Raise e))
        | Ok _ =>
            match read_results (futures st) (seq 0 (length urls)) with
            | Waiting => None
            | Failed e => Some (mkObs urls (Raise e))
            | Complete results =>
                Some (mkObs urls
                        (statistics start stop (files st) (truthy_files results)))
            end
        end.

End Crawler.

(** ** Quantities the statements speak about *)

Section Quantities.

Variable host_ok : str -> bool.

(** What a generator suspended in the three loops still has to do. *)
Definition rest_of (url page : str) (matches : list str)
    (regexes : list regex) (file_types : list str) : list str * result unit :=
  then_run (run_matches host_ok url matches)
    (then_run (run_regexes host_ok url page regexes)
              (run_filetypes host_ok url page file_types)).

(** [[resolve_url(url, m) for m in matches]]. *)
Fixpoint resolve_each (url : str) (matches : list str) : result (list str) :=
  match matches with
  | [] => Ok []
  | m :: ms =>
      u ← resolve_url host_ok url m;
      us ← resolve_each url ms;
      mret (u :: us)
  end.

End Quantities.

(** The patterns of a file type, in the order of the table. *)
Definition patterns_of (file_type : str) : list regex :=
  default [] (FILE_REGEX !! file_type).

(** The matches in a page: file types in the order given, the patterns
    of each in table order, the matches of each pattern as [findall]
    lists them.  Nothing is removed. *)
Definition all_matches (page : str) (file_types : list str) : list str :=
  concat (map (fun ft => concat (map (fun r => findall r page) (patterns_of ft)))
              file_types).

(** One match lies wholly before another in the text. *)
Definition before (a b : span) : Prop := (m_to a <= m_from b)%nat.


(** The outcome of downloading [url]; it does not depend on the disk. *)
Definition outcome_of (w : world) (destination url : str) : outcome :=
  (download_url w url destination ∅).1.

(** The local path and the bytes of a download that succeeds. *)
Definition downloaded (w : world) (destination url : str)
    : option (str * list ascii) :=
  match download_url w url destination ∅ with
  | (Ok (Some p), fs) => (fun data => (p, data)) <$> fs !! p
  | _ => None
  end.

(** The local path and the body of a download that gets as far as
    writing: the fetch succeeded and the file could be opened. *)
Definition opened (w : world) (destination url : str)
    : option (str * list ascii) :=
  let local_path := OsPath.join destination (OsPath.basename url) in
  match (response ← fetch w url;
         _ ← open_wb w local_path ∅;
         mret response) with
  | Ok response => Some (local_path, content response)
  | Raise _ => None
  end.

(** The successful downloads among [urls], in order. *)
Definition successes (w : world) (destination : str) (urls : list str)
    : list (str * list ascii) :=
  omap (downloaded w destination) urls.

(** The sum of the byte counts of downloads. *)
Definition byte_count (ds : list (str * list ascii)) : Z :=
  foldr (fun d acc => (Z.of_nat (length d.2) + acc)%Z) 0%Z ds.

(** The fetch of [url] fails: [requests.get] raises a
    [RequestException], or the status is a client or server error. *)
Definition fetch_fails (w : world) (url : str) : Prop :=
  get w url = Raise RequestException
  \/ exists r, get w url = Ok r /\ (400 <= status_code r < 600)%Z.


(** The work items of a pool that have no future yet. *)
Definition items (st : pool) : list (nat * str) :=
  pending st ++ queued st ++ running st ++ cancelled st.

(** What holds of every pool state reached while serving [urls]:
    items carry the URL submitted under their number; every number is
    either in one of the queues or has its future set, and only once;
    a future holds the outcome of its URL; a download in progress is
    that of an item in a worker, and when it is writing, its file is
    open and it has written no more than will reach the file; the path
    of a successful download exists. *)
Record sound (w : world) (dest : str) (urls : list str) (st : pool) : Prop :=
  mkSound {
    sound_items : forall i u, (i, u) ∈ items st -> urls !! i = Some u;
    sound_perm :
      (items st).*1 ++ elements (dom (futures st)) ≡ₚ seq 0 (length urls);
    sound_futures : forall i r,
      futures st !! i = Some r ->
      exists u, urls !! i = Some u /\ r = outcome_of w dest u;
    sound_progress : forall i ph,
      progress st !! i = Some ph ->
      exists u, (i, u) ∈ running st
        /\ match ph with
           | Halted => opened w dest u = None
           | Writing offset =>
               exists p d, opened w dest u = Some (p, d)
                           /\ offset <= extent w p d
                           /\ p ∈ dom (files st)
           end;
    sound_files : forall i p,
      futures st !! i = Some (Ok (Some p)) -> p ∈ dom (files st) }.

(** The steps of the pool as a relation: what [step] does, case by
    case. *)
Inductive transition (w : world) (dest : str) (workers n : nat) (st : pool)
    : event -> pool -> Prop :=
  | t_enqueue t rest :
      pending st = t :: rest ->
      length (queued st) < workers + EXTRA_QUEUED_CALLS ->
      transition w dest workers n st Enqueue
        (mkPool rest (queued st ++ [t]) (running st) (progress st)
                (futures st) (cancelled st) (files st))
  | t_start t rest :
      queued st = t :: rest ->
      length (running st) < workers ->
      transition w dest workers n st Start
        (mkPool (pending st) rest (running st ++ [t]) (progress st)
                (futures st) (cancelled st) (files st))
  | t_open i u p d :
      item_url i (running st) = Some u ->
      progress st !! i = None ->
      opened w dest u = Some (p, d) ->
      transition w dest workers n st (Begin i)
        (mkPool (pending st) (queued st) (running st)
                (<[i := Writing 0]> (progress st))
                (futures st) (cancelled st) (<[p := []]> (files st)))
  | t_halt i u :
      item_url i (running st) = Some u ->
      progress st !! i = None ->
      opened w dest u = None ->
      transition w dest workers n st (Begin i)
        (mkPool (pending st) (queued st) (running st)
                (<[i := Halted]> (progress st))
                (futures st) (cancelled st) (files st))
  | t_write i k u r offset :
      item_url i (running st) = Some u ->
      progress st !! i = Some (Writing offset) ->
      fetch w u = Ok r ->
      0 < k ->
      offset + k <= extent w (OsPath.join dest (OsPath.basename u)) (content r) ->
      transition w dest workers n st (Write i k)
        (mkPool (pending st) (queued st) (running st)
                (<[i := Writing (offset + k)]> (progress st))
                (futures st) (cancelled st)
                (<[OsPath.join dest (OsPath.basename u) :=
                     pwrite (default [] (files st
                                         !! OsPath.join dest (OsPath.basename u)))
                            offset (take k (drop offset (content r)))]>
                   (files st)))
  | t_finish i u ph :
      item_url i (running st) = Some u ->
      progress st !! i = Some ph ->
      written_out w dest u ph = true ->
      transition w dest workers n st (Finish i)
        (mkPool (pending st) (queued st) (without i (running st))
                (delete i (progress st))
                (<[i := outcome_of w dest u]> (futures st))
                (cancelled st) (files st))
  | t_cancel e :
      read_results (futures st) (seq 0 n) = Failed e ->
      transition w dest workers n st Cancel
        (mkPool [] (queued st) (running st) (progress st) (futures st)
                (cancelled st ++ pending st) (files st)).

(** How many bytes the download of item [i], whose body is [d], has
    put into its file: its offset while it writes, all of [d] once it
    has returned its path. *)
Definition reached (st : pool) (i : nat) (d : list ascii) : option nat :=
  match progress st !! i with
  | Some (Writing offset) => Some offset
  | Some Halted => None
  | None =>
      match futures st !! i with
      | Some (Ok (Some _)) => Some (length d)
      | _ => None
      end
  end.

(** What holds of the sizes of the files while downloads interleave
    their writes: a file that a download has opened is at least as long
    as what one of the downloads that opened it, the last, has written
    so far, and exactly as long as what one of them has written so
    far. *)
Definition sized (w : world) (dest : str) (urls : list str) (st : pool)
    : Prop :=
  forall i u p d offset,
    urls !! i = Some u ->
    opened w dest u = Some (p, d) ->
    reached st i d = Some offset ->
    exists c,
      files st !! p = Some c
      /\ (exists j v e offset',
            urls !! j = Some v
            /\ opened w dest v = Some (p, e)
            /\ reached st j e = Some offset'
            /\ offset' <= length c)
      /\ (exists j v e offset',
            urls !! j = Some v
            /\ opened w dest v = Some (p, e)
            /\ reached st j e = Some offset'
            /\ length c = offset').

(** What holds of the bytes of the files while downloads interleave
    their writes: in a file that a download has opened, one of the
    downloads that opened it, the last, has written no more than the
    file holds, and every byte of the file is a byte that a body
    written to it has at that place ([P]), or is a null byte of a gap
    beyond what that last download has written. *)
Definition settled (P : str -> nat -> ascii -> Prop)
    (w : world) (dest : str) (urls : list str) (st : pool) : Prop :=
  forall i u p d offset,
    urls !! i = Some u ->
    opened w dest u = Some (p, d) ->
    reached st i d = Some offset ->
    exists c,
      files st !! p = Some c
      /\ exists j v e offset',
          urls !! j = Some v
          /\ opened w dest v = Some (p, e)
          /\ reached st j e = Some offset'
          /\ offset' <= length c
          /\ forall k a, c !! k = Some a ->
                         P p k a \/ (offset' <= k /\ a = NUL).

(** A number of workers that [ProcessPoolExecutor] accepts and that
    the machine can start. *)
Definition workable (w : world) (cpus : Z) : Prop :=
  (0 < cpus < 2 ^ 31 - 1)%Z /\ can_start w cpus = true.

(** [read_results] on futures that are all set. *)
Fixpoint read_outcomes (os : list outcome) : reading :=
  match os with
  | [] => Complete []
  | Raise e :: _ => Failed e
  | Ok r :: rest =>
      match read_outcomes rest with
      | Complete rs => Complete (r :: rs)
      | other => other
      end
  end.

(** The events of a download that runs undisturbed: it begins, writes
    in one piece what reaches the file, and finishes. *)
Definition serve (w : world) (dest : str) (i : nat) (url : str) : list event :=
  match opened w dest url with
  | Some (p, d) =>
      if (0 <? extent w p d)%nat
      then [Begin i; Write i (extent w p d); Finish i]
      else [Begin i; Finish i]
  | None => [Begin i; Finish i]
  end.

(** Serving the items [l] one after the other. *)
Definition one_by_one (w : world) (dest : str) (l : list (nat * str))
    : list event :=
  flat_map (fun t => [Enqueue; Start] ++ serve w dest t.1 t.2) l.

(** The schedule that serves [urls] one after the other. *)
Definition sequential (w : world) (dest : str) (urls : list str) : list event :=
  one_by_one w dest (imap (fun i u => (i, u)) urls).

(** No download of [urls] raises: each returns a path or [None]. *)
Definition all_return (w : world) (dest : str) (urls : list str) : Prop :=
  forall u, u ∈ urls -> exists o, outcome_of w dest u = Ok o.

(** How often item [i] is completed in a schedule. *)
Definition completions (i : nat) (evs : list event) : nat :=
  length (filter (fun ev => ev = Finish i) evs).

(** [s.isascii()]: every character of [s] is below 128. *)
Definition isascii (s : str) : Prop :=
  Forall (fun c => nat_of_ascii c < 128) s.

(** The characters [urlsplit] removes from a URL. *)
Definition unsafe (c : ascii) : Prop := c = TAB \/ c = CR \/ c = LF.

(** The characters that end the authority of a URL. *)
Definition delimiter (c : ascii) : Prop := c = "/" \/ c = "?" \/ c = "#".

(** Where [_splitnetloc] closes the authority in [r], the text after
    the two slashes. *)
Definition delim_of (r : str) : nat :=
  foldl (fun d c => match find c r with
                    | Some w => Nat.min d w
                    | None => d
                    end) (length r) (lit "/?#").

(** A scheme and an authority as [urlsplit] hands them out: the scheme
    is a lowered word of scheme characters starting with a letter; the
    authority has none of the removed characters, stops before the
    first delimiter, and passes the bracket checks. *)
Record origin_ok (host_ok : str -> bool) (s n : str) : Prop := mkOrigin {
  o_head : exists c s', s = c :: s' /\ is_ascii_alpha c = true;
  o_chars : forallb Url.is_scheme_char s = true;
  o_lower : lower s = s;
  o_clean : Forall (fun c => ~ unsafe c) n;
  o_nodelim : Forall (fun c => ~ delimiter c) n;
  o_unbalanced :
    (contains "[" n && negb (contains "]" n))
    || (contains "]" n && negb (contains "[" n)) = false;
  o_bracketed :
    contains "[" n && contains "]" n
    && negb (Url.check_bracketed_netloc host_ok n) = false }.

(** ** Sample pages and sites *)

Module Sample.

(** The bracketed-host check that accepts every host. *)
Definition any_host (_ : str) : bool := true.

(** [<img src="TARGET">] *)
Definition img (target : string) : str :=
  lit "<img src=" ++ [dquote] ++ lit target ++ [dquote] ++ lit ">".

(** [<a href="TARGET">] *)
Definition anchor (target : string) : str :=
  lit "<a href=" ++ [dquote] ++ lit target ++ [dquote] ++ lit ">".

(** A page, one tag per line. *)
Definition lines (tags : list str) : str := join LF tags.

Definition jpg : str := lit "jpg".
Definition pdf : str := lit "pdf".
Definition gif : str := lit "gif".
Definition dest : str := lit "out".

(** A site whose page links two pictures with the same file name and
    different sizes, and a document that is missing. *)
Definition base : str := lit "http://h/".
Definition page : str :=
  lines [img "a/x.jpg"; anchor "b/x.jpg"; anchor "c.pdf"].
Definition ten : list ascii := lit "0123456789".
Definition twenty : list ascii := lit "01234567890123456789".

Definition answer (u : str) : result Response :=
  if str_eqb u base then Ok (mkResponse 200 [] page)
  else if str_eqb u (lit "http://h/a/x.jpg") then Ok (mkResponse 200 ten [])
  else if str_eqb u (lit "http://h/b/x.jpg") then Ok (mkResponse 200 twenty [])
  else if str_eqb u (lit "http://h/c.pdf") then Ok (mkResponse 404 (lit "gone") [])
  else Raise RequestException.

Definition site : world :=
  mkWorld answer (fun _ => true) (fun _ _ => None) (fun _ => true).

(** The same site seen from a machine whose destination directory does
    not exist: no path can be opened. *)
Definition locked : world :=
  mkWorld answer (fun _ => false) (fun _ _ => None) (fun _ => true).

(** The same site seen from a machine whose disk takes four more
    bytes per file. *)
Definition full : world :=
  mkWorld answer (fun _ => true) (fun _ _ => Some 4) (fun _ => true).

(** The same site seen from a machine that cannot start another
    process. *)
Definition crowded : world :=
  mkWorld answer (fun _ => true) (fun _ _ => None) (fun _ => false).

(** The same site with the second picture a copy of the first. *)
Definition mirror : world :=
  mkWorld (fun u => if str_eqb u (lit "http://h/b/x.jpg")
                    then Ok (mkResponse 200 ten [])
                    else answer u)
          (fun _ => true) (fun _ _ => None) (fun _ => true).

(** The same site with pictures of bytes all alike, ten [a] in the
    first and twenty [b] in the second. *)
Definition striped : world :=
  mkWorld (fun u => if str_eqb u (lit "http://h/a/x.jpg")
                    then Ok (mkResponse 200 (lit "aaaaaaaaaa") [])
                    else if str_eqb u (lit "http://h/b/x.jpg")
                    then Ok (mkResponse 200 (lit "bbbbbbbbbbbbbbbbbbbb") [])
                    else answer u)
          (fun _ => true) (fun _ _ => None) (fun _ => true).

Definition pictures : list str :=
  [lit "http://h/a/x.jpg"; lit "http://h/b/x.jpg"].
Definition links : list str := pictures ++ [lit "http://h/c.pdf"].

(** A site whose page is answered with a server error. *)
Definition broken : world :=
  mkWorld (fun _ => Ok (mkResponse 500 [] [])) (fun _ => true)
          (fun _ _ => None) (fun _ => true).

(** A site whose page links the same picture twice and nothing else. *)
Definition twice : str := lit "http://t/".
Definition twice_page : str := lines [anchor "p.jpg" ++ img "p.jpg"].
Definition twice_site : world :=
  mkWorld (fun u => if str_eqb u twice then Ok (mkResponse 200 [] twice_page)
                    else Ok (mkResponse 200 ten []))
          (fun _ => true) (fun _ _ => None) (fun _ => true).

(** Both workers of [site] busy at once, the second picture done
    first. *)
Definition overlapped : list event :=
  [Enqueue; Enqueue; Start; Start;
   Begin 1; Write 1 20; Finish 1; Begin 0; Write 0 10; Finish 0].

(** Both workers of [site] at work at once: each opens the file, then
    the second writes its picture and the first writes its own over
    the beginning of it, each in one piece. *)
Definition interleaved : list event :=
  [Enqueue; Enqueue; Start; Start;
   Begin 0; Begin 1; Write 1 20; Write 0 10; Finish 1; Finish 0].

(** Two workers on the three links of [mirror]: the two pictures are
    written at the same time, three bytes and seven by one worker,
    ten by the other; the document follows. *)
Definition interleaved_three : list event :=
  [Enqueue; Enqueue; Enqueue; Start; Start;
   Begin 0; Write 0 3; Begin 1; Write 0 7; Write 1 10; Finish 0; Finish 1;
   Start; Begin 2; Finish 2].

(** The same schedule for [striped]. *)
Definition mixing : list event := interleaved.

(** One worker of [locked]; the first download raises and the caller
    cancels what is not queued yet. *)
Definition interrupted : list event :=
  [Enqueue; Enqueue; Start; Begin 0; Finish 0; Cancel;
   Start; Begin 1; Finish 1].

(** The report of the crawl of [site] for documents and pictures. *)
Definition site_report : report :=
  mkReport 2 40 (div_megabyte 40) 2 (div_megabyte 40 / 2)%float.

End Sample.

(** ** int() on a string *)

Module PyInt.

(** The characters [int] skips around the number: the ASCII white
    space, and the next-line and no-break-space characters, which it
    turns into spaces first. *)
Definition is_space (c : ascii) : bool :=
  let n := nat_of_ascii c in
  ((9 <=? n) && (n <=? 13) || (n =? 32) || (n =? 133) || (n =? 160))%nat.

Definition digit_value (c : ascii) : Z := Z.of_nat (nat_of_ascii c) - 48.

(** [sys.get_int_max_str_digits()], which the program leaves at its
    default. *)
Definition max_str_digits : nat := 4300.

(** The digits after the first: a digit, or an underscore followed by
    a digit.  [acc] is the value and [count] the number of digits read
    so far. *)
Fixpoint digits (acc : Z) (count : nat) (s : str) : option (Z * nat) :=
  match s with
  | [] => Some (acc, count)
  | c :: t =>
      if is_digit c then digits (10 * acc + digit_value c) (S count) t
      else if Ascii.eqb c "_" then
        match t with
        | d :: t' =>
            if is_digit d then digits (10 * acc + digit_value d) (S count) t'
            else None
        | [] => None
        end
      else None
  end.

(** [int(s)] for a string [s]: base ten, with an optional sign. *)
Definition int (s : str) : result Z :=
  let s := strip is_space s in
  let '(negative, s) :=
    match s with
    | "-" :: t => (true, t)
    | "+" :: t => (false, t)
    | _ => (false, s)
    end in
  match s with
  | c :: t =>
      if is_digit c then
        match digits (digit_value c) 1 t with
        | Some (n, count) =>
            if (max_str_digits <? count)%nat then Raise ValueError
            else Ok (if negative then (- n)%Z else n)
        | None => Raise ValueError
        end
      else Raise ValueError
  | [] => Raise ValueError
  end.

End PyInt.

(** ** miles.py: main *)

(** [DESTINATION = '.'] and [CPUS = 1]. *)
Definition DESTINATION : str := lit ".".
Definition CPUS : Z := 1.

(** The local variables of [main] that its loop sets. *)
Record settings : Type := mkSettings {
  opt_destination : str;
  opt_cpus : Z;
  opt_file_types : list str;
  opt_url : str }.

(** How [main] ends: with an exception of [exn] ([SystemExit] from
    [usage], [ValueError] from [int], [OSError] from [os.makedirs]),
    with the [IndexError] of a [pop] from the empty list, or after
    [crawl], whose observation holds the report or the exception that
    leaves it. *)
Inductive ending : Type :=
  | Exception (e : exn)
  | IndexError
  | Crawled (obs : observation).

(** The loop of [main] either falls through with the settings or ends
    the program. *)
Inductive scanned : Type :=
  | Settings (s : settings)
  | Ended (e : ending).

(** [usage(exit_status)]: the message goes to standard error, then
    [sys.exit(exit_status)]. *)
Definition usage (exit_status : Z) : exn := SystemExit exit_status.

(** The [while] loop of [main] over [arguments]. *)
Fixpoint options (arguments : list str) (s : settings) : scanned :=
  match arguments with
  | [] => Settings s
  | argument :: arguments =>
      if str_eqb argument (lit "-d") then
        match arguments with
        | [] => Ended IndexError
        | destination :: arguments =>
            options arguments
              (mkSettings destination (opt_cpus s) (opt_file_types s) (opt_url s))
        end
      else if str_eqb argument (lit "-n") then
        match arguments with
        | [] => Ended IndexError
        | number :: arguments =>
            match PyInt.int number with
            | Ok cpus =>
                options arguments
                  (mkSettings (opt_destination s) cpus (opt_file_types s) (opt_url s))
            | Raise e => Ended (Exception e)
            end
        end
      else if str_eqb argument (lit "-f") then
        match arguments with
        | [] => Ended IndexError
        | types :: arguments =>
            options arguments
              (mkSettings (opt_destination s) (opt_cpus s)
                 (if contains "," types
                  then opt_file_types s ++ split "," types
                  else opt_file_types s ++ [types])
                 (opt_url s))
        end
      else if str_eqb argument (lit "-h") then Ended (Exception (usage 0))
      else if starts_with_char "-" argument then Ended (Exception (usage 1))
      else
        options arguments
          (mkSettings (opt_destination s) (opt_cpus s) (opt_file_types s) argument)
  end.

(** What [main] asks of the machine before it crawls:
    [os.path.exists] and [os.makedirs]. *)
Record machine : Type := mkMachine {
  path_exists : str -> bool;
  makedirs : str -> result unit }.

(** The file types [main] crawls for when none is given. *)
Definition all_file_types : list str :=
  [lit "jpg"; lit "mp3"; lit "pdf"; lit "png"].

(** [main(arguments)].  The crawl runs in the world [w], which is the
    network and the disk as they are once the destination exists, with
    the clock readings and the schedule of [crawl]. *)
Definition main (host_ok : str -> bool) (m : machine) (w : world)
    (start stop : float) (evs : list event) (fs : disk)
    (arguments : list str) : option ending :=
  match options arguments (mkSettings DESTINATION CPUS [] []) with
  | Ended e => Some e
  | Settings s =>
      if negb (truthy (opt_url s)) then Some (Exception (usage 1))
      else
        let file_types :=
          match opt_file_types s with
          | [] => all_file_types
          | _ => opt_file_types s
          end in
        match (if negb (path_exists m (opt_destination s))
               then makedirs m (opt_destination s) else Ok tt) with
        | Raise e => Some (Exception e)
        | Ok _ =>
            Crawled <$> crawl host_ok w start stop evs fs (opt_url s)
                          file_types (opt_destination s) (opt_cpus s)
        end
  end.

(** ** The end of a URL *)

(** The last of the components of a URL that is not empty: the one its
    text ends with. *)
Fixpoint last_part (parts : list str) : str :=
  match parts with
  | [] => []
  | s :: rest =>
      match last_part rest with
      | [] => s
      | t => t
      end
  end.

(** A letter or digit of a file type. *)
Definition plain (c : ascii) : bool := is_lower c || is_digit c.

(** ** Sample command lines and schedules *)

Module Cases.

Import Sample.

(** A machine on which every directory exists. *)
Definition ready : machine := mkMachine (fun _ => true) (fun _ => Ok tt).

(** Two workers take the two pictures of [site] at once and complete
    the second first; the document follows. *)
Definition reversed : list event :=
  overlapped ++ [Enqueue; Start; Begin 2; Finish 2].

(** The report of that crawl: the first picture, written last, is the
    one whose size is counted twice. *)
Definition reversed_report : report :=
  mkReport 2 20 (div_megabyte 20) 2 (div_megabyte 20 / 2)%float.

(** The report of the crawl of [twice_site]. *)
Definition twice_report : report :=
  mkReport 2 20 (div_megabyte 20) 2 (div_megabyte 20 / 2)%float.

Definition twice_links : list str :=
  [lit "http://t/p.jpg"; lit "http://t/p.jpg"].

(** Two workers write the picture of [twice_site] at the same time. *)
Definition twice_interleaved : list event :=
  [Enqueue; Enqueue; Start; Start;
   Begin 0; Write 0 4; Begin 1; Write 1 10; Write 0 6; Finish 0; Finish 1].

End Cases.

(** * Properties *)

Section Properties.

Variable host_ok : str -> bool.

(** ** The generator and its run to the end *)

Local Arguments then_run : simpl never.

Lemma then_run_nil_l b : then_run ([], Ok tt) b = b.
Proof. by destruct b. Qed.

Lemma then_run_assoc a b c :
  then_run (then_run a b) c = then_run a (then_run b c).
Proof.
  destruct a as [la [[]|ea]], b as [lb [[]|eb]], c as [lc rc];
    unfold then_run; simpl; try done.
  by rewrite app_assoc.
Qed.

Lemma then_run_yield u a :
  then_run ([u], Ok tt) a = (u :: a.1, a.2).
Proof. done. Qed.

Lemma iterates_next w g1 g2 us r :
  next host_ok w g1 = next host_ok w g2 ->
  iterates host_ok w g1 us r -> iterates host_ok w g2 us r.
Proof.
  intros Hn Hi. destruct Hi as [g g' H|g g' e H|g g' u us r H Hrest].
  - eapply iterates_stop. by rewrite <- Hn.
  - eapply iterates_raise. by rewrite <- Hn.
  - eapply iterates_yield; [by rewrite <- Hn|done].
Qed.

(** Iteration is a function of the generator. *)
Lemma iterates_functional w g us r us' r' :
  iterates host_ok w g us r -> iterates host_ok w g us' r' ->
  us = us' /\ r = r'.
Proof.
  intros H. revert us' r'.
  induction H as [g g' H|g g' e H|g g' u us r H Hrest IH];
    intros us' r' H'; inversion H' as [? ? H1|? ? ? H1|? ? ? ? ? H1 H2]; subst;
    rewrite H in H1; try done; simplify_eq; try done.
  destruct (IH _ _ H2) as [-> ->]. done.
Qed.

Lemma iterates_matches w url page fts rs :
  iterates host_ok w (Suspended url page [] rs fts)
    (rest_of host_ok url page [] rs fts).1 (rest_of host_ok url page [] rs fts).2 ->
  forall ms,
    iterates host_ok w (Suspended url page ms rs fts)
      (rest_of host_ok url page ms rs fts).1 (rest_of host_ok url page ms rs fts).2.
Proof.
  intros Hbase ms. induction ms as [|m ms IH]; [done|].
  unfold rest_of in *. simpl.
  destruct (resolve_url host_ok url m) as [u|e] eqn:Hres.
  - rewrite !then_run_assoc, then_run_yield. simpl.
    eapply iterates_yield; [|exact IH].
    simpl. unfold yield_resolved. by rewrite Hres.
  - eapply iterates_raise. simpl. unfold yield_resolved. by rewrite Hres.
Qed.

Lemma iterates_regexes w url page fts :
  iterates host_ok w (Suspended url page [] [] fts)
    (rest_of host_ok url page [] [] fts).1 (rest_of host_ok url page [] [] fts).2 ->
  forall rs,
    iterates host_ok w (Suspended url page [] rs fts)
      (rest_of host_ok url page [] rs fts).1 (rest_of host_ok url page [] rs fts).2.
Proof.
  intros Hbase rs. induction rs as [|r rs IH]; [done|].
  pose proof (iterates_matches w url page fts rs IH (findall r page)) as Hm.
  assert (Heq : rest_of host_ok url page [] (r :: rs) fts
                = rest_of host_ok url page (findall r page) rs fts).
  { unfold rest_of. simpl. by rewrite then_run_nil_l, then_run_assoc. }
  rewrite Heq. eapply iterates_next; [|exact Hm].
  simpl. destruct (findall r page) as [|m ms] eqn:Hf; simpl; [|done].
  done.
Qed.

Lemma iterates_filetypes w url page fts :
  iterates host_ok w (Suspended url page [] [] fts)
    (rest_of host_ok url page [] [] fts).1 (rest_of host_ok url page [] [] fts).2.
Proof.
  induction fts as [|ft fts IH].
  - by eapply iterates_stop.
  - unfold rest_of. simpl. rewrite ?then_run_nil_l.
    destruct (FILE_REGEX !! ft) as [rs|] eqn:Hl.
    + pose proof (iterates_regexes w url page fts IH rs) as Hr.
      unfold rest_of in Hr. simpl in Hr. rewrite ?then_run_nil_l in Hr.
      eapply iterates_next; [|exact Hr].
      simpl. rewrite Hl. done.
    + eapply iterates_raise. simpl. by rewrite Hl.
Qed.

(** Iterating [extract_urls(url, file_types)] yields what [extract_all]
    computes and stops the way it says. *)
Lemma iterates_extract_all w url fts :
  iterates host_ok w (extract_urls url fts)
    (extract_all host_ok w url fts).1 (extract_all host_ok w url fts).2.
Proof.
  unfold extract_all, extract_urls.
  destruct (get w url) as [resp|e] eqn:Hg.
  - destruct (ok resp) eqn:Hok; simpl.
    + pose proof (iterates_filetypes w url (text resp) fts) as H.
      unfold rest_of in H. simpl in H. rewrite ?then_run_nil_l in H.
      eapply iterates_next; [|exact H]. simpl. by rewrite Hg, Hok.
    + eapply iterates_raise. simpl. by rewrite Hg, Hok.
  - eapply iterates_raise. simpl. by rewrite Hg.
Qed.

(** ** The scan of a page *)

Lemma one_end k cont s off h :
  (forall s' off' h', cont s' off' = Some h' -> off' <= m_end h') ->
  one k cont s off = Some h -> off <= m_end h.
Proof.
  intros Hc. destruct s as [|x s]; simpl; [done|].
  destruct (accepts k x); [|done]. intros H%Hc. lia.
Qed.

Lemma star_end k cont :
  (forall s off h, cont s off = Some h -> off <= m_end h) ->
  forall s off h, star k cont s off = Some h -> off <= m_end h.
Proof.
  intros Hc s. induction s as [|x s IH]; intros off h; simpl.
  - apply Hc.
  - destruct (accepts k x); [|apply Hc].
    destruct (star k cont s (S off)) as [h'|] eqn:E; [|apply Hc].
    intros [= <-]. apply IH in E. lia.
Qed.

Lemma match_here_end r :
  forall s off gs ge h, match_here r s off gs ge = Some h -> off <= m_end h.
Proof.
  induction r as [|[k q| |] r IH]; intros s off gs ge h; simpl.
  - by intros [= <-].
  - assert (Hc : forall s off h,
               match_here r s off gs ge = Some h -> off <= m_end h)
      by (intros; by eapply IH).
    destruct q.
    + by apply one_end.
    + destruct (one k _ s off) as [h'|] eqn:E.
      * intros [= <-]. by eapply one_end in E.
      * apply Hc.
    + by apply star_end.
    + apply one_end. by apply star_end.
  - apply IH.
  - apply IH.
Qed.

Lemma search_bounds r s :
  forall pos st h, search r s pos = Some (st, h) -> pos <= st <= m_end h.
Proof.
  induction s as [|x s IH]; intros pos st h; simpl.
  - destruct (match_here r [] pos pos pos) as [h'|] eqn:E; [|done].
    intros [= <- <-]. apply match_here_end in E. lia.
  - destruct (match_here r (x :: s) pos pos pos) as [h'|] eqn:E.
    + intros [= <- <-]. apply match_here_end in E. lia.
    + intros H%IH. lia.
Qed.

(** Every match of a scan lies at or after its starting point, and each
    lies before the next. *)
Lemma scan_ordered fuel r page :
  forall pos,
    Forall (fun a => pos <= m_from a <= m_to a) (scan fuel r page pos)
    /\ StronglySorted before (scan fuel r page pos).
Proof.
  induction fuel as [|fuel IH]; intros pos; simpl.
  - split; constructor.
  - destruct (length page <? pos)%nat; [split; constructor|].
    destruct (search r (drop pos page) pos) as [[st h]|] eqn:E;
      [|split; constructor].
    apply search_bounds in E.
    set (nxt := if (m_end h =? st)%nat then S (m_end h) else m_end h).
    destruct (IH nxt) as [Hall Hsorted].
    assert (Hn : m_end h <= nxt).
    { unfold nxt. destruct (m_end h =? st)%nat; lia. }
    split.
    + constructor; [simpl; lia|].
      eapply Forall_impl; [exact Hall|]. simpl. lia.
    + constructor; [done|].
      eapply Forall_impl; [exact Hall|]. unfold before. simpl. lia.
Qed.

Lemma finditer_ordered r page : StronglySorted before (finditer r page).
Proof. apply scan_ordered. Qed.

(** ** The links of a page *)

Lemma resolve_each_app url a b l :
  resolve_each host_ok url (a ++ b) = Ok l ->
  exists la lb, resolve_each host_ok url a = Ok la
                /\ resolve_each host_ok url b = Ok lb /\ l = la ++ lb.
Proof.
  revert l. induction a as [|m a IH]; intros l; simpl.
  - intros H. by exists [], l.
  - destruct (resolve_url host_ok url m) as [u|e]; simpl; [|done].
    destruct (resolve_each host_ok url (a ++ b)) as [l'|e] eqn:E; simpl; [|done].
    intros [= <-]. destruct (IH _ eq_refl) as (la & lb & -> & -> & ->).
    by exists (u :: la), lb.
Qed.

Lemma run_matches_ok url ms l :
  resolve_each host_ok url ms = Ok l -> run_matches host_ok url ms = (l, Ok tt).
Proof.
  revert l. induction ms as [|m ms IH]; intros l; simpl.
  - by intros [= <-].
  - destruct (resolve_url host_ok url m) as [u|e]; simpl; [|done].
    destruct (resolve_each host_ok url ms) as [l'|e]; simpl; [|done].
    intros [= <-]. by rewrite (IH _ eq_refl).
Qed.

Lemma run_regexes_ok url page rs l :
  resolve_each host_ok url (concat (map (fun r => findall r page) rs)) = Ok l ->
  run_regexes host_ok url page rs = (l, Ok tt).
Proof.
  revert l. induction rs as [|r rs IH]; intros l; simpl.
  - by intros [= <-].
  - intros (la & lb & Ha & Hb & ->)%resolve_each_app.
    by rewrite (run_matches_ok _ _ _ Ha), (IH _ Hb).
Qed.

Lemma run_filetypes_ok url page fts l :
  Forall (fun ft => is_Some (FILE_REGEX !! ft)) fts ->
  resolve_each host_ok url (all_matches page fts) = Ok l ->
  run_filetypes host_ok url page fts = (l, Ok tt).
Proof.
  intros Hknown. revert l.
  induction Hknown as [|ft fts [rs Hft] _ IH]; intros l; simpl.
  - by intros [= <-].
  - unfold all_matches. simpl. unfold patterns_of at 1. rewrite Hft. simpl.
    intros (la & lb & Ha & Hb & ->)%resolve_each_app.
    by rewrite (run_regexes_ok _ _ _ _ Ha), (IH _ Hb).
Qed.

(** C4. For a fixed page and an ordered list of known file types whose
    matches all resolve, iterating [extract_urls] yields exactly the
    resolved matches in file-type order, then pattern order, then
    [findall] order, which is the order of the text; repeated matches
    are kept; and the sequence is the same at every iteration. *)
Theorem extract_urls_order w url file_types response links :
  get w url = Ok response ->
  ok response = true ->
  Forall (fun ft => is_Some (FILE_REGEX !! ft)) file_types ->
  resolve_each host_ok url (all_matches (text response) file_types) = Ok links ->
  (forall us r,
      iterates host_ok w (extract_urls url file_types) us r
      <-> us = links /\ r = Ok tt)
  /\ length links = length (all_matches (text response) file_types)
  /\ (forall rx, findall rx (text response)
                 = map group1 (finditer rx (text response))
                 /\ StronglySorted before (finditer rx (text response))).
Proof.
  intros Hget Hok Hknown Hres.
  assert (Hall : extract_all host_ok w url file_types = (links, Ok tt)).
  { unfold extract_all. rewrite Hget, Hok. simpl.
    by apply run_filetypes_ok. }
  pose proof (iterates_extract_all w url file_types) as Hit.
  rewrite Hall in Hit. simpl in Hit.
  split; [|split].
  - intros us r. split.
    + intros H. by destruct (iterates_functional _ _ _ _ _ _ H Hit) as [-> ->].
    + by intros [-> ->].
  - clear -Hres. revert links Hres.
    induction (all_matches (text response) file_types) as [|m ms IH];
      intros links; simpl.
    + by intros [= <-].
    + destruct (resolve_url host_ok url m); simpl; [|done].
      destruct (resolve_each host_ok url ms) as [l'|]; simpl; [|done].
      intros [= <-]. simpl. by rewrite (IH _ eq_refl).
  - intros rx. split; [done|apply finditer_ordered].
Qed.

(** ** File types outside the table *)

Lemma run_filetypes_app url page a b :
  run_filetypes host_ok url page (a ++ b)
  = then_run (run_filetypes host_ok url page a) (run_filetypes host_ok url page b).
Proof.
  induction a as [|ft a IH]; simpl.
  - by rewrite then_run_nil_l.
  - destruct (FILE_REGEX !! ft); [|done].
    by rewrite IH, then_run_assoc.
Qed.

Lemma FILE_REGEX_unknown ft :
  ft ∉ map lit ["jpg"; "mp3"; "pdf"; "png"]%string -> FILE_REGEX !! ft = None.
Proof.
  intros H. unfold FILE_REGEX. apply not_elem_of_list_to_map_1.
  exact H.
Qed.

(** C10. A file type outside jpg, mp3, pdf, png has no entry in
    [FILE_REGEX], and the generator raises [KeyError] for it when its
    loop reaches it: after the URLs of the file types before it, in
    place of any further value. *)
Theorem unknown_file_type_raises w url known ft rest response us :
  ft ∉ map lit ["jpg"; "mp3"; "pdf"; "png"]%string ->
  get w url = Ok response ->
  ok response = true ->
  iterates host_ok w (extract_urls url known) us (Ok tt) ->
  FILE_REGEX !! ft = None
  /\ iterates host_ok w (extract_urls url (known ++ ft :: rest)) us
       (Raise (KeyError ft)).
Proof.
  intros Hft%FILE_REGEX_unknown Hget Hok Hknown. split; [done|].
  pose proof (iterates_extract_all w url known) as H1.
  destruct (iterates_functional _ _ _ _ _ _ Hknown H1) as [Hus Hr].
  pose proof (iterates_extract_all w url (known ++ ft :: rest)) as H2.
  unfold extract_all in *. rewrite Hget, Hok in *. simpl in *.
  rewrite run_filetypes_app in H2. simpl in H2. rewrite Hft in H2.
  destruct (run_filetypes host_ok url (text response) known) as [l r].
  simpl in *. subst. unfold then_run in H2. simpl in H2.
  by rewrite app_nil_r in H2.
Qed.

End Properties.

(** * Downloads and the pool *)

Section Downloads.

(** ** One download *)

Lemma open_wb_cases w p :
  (truthy p = true /\ forall fs, open_wb w p fs = Ok (<[p := []]> fs))
  \/ exists e, (e = ValueError \/ e = OSError)
               /\ forall fs, open_wb w p fs = Raise e.
Proof.
  unfold open_wb. destruct (contains NUL p).
  { right. exists ValueError. split; [by left|done]. }
  destruct p as [|c p]; simpl.
  { right. exists OSError. split; [by right|done]. }
  destruct (can_open w (c :: p)).
  - left. done.
  - right. exists OSError. split; [by right|done].
Qed.

Lemma fetch_cases w url :
  (exists r, fetch w url = Ok r /\ get w url = Ok r)
  \/ exists e, fetch w url = Raise e.
Proof.
  unfold fetch. destruct (get w url) as [r|e]; simpl; [|right; by eexists].
  destruct (raise_for_status r) as [[]|e]; simpl; [|right; by eexists].
  left. by exists r.
Qed.

Lemma extent_le w p d : extent w p d <= length d.
Proof. unfold extent. destruct (write_limit w p d); lia. Qed.

Lemma extent_all w p d : write_limit w p d = None -> extent w p d = length d.
Proof. unfold extent. by intros ->. Qed.

(** The four ways a download ends: it returns its path, having written
    the body; it returns [None], the fetch having failed; it raises
    before it writes; it raises while it writes or closes. *)
Lemma download_url_cases w url dest fs :
  (exists p data,
      download_url w url dest fs = (Ok (Some p), <[p := data]> fs)
      /\ outcome_of w dest url = Ok (Some p)
      /\ downloaded w dest url = Some (p, data)
      /\ truthy p = true
      /\ p = OsPath.join dest (OsPath.basename url)
      /\ (exists r, get w url = Ok r /\ content r = data)
      /\ opened w dest url = Some (p, data)
      /\ write_limit w p data = None)
  \/ (download_url w url dest fs = (Ok None, fs)
      /\ outcome_of w dest url = Ok None
      /\ downloaded w dest url = None
      /\ opened w dest url = None)
  \/ (exists e,
      download_url w url dest fs = (Raise e, fs)
      /\ outcome_of w dest url = Raise e
      /\ downloaded w dest url = None
      /\ opened w dest url = None)
  \/ (exists p data m,
      download_url w url dest fs
      = (Raise OSError, <[p := take (extent w p data) data]> fs)
      /\ outcome_of w dest url = Raise OSError
      /\ downloaded w dest url = None
      /\ opened w dest url = Some (p, data)
      /\ write_limit w p data = Some m).
Proof.
  unfold outcome_of, downloaded, opened, download_url.
  destruct (fetch_cases w url) as [(r & -> & Hget)|[e ->]]; simpl.
  2: { destruct e; try (right; right; left; eexists; done). right; left. done. }
  destruct (open_wb_cases w (OsPath.join dest (OsPath.basename url)))
    as [[Hp Ho]|(e & _ & Ho)]; rewrite !Ho; simpl.
  2: { right; right; left. by exists e. }
  unfold write.
  destruct (write_limit w _ (content r)) as [m|] eqn:Hw.
  - right; right; right.
    exists (OsPath.join dest (OsPath.basename url)), (content r), m.
    by rewrite insert_insert_eq.
  - left. exists (OsPath.join dest (OsPath.basename url)), (content r).
    rewrite (extent_all _ _ _ Hw), firstn_all, !insert_insert_eq, lookup_insert_eq.
    simpl. repeat split; try done. by exists r.
Qed.

Lemma download_url_outcome w url dest fs :
  (download_url w url dest fs).1 = outcome_of w dest url.
Proof.
  destruct (download_url_cases w url dest fs)
    as [(p & d & -> & -> & _)|[(-> & -> & _)|[(e & -> & -> & _)
       |(p & d & m & -> & -> & _)]]]; done.
Qed.

(** A download that opens its file returns its path when all its bytes
    can be written, and raises otherwise. *)
Lemma opened_outcome w dest u p d :
  opened w dest u = Some (p, d) ->
  p = OsPath.join dest (OsPath.basename u)
  /\ (exists r, fetch w u = Ok r /\ content r = d)
  /\ (forall fs, open_wb w p fs = Ok (<[p := []]> fs))
  /\ match write_limit w p d with
     | None => outcome_of w dest u = Ok (Some p)
               /\ downloaded w dest u = Some (p, d)
     | Some _ => outcome_of w dest u = Raise OSError
     end.
Proof.
  intros Ho.
  destruct (download_url_cases w u dest ∅)
    as [(q & e & _ & Hout & Hd & _ & Hq & _ & Ho' & Hw)
       |[(_ & _ & _ & Ho')|[(x & _ & _ & _ & Ho')
       |(q & e & m & _ & Hout & _ & Ho' & Hw)]]];
    rewrite Ho' in Ho; try done; injection Ho as -> ->; rewrite Hw.
  all: revert Ho'; unfold opened;
    destruct (fetch_cases w u) as [(r & Hf & _)|[x Hf]]; rewrite Hf; simpl; [|done];
    destruct (open_wb_cases w (OsPath.join dest (OsPath.basename u)))
      as [[_ Hopen]|(x & _ & Hopen)]; rewrite Hopen; simpl; [|done];
    intros [= <- <-]; repeat split; try done; by exists r.
Qed.

Lemma opened_None w dest u :
  opened w dest u = None -> forall p, outcome_of w dest u <> Ok (Some p).
Proof.
  intros Ho p.
  destruct (download_url_cases w u dest ∅)
    as [(q & e & _ & _ & _ & _ & _ & _ & Ho' & _)
       |[(_ & -> & _)|[(x & _ & -> & _)|(q & e & m & _ & -> & _)]]];
    [congruence|done..].
Qed.

Lemma downloaded_opened w dest u p d :
  downloaded w dest u = Some (p, d) ->
  opened w dest u = Some (p, d) /\ write_limit w p d = None
  /\ outcome_of w dest u = Ok (Some p).
Proof.
  destruct (download_url_cases w u dest ∅)
    as [(q & e & _ & Hout & -> & _ & _ & _ & Ho & Hw)
       |[(_ & _ & -> & _)|[(x & _ & _ & -> & _)|(q & e & m & _ & _ & -> & _)]]];
    [|done..].
  by intros [= <- <-].
Qed.

(** C9. Downloading the same URL twice into the same directory writes
    the same path both times; afterwards that one path holds the bytes
    of the second download, no file was added by the second download,
    and every other file is as it was. *)
Theorem download_twice_overwrites w1 w2 url dest fs0 p1 fs1 p2 fs2 :
  download_url w1 url dest fs0 = (Ok (Some p1), fs1) ->
  download_url w2 url dest fs1 = (Ok (Some p2), fs2) ->
  p2 = p1
  /\ p1 = OsPath.join dest (OsPath.basename url)
  /\ (exists r2, get w2 url = Ok r2 /\ fs2 !! p1 = Some (content r2))
  /\ dom fs2 = dom fs1
  /\ (forall q, q <> p1 -> fs2 !! q = fs0 !! q).
Proof.
  intros H1 H2.
  destruct (download_url_cases w1 url dest fs0)
    as [(q1 & d1 & E1 & _ & _ & _ & Hq1 & _)
       |[(E1 & _)|[(e & E1 & _)|(q & d & m & E1 & _)]]];
    rewrite E1 in H1; try discriminate H1.
  injection H1 as Hp1 Hfs1. subst p1 fs1.
  destruct (download_url_cases w2 url dest (<[q1 := d1]> fs0))
    as [(q2 & d2 & E2 & _ & _ & _ & Hq2 & (r2 & Hr2 & Hd2) & _)
       |[(E2 & _)|[(e & E2 & _)|(q & d & m & E2 & _)]]];
    rewrite E2 in H2; try discriminate H2.
  injection H2 as Hp2 Hfs2. subst p2 fs2 d2.
  assert (q2 = q1) as -> by congruence.
  split; [done|]. split; [done|]. split; [|split].
  - exists r2. by rewrite lookup_insert_eq.
  - by rewrite insert_insert_eq, !dom_insert_L.
  - intros q Hq. by rewrite !lookup_insert_ne.
Qed.

End Downloads.

(** ** The pool *)

Section Pool.

Lemma without_absent i (l : list (nat * str)) : i ∉ l.*1 -> without i l = l.
Proof.
  induction l as [|[j v] l IH]; [done|]. simpl. intros H.
  apply not_elem_of_cons in H as [Hij Hl].
  unfold without in *. rewrite filter_cons_True by (simpl; congruence).
  by rewrite IH.
Qed.

Lemma item_url_elem i l u : item_url i l = Some u -> (i, u) ∈ l.
Proof.
  induction l as [|[j v] l IH]; simpl; [done|].
  destruct (Nat.eqb_spec i j) as [->|Hij].
  - intros [= ->]. left.
  - intros H. right. by apply IH.
Qed.

Lemma item_url_perm i l u :
  NoDup l.*1 -> item_url i l = Some u -> l ≡ₚ (i, u) :: without i l.
Proof.
  induction l as [|[j v] l IH]; simpl; [done|].
  intros [Hj Hnd]%NoDup_cons. unfold without in *.
  destruct (Nat.eqb_spec i j) as [->|Hij].
  - intros [= ->]. rewrite filter_cons_False by (simpl; tauto).
    fold (without j l). by rewrite without_absent.
  - intros H. rewrite filter_cons_True by (simpl; congruence).
    rewrite (IH Hnd H) at 1. apply Permutation_swap.
Qed.

Lemma item_url_unique i l u :
  NoDup l.*1 -> (i, u) ∈ l -> item_url i l = Some u.
Proof.
  induction l as [|[j v] l IH]; simpl.
  - intros _ H. by apply elem_of_nil in H.
  - intros [Hj Hnd]%NoDup_cons [[= -> ->]|Hin]%elem_of_cons.
    + by rewrite Nat.eqb_refl.
    + destruct (Nat.eqb_spec i j) as [->|Hij]; [|by apply IH].
      exfalso. apply Hj. apply list_elem_of_fmap. by exists (j, u).
Qed.

Lemma without_subseteq i (l : list (nat * str)) : without i l ⊆ l.
Proof. intros t Ht. unfold without in Ht. by apply list_elem_of_filter in Ht as [_ ?]. Qed.

Lemma elem_of_without i (l : list (nat * str)) t :
  t ∈ without i l <-> t.1 <> i /\ t ∈ l.
Proof. unfold without. by rewrite list_elem_of_filter. Qed.

Lemma opened_None_raises w dest u fs :
  opened w dest u = None ->
  exists e,
    (_ ← fetch w u; open_wb w (OsPath.join dest (OsPath.basename u)) fs)
    = Raise e.
Proof.
  unfold opened.
  destruct (fetch_cases w u) as [(r & -> & _)|[e ->]]; simpl; [|by eexists].
  destruct (open_wb_cases w (OsPath.join dest (OsPath.basename u)))
    as [[_ Hopen]|(e & _ & Hopen)]; rewrite !Hopen; simpl; [done|by eexists].
Qed.

(** [step] and [transition] are the same thing. *)
Lemma step_transition w dest workers n ev st st' :
  step w dest workers n ev st = Some st'
  <-> transition w dest workers n st ev st'.
Proof.
  split.
  - destruct ev as [| |i|i k|i|]; simpl.
    + destruct (pending st) as [|t rest] eqn:Hp; [done|].
      destruct (Nat.ltb_spec (length (queued st)) (workers + EXTRA_QUEUED_CALLS));
        [|done].
      intros [= <-]. by econstructor.
    + destruct (queued st) as [|t rest] eqn:Hq; [done|].
      destruct (Nat.ltb_spec (length (running st)) workers); [|done].
      intros [= <-]. by econstructor.
    + destruct (item_url i (running st)) as [u|] eqn:Hi; [|done].
      destruct (progress st !! i) eqn:Hpr; [done|].
      destruct (opened w dest u) as [[p d]|] eqn:Ho.
      * destruct (opened_outcome _ _ _ _ _ Ho) as (-> & (r & Hf & <-) & Hopen & _).
        rewrite Hf. simpl. rewrite Hopen. intros [= <-]. by econstructor.
      * destruct (opened_None_raises _ _ _ (files st) Ho) as [e ->].
        intros [= <-]. by econstructor.
    + destruct (item_url i (running st)) as [u|] eqn:Hi; [|done].
      destruct (progress st !! i) as [[|offset]|] eqn:Hpr; [done| |done].
      destruct (fetch w u) as [r|e] eqn:Hf; [|done].
      destruct (Nat.ltb_spec 0 k); [|done].
      destruct (Nat.leb_spec (offset + k)
                  (extent w (OsPath.join dest (OsPath.basename u)) (content r)));
        [|done].
      simpl. intros [= <-]. by econstructor.
    + destruct (item_url i (running st)) as [u|] eqn:Hi; [|done].
      destruct (progress st !! i) as [ph|] eqn:Hpr; [|done].
      destruct (written_out w dest u ph) eqn:Hw; [|done].
      intros [= <-]. rewrite download_url_outcome. by econstructor.
    + destruct (read_results (futures st) (seq 0 n)) eqn:Hr; try done.
      intros [= <-]. by econstructor.
  - intros [t rest Hp Hl|t rest Hq Hl|i u p d Hi Hpr Ho|i u Hi Hpr Ho
           |i k u r offset Hi Hpr Hf Hk Hext|i u ph Hi Hpr Hw|e Hr]; simpl.
    + rewrite Hp. by destruct (Nat.ltb_spec (length (queued st))
                                 (workers + EXTRA_QUEUED_CALLS)); [|lia].
    + rewrite Hq. by destruct (Nat.ltb_spec (length (running st)) workers); [|lia].
    + rewrite Hi, Hpr.
      destruct (opened_outcome _ _ _ _ _ Ho) as (-> & (r & Hf & <-) & Hopen & _).
      rewrite Hf. simpl. by rewrite Hopen.
    + rewrite Hi, Hpr. by destruct (opened_None_raises _ _ _ (files st) Ho) as [e ->].
    + rewrite Hi, Hpr, Hf.
      destruct (Nat.ltb_spec 0 k); [|lia].
      by destruct (Nat.leb_spec (offset + k)
                     (extent w (OsPath.join dest (OsPath.basename u)) (content r)));
        [|lia].
    + by rewrite Hi, Hpr, Hw, download_url_outcome.
    + by rewrite Hr.
Qed.

Lemma sound_moved w dest urls st st' :
  sound w dest urls st ->
  items st' ≡ₚ items st ->
  running st ⊆ running st' ->
  progress st' = progress st ->
  futures st' = futures st ->
  files st' = files st ->
  sound w dest urls st'.
Proof.
  intros [H1 H2 H3 H4 H5] Hi Hr Hp Hf Hd. split.
  - intros i u Hin. apply H1. by rewrite <- Hi.
  - by rewrite Hi, Hf.
  - by rewrite Hf.
  - rewrite Hp, Hd. intros i ph Hph.
    destruct (H4 i ph Hph) as (u & Hu & Hrest). exists u. split; [by apply Hr|done].
  - by rewrite Hf, Hd.
Qed.

Lemma sound_nodup w dest urls st :
  sound w dest urls st -> NoDup ((items st).*1 ++ elements (dom (futures st))).
Proof. intros [_ H _ _ _]. rewrite H. apply NoDup_seq. Qed.

Lemma sound_running_nodup w dest urls st :
  sound w dest urls st -> NoDup (running st).*1.
Proof.
  intros Hnd%sound_nodup.
  apply NoDup_app in Hnd as [Hnd _]. unfold items in Hnd.
  rewrite !fmap_app in Hnd.
  apply NoDup_app in Hnd as (_ & _ & Hnd).
  apply NoDup_app in Hnd as (_ & _ & Hnd).
  by apply NoDup_app in Hnd as (Hnd & _ & _).
Qed.

(** An item in a worker has no future yet. *)
Lemma running_fresh w dest urls st i u :
  sound w dest urls st -> (i, u) ∈ running st -> futures st !! i = None.
Proof.
  intros Hs Hi. apply not_elem_of_dom.
  pose proof (sound_nodup _ _ _ _ Hs) as (_ & Hdisj & _)%NoDup_app.
  intros Hin%elem_of_elements. apply (Hdisj i); [|done].
  unfold items. rewrite !fmap_app, !elem_of_app. right; right; left.
  apply list_elem_of_fmap. by exists (i, u).
Qed.

Lemma finish_fresh w dest urls st i u :
  sound w dest urls st -> item_url i (running st) = Some u ->
  i ∉ dom (futures st).
Proof.
  intros Hs Hi%item_url_elem. apply not_elem_of_dom. by eapply running_fresh.
Qed.

(** The download in progress under a number is that of the item in the
    worker. *)
Lemma sound_writing w dest urls st i u offset :
  sound w dest urls st ->
  item_url i (running st) = Some u ->
  progress st !! i = Some (Writing offset) ->
  exists p d, opened w dest u = Some (p, d)
              /\ offset <= extent w p d /\ p ∈ dom (files st).
Proof.
  intros Hs Hi Hpr.
  destruct (sound_progress _ _ _ _ Hs _ _ Hpr) as (u' & Hu' & Hrest).
  apply (item_url_unique _ _ _ (sound_running_nodup _ _ _ _ Hs)) in Hu'.
  by assert (u' = u) as -> by congruence.
Qed.

Lemma sound_halted w dest urls st i u :
  sound w dest urls st ->
  item_url i (running st) = Some u ->
  progress st !! i = Some Halted ->
  opened w dest u = None.
Proof.
  intros Hs Hi Hpr.
  destruct (sound_progress _ _ _ _ Hs _ _ Hpr) as (u' & Hu' & Hrest).
  apply (item_url_unique _ _ _ (sound_running_nodup _ _ _ _ Hs)) in Hu'.
  by assert (u' = u) as -> by congruence.
Qed.

Lemma step_sound w dest workers urls ev st st' :
  sound w dest urls st ->
  step w dest workers (length urls) ev st = Some st' ->
  sound w dest urls st'.
Proof.
  intros Hs HT%step_transition.
  destruct HT as [t rest Hp Hl|t rest Hq Hl|i u p d Hi Hpr Ho|i u Hi Hpr Ho
                 |i k u r offset Hi Hpr Hf Hk Hext|i u ph Hi Hpr Hw|e Hr].
  - eapply sound_moved; [done| |done..].
    unfold items. simpl. rewrite Hp. solve_Permutation.
  - eapply sound_moved; [done| |simpl|done..].
    + unfold items. simpl. rewrite Hq. solve_Permutation.
    + intros x Hx. apply elem_of_app. by left.
  - destruct Hs as [H1 H2 H3 H4 H5]. split; simpl; try done.
    + intros j ph. destruct (decide (i = j)) as [<-|Hij].
      * rewrite lookup_insert_eq. intros [= <-]. exists u.
        split; [by apply item_url_elem|]. exists p, d.
        split; [done|]. split; [lia|]. rewrite dom_insert_L. set_solver.
      * rewrite lookup_insert_ne by done. intros Hph.
        destruct (H4 j ph Hph) as (v & Hv & Hrest). exists v. split; [done|].
        destruct ph as [|off]; [done|].
        destruct Hrest as (q & e & ? & ? & ?). exists q, e.
        split; [done|]. split; [done|]. rewrite dom_insert_L. set_solver.
    + intros j q Hj. rewrite dom_insert_L. apply elem_of_union_r. by eapply H5.
  - destruct Hs as [H1 H2 H3 H4 H5]. split; simpl; try done.
    intros j ph. destruct (decide (i = j)) as [<-|Hij].
    + rewrite lookup_insert_eq. intros [= <-]. exists u.
      split; [by apply item_url_elem|done].
    + rewrite lookup_insert_ne by done. apply H4.
  - destruct (sound_writing _ _ _ _ _ _ _ Hs Hi Hpr) as (p & d & Ho & Hoff & Hdom).
    destruct (opened_outcome _ _ _ _ _ Ho) as (Hp & (r' & Hf' & Hd) & _).
    assert (r' = r) as -> by congruence. subst p d.
    destruct Hs as [H1 H2 H3 H4 H5]. split; simpl; try done.
    + intros j ph. destruct (decide (i = j)) as [<-|Hij].
      * rewrite lookup_insert_eq. intros [= <-]. exists u.
        split; [by apply item_url_elem|].
        eexists _, _. split; [done|]. split; [done|].
        rewrite dom_insert_L. set_solver.
      * rewrite lookup_insert_ne by done. intros Hph.
        destruct (H4 j ph Hph) as (v & Hv & Hrest). exists v. split; [done|].
        destruct ph as [|off]; [done|].
        destruct Hrest as (q & e & ? & ? & ?). exists q, e.
        split; [done|]. split; [done|]. rewrite dom_insert_L. set_solver.
    + intros j q Hj. rewrite dom_insert_L. apply elem_of_union_r. by eapply H5.
  - pose proof (sound_nodup _ _ _ _ Hs) as Hnd.
    pose proof (sound_running_nodup _ _ _ _ Hs) as Hndr.
    pose proof (finish_fresh _ _ _ _ _ _ Hs Hi) as Hfresh.
    assert (Hph : match ph with
                  | Halted => opened w dest u = None
                  | Writing offset =>
                      exists p d, opened w dest u = Some (p, d)
                                  /\ offset <= extent w p d /\ p ∈ dom (files st)
                  end).
    { destruct ph; [by eapply sound_halted|by eapply sound_writing]. }
    destruct Hs as [H1 H2 H3 H4 H5].
    assert (Hrun : running st ≡ₚ (i, u) :: without i (running st))
      by by apply item_url_perm.
    assert (Hitems : items st ≡ₚ (i, u) ::
              (pending st ++ queued st ++ without i (running st) ++ cancelled st)).
    { unfold items. rewrite Hrun at 1. solve_Permutation. }
    assert (Hurl : urls !! i = Some u).
    { apply H1. rewrite Hitems. left. }
    split; simpl.
    + intros j v Hin. apply H1. rewrite Hitems. right. exact Hin.
    + rewrite dom_insert_L, elements_union_singleton by done.
      rewrite <- H2, Hitems. simpl. solve_Permutation.
    + intros j r' Hj. destruct (decide (i = j)) as [<-|Hij].
      * rewrite lookup_insert_eq in Hj. injection Hj as <-. by exists u.
      * rewrite lookup_insert_ne in Hj by done. by apply H3.
    + intros j ph'. destruct (decide (i = j)) as [<-|Hij].
      * by rewrite lookup_delete_eq.
      * rewrite lookup_delete_ne by done. intros Hj.
        destruct (H4 j ph' Hj) as (v & Hv & Hrest). exists v. split; [|done].
        apply elem_of_without. split; [simpl; congruence|done].
    + intros j q. destruct (decide (i = j)) as [<-|Hij].
      * rewrite lookup_insert_eq. intros [= Hout].
        destruct ph as [|offset].
        { by apply (opened_None _ _ _ Hph) in Hout. }
        destruct Hph as (p & d & Ho & _ & Hdom).
        destruct (opened_outcome _ _ _ _ _ Ho) as (_ & _ & _ & Hlim).
        destruct (write_limit w p d).
        -- rewrite Hout in Hlim. done.
        -- destruct Hlim as [Hout' _]. congruence.
      * rewrite lookup_insert_ne by done. apply H5.
  - eapply sound_moved; [done| |done..].
    unfold items. simpl. solve_Permutation.
Qed.

Lemma run_sound w dest workers urls evs :
  forall st st',
    sound w dest urls st ->
    run w dest workers (length urls) evs st = Some st' ->
    sound w dest urls st'.
Proof.
  induction evs as [|ev evs IH]; intros st st' Hs; simpl.
  - by intros [= <-].
  - destruct (step w dest workers (length urls) ev st) as [st1|] eqn:E; [|done].
    apply IH. by eapply step_sound.
Qed.

Lemma imap_items_fst (l : list str) k :
  (imap (fun i u => (k + i, u)) l).*1 = seq k (length l).
Proof.
  revert k. induction l as [|u l IH]; intros k; simpl; [done|].
  rewrite Nat.add_0_r. f_equal. rewrite <- (IH (S k)). f_equal.
  apply imap_ext. intros i x _. simpl. f_equal. lia.
Qed.

Lemma submit_sound w dest urls fs : sound w dest urls (submit urls fs).
Proof.
  split; unfold items; simpl.
  - rewrite !app_nil_r.
    intros i u (j & x & [= -> ->] & Hx)%elem_of_lookup_imap. done.
  - rewrite dom_empty_L, elements_empty, ?app_nil_r.
    by rewrite <- (imap_items_fst urls 0).
  - intros i r. by rewrite lookup_empty.
  - intros i ph. by rewrite lookup_empty.
  - intros i p. by rewrite lookup_empty.
Qed.

Lemma read_results_failed fut idx e :
  read_results fut idx = Failed e -> exists i, fut !! i = Some (Raise e).
Proof.
  induction idx as [|i idx IH]; simpl; [done|].
  destruct (fut !! i) as [[r|e']|] eqn:E.
  - destruct (read_results fut idx); done.
  - intros [= ->]. by exists i.
  - done.
Qed.

Lemma sound_no_failure w dest urls st :
  all_return w dest urls -> sound w dest urls st ->
  forall idx e, read_results (futures st) idx <> Failed e.
Proof.
  intros Hret Hs idx e (i & Hi)%read_results_failed.
  destruct (sound_futures _ _ _ _ Hs _ _ Hi) as (u & Hu & Hr).
  destruct (Hret u) as [o Ho]; [by eapply list_elem_of_lookup_2|]. congruence.
Qed.

(** Only a cancellation changes what is cancelled. *)
Lemma step_keeps_cancelled w dest workers n ev st st' :
  step w dest workers n ev st = Some st' ->
  ev <> Cancel -> cancelled st' = cancelled st.
Proof. intros HT%step_transition Hev. by destruct HT. Qed.

(** When no download raises, nothing is ever cancelled. *)
Lemma run_no_cancel w dest workers urls evs :
  all_return w dest urls ->
  forall st st',
    sound w dest urls st -> cancelled st = [] ->
    run w dest workers (length urls) evs st = Some st' ->
    cancelled st' = [].
Proof.
  intros Hret. induction evs as [|ev evs IH]; intros st st' Hs Hc; simpl.
  - by intros [= <-].
  - destruct (step w dest workers (length urls) ev st) as [st1|] eqn:E; [|done].
    apply IH; [by eapply step_sound|].
    destruct (decide (ev = Cancel)) as [->|Hev].
    + simpl in E. destruct (read_results _ _) eqn:Hr; try done.
      by apply (sound_no_failure _ _ _ _ Hret Hs) in Hr.
    + by rewrite (step_keeps_cancelled _ _ _ _ _ _ _ E Hev).
Qed.

(** A schedule without a cancellation cancels nothing. *)
Lemma run_without_cancel w dest workers n evs :
  Cancel ∉ evs ->
  forall st st',
    run w dest workers n evs st = Some st' -> cancelled st' = cancelled st.
Proof.
  induction evs as [|ev evs IH]; intros Hc st st'; simpl.
  - by intros [= <-].
  - apply not_elem_of_cons in Hc as [Hev Hc].
    destruct (step w dest workers n ev st) as [st1|] eqn:E; [|done].
    intros Hrun. rewrite (IH Hc _ _ Hrun).
    by apply (step_keeps_cancelled _ _ _ _ _ _ _ E).
Qed.

Lemma read_results_set (fut : gmap nat outcome) (os : list outcome) k :
  (forall j o, os !! j = Some o -> fut !! (k + j) = Some o) ->
  read_results fut (seq k (length os)) = read_outcomes os.
Proof.
  revert k. induction os as [|o os IH]; intros k Hset; simpl; [done|].
  rewrite <- (Nat.add_0_r k) at 1. rewrite (Hset 0 o eq_refl).
  rewrite (IH (S k)); [done|].
  intros j o' Hj. rewrite <- (Hset (S j) o' Hj). f_equal. lia.
Qed.

(** In a pool that has come to rest without a cancellation every future
    is set, so the caller reads the outcomes of the URLs in order. *)
Lemma idle_read_results w dest urls st :
  sound w dest urls st -> idle st = true -> cancelled st = [] ->
  dom (futures st) = list_to_set (seq 0 (length urls))
  /\ read_results (futures st) (seq 0 (length urls))
     = read_outcomes (map (outcome_of w dest) urls).
Proof.
  intros Hs Hidle Hc.
  assert (Hitems : items st = []).
  { unfold items, idle in *. rewrite Hc.
    by destruct (pending st), (queued st), (running st). }
  pose proof (sound_perm _ _ _ _ Hs) as Hp. rewrite Hitems in Hp. simpl in Hp.
  assert (Hdom : forall i, i ∈ dom (futures st) <-> i < length urls).
  { intros i. rewrite <- elem_of_elements, Hp, elem_of_seq. lia. }
  split.
  - apply set_eq. intros i. rewrite Hdom, elem_of_list_to_set, elem_of_seq. lia.
  - rewrite <- (length_map (outcome_of w dest) urls).
    apply read_results_set. intros j o Hj. simpl.
    apply list_lookup_fmap_Some in Hj as (u & -> & Hu).
    assert (Hin : j ∈ dom (futures st)).
    { apply Hdom. by eapply lookup_lt_Some. }
    apply elem_of_dom in Hin as [r Hr]. rewrite Hr.
    destruct (sound_futures _ _ _ _ Hs _ _ Hr) as (u' & Hu' & ->). congruence.
Qed.

(** In a pool at rest no download is in progress. *)
Lemma idle_progress w dest urls st :
  sound w dest urls st -> idle st = true -> progress st = ∅.
Proof.
  intros Hs Hidle. apply map_empty. intros i.
  destruct (progress st !! i) as [ph|] eqn:Hph; [|done].
  destruct (sound_progress _ _ _ _ Hs _ _ Hph) as (u & Hu & _).
  unfold idle in Hidle.
  destruct (pending st), (queued st), (running st); try done.
  by apply elem_of_nil in Hu.
Qed.

Lemma read_outcomes_return w dest urls :
  all_return w dest urls ->
  exists results,
    read_outcomes (map (outcome_of w dest) urls) = Complete results
    /\ truthy_files results = (successes w dest urls).*1.
Proof.
  induction urls as [|u urls IH]; intros Hret.
  - by exists [].
  - destruct IH as (results & Hr & Ht).
    { intros v Hv. apply Hret. by right. }
    destruct (Hret u) as [o Ho]; [left|].
    simpl. rewrite Ho, Hr. exists (o :: results). split; [done|].
    unfold successes, truthy_files in *. simpl.
    destruct (download_url_cases w u dest ∅)
      as [(p & d & _ & Ho' & Hd & Hp & _)
         |[(_ & Ho' & Hd & _)|[(e & _ & Ho' & _)|(p & d & m & _ & Ho' & _)]]];
      rewrite Ho' in Ho; simplify_eq; rewrite Hd; simpl.
    + rewrite filter_cons_True by done. f_equal. exact Ht.
    + exact Ht.
Qed.

Lemma total_size_successes (fs : disk) (ds : list (str * list ascii)) :
  (forall p d, (p, d) ∈ ds ->
     exists d', fs !! p = Some d' /\ length d' = length d) ->
  total_size fs ds.*1 = Ok (byte_count ds).
Proof.
  induction ds as [|[p d] ds IH]; intros H; [done|].
  destruct (H p d) as (d' & Hd' & Hlen); [left|].
  rewrite fmap_cons. cbn [total_size]. rewrite IH.
  - unfold st_size. simpl. rewrite Hd'. simpl. by rewrite Hlen.
  - intros q e Hq. apply H. by right.
Qed.

(** Each item is completed once if its future is set at the end of a
    run, and never otherwise. *)
Lemma run_completions w dest workers urls evs i :
  forall st st',
    sound w dest urls st ->
    run w dest workers (length urls) evs st = Some st' ->
    completions i evs + (if decide (i ∈ dom (futures st)) then 1 else 0)
    = (if decide (i ∈ dom (futures st')) then 1 else 0).
Proof.
  unfold completions.
  induction evs as [|ev evs IH]; intros st st' Hs; simpl.
  - by intros [= <-].
  - destruct (step w dest workers (length urls) ev st) as [st1|] eqn:E; [|done].
    intros Hrun. pose proof (step_sound _ _ _ _ _ _ _ Hs E) as Hs1.
    specialize (IH _ _ Hs1 Hrun). rewrite <- IH. clear IH Hrun.
    apply step_transition in E.
    destruct E as [t rest Hp Hl|t rest Hq Hl|j u p d Hi Hpr Ho|j u Hi Hpr Ho
                  |j k u r offset Hi Hpr Hf Hk Hext|j u ph Hi Hpr Hw|e Hr];
      try (rewrite filter_cons_False by done; done).
    pose proof (finish_fresh _ _ _ _ _ _ Hs Hi) as Hfresh. simpl.
    rewrite dom_insert_L.
    destruct (decide (j = i)) as [->|Hji].
    + rewrite filter_cons_True by done. simpl.
      rewrite (decide_False (P := i ∈ dom (futures st))) by done.
      rewrite decide_True by (apply elem_of_union_l; by apply elem_of_singleton). lia.
    + rewrite filter_cons_False by congruence.
      destruct (decide (i ∈ dom (futures st))).
      * rewrite decide_True by (by apply elem_of_union_r). done.
      * rewrite decide_False; [done|].
        rewrite elem_of_union, elem_of_singleton.
        intros [Heq|Hin]; [by apply Hji|done].
Qed.

Lemma step_running_bound w dest workers n ev st st' :
  length (running st) <= workers ->
  step w dest workers n ev st = Some st' ->
  length (running st') <= workers.
Proof.
  intros Hb HT%step_transition. destruct HT; simpl; try done.
  - rewrite length_app. simpl. lia.
  - unfold without. etrans; [apply length_filter|done].
Qed.

Lemma run_running_bound w dest workers n evs :
  forall st st',
    length (running st) <= workers ->
    run w dest workers n evs st = Some st' ->
    length (running st') <= workers.
Proof.
  induction evs as [|ev evs IH]; intros st st' Hb; simpl.
  - by intros [= <-].
  - destruct (step w dest workers n ev st) as [st1|] eqn:E; [|done].
    apply IH. by eapply step_running_bound.
Qed.

(** C3. Whatever the pool of a crawl with bound [cpus] has done so
    far, on any number of submitted URLs, the downloads in its workers
    number at most [cpus]. *)
Theorem in_flight_bounded w dest cpus urls fs evs st :
  run w dest (Z.to_nat cpus) (length urls) evs (submit urls fs) = Some st ->
  length (running st) <= Z.to_nat cpus.
Proof. apply run_running_bound. simpl. lia. Qed.

End Pool.

(** ** The files while writes interleave *)

Section Files.

Lemma pwrite_length old offset chunk :
  length (pwrite old offset chunk)
  = Nat.max (length old) (offset + length chunk).
Proof.
  unfold pwrite.
  rewrite !length_app, length_take, length_replicate, length_drop. lia.
Qed.

Lemma pwrite_lookup old offset chunk x :
  pwrite old offset chunk !! x
  = if decide (x < offset) then Some (default NUL (old !! x))
    else if decide (x < offset + length chunk) then chunk !! (x - offset)
    else old !! x.
Proof.
  unfold pwrite. destruct (decide (x < offset)) as [Hx|Hx].
  - destruct (decide (x < length old)) as [Ho|Ho].
    + rewrite lookup_app_l by (rewrite length_take; lia).
      rewrite lookup_take_lt by done.
      destruct (lookup_lt_is_Some_2 old x Ho) as [a ->]. done.
    + rewrite lookup_app_r by (rewrite length_take; lia).
      rewrite length_take.
      rewrite lookup_app_l by (rewrite length_replicate; lia).
      rewrite (lookup_ge_None_2 old x) by lia. simpl.
      apply lookup_replicate_2. lia.
  - rewrite app_assoc.
    assert (Hl : length (take offset old ++ replicate (offset - length old) NUL)
                 = offset).
    { rewrite length_app, length_take, length_replicate. lia. }
    rewrite lookup_app_r by lia. rewrite Hl.
    destruct (decide (x < offset + length chunk)) as [Hc|Hc].
    + by rewrite lookup_app_l by lia.
    + rewrite lookup_app_r by lia. rewrite lookup_drop. f_equal. lia.
Qed.

Lemma pwrite_fresh chunk : pwrite [] 0 chunk = chunk.
Proof. unfold pwrite. simpl. by rewrite drop_nil, app_nil_r. Qed.

Variable P : str -> nat -> ascii -> Prop.
Variable w : world.
Variable dest : str.
Variable urls : list str.

Lemma submit_sized fs : sized w dest urls (submit urls fs).
Proof. intros i u p d offset _ _. unfold reached. simpl. by rewrite !lookup_empty. Qed.

Lemma reached_unset st i d :
  progress st !! i = None -> futures st !! i = None -> reached st i d = None.
Proof. unfold reached. by intros -> ->. Qed.

Hypothesis Hret : all_return w dest urls.
Hypothesis HP : forall u p d k a,
  u ∈ urls -> opened w dest u = Some (p, d) -> d !! k = Some a -> P p k a.

(** When all downloads return, one that opens its file writes all of
    its body and returns its path. *)
Lemma opened_returns u p d :
  u ∈ urls -> opened w dest u = Some (p, d) ->
  extent w p d = length d
  /\ outcome_of w dest u = Ok (Some p)
  /\ downloaded w dest u = Some (p, d).
Proof using Hret.
  intros Hu Ho. destruct (Hret u Hu) as [o Hout].
  destruct (opened_outcome _ _ _ _ _ Ho) as (_ & _ & _ & Hlim).
  destruct (write_limit w p d) eqn:Hw; [congruence|].
  split; [by apply extent_all|done].
Qed.

Lemma submit_settled fs : settled P w dest urls (submit urls fs).
Proof. intros i u p d offset _ _. unfold reached. simpl. by rewrite !lookup_empty. Qed.

(** Completing an item does not change what the downloads have
    written. *)
Lemma finish_reached st i u ph :
  sound w dest urls st ->
  item_url i (running st) = Some u ->
  progress st !! i = Some ph ->
  written_out w dest u ph = true ->
  forall j v d p,
    urls !! j = Some v ->
    opened w dest v = Some (p, d) ->
    reached (mkPool (pending st) (queued st) (without i (running st))
               (delete i (progress st))
               (<[i := outcome_of w dest u]> (futures st))
               (cancelled st) (files st)) j d
    = reached st j d.
Proof using Hret.
  intros Hs Hi Hpr Hw.
  assert (Hurl : urls !! i = Some u).
  { apply (sound_items _ _ _ _ Hs). unfold items. rewrite !elem_of_app.
    right; right; left. by apply item_url_elem. }
  assert (Hin : u ∈ urls) by by eapply list_elem_of_lookup_2.
  intros j v d p Hv Hov. destruct (decide (j = i)) as [->|Hj].
  - assert (v = u) as -> by congruence. unfold reached. simpl.
    rewrite lookup_delete_eq, lookup_insert_eq, Hpr.
    destruct (opened_returns _ _ _ Hin Hov) as (Hfull & -> & _).
    destruct ph as [|offset].
    + by rewrite (sound_halted _ _ _ _ _ _ Hs Hi Hpr) in Hov.
    + simpl in Hw. destruct (opened_outcome _ _ _ _ _ Hov) as (-> & (r & Hf & <-) & _).
      rewrite Hf in Hw. apply Nat.eqb_eq in Hw. congruence.
  - unfold reached. simpl. by rewrite lookup_delete_ne, lookup_insert_ne.
Qed.

Lemma step_sized workers ev st st' :
  sound w dest urls st ->
  sized w dest urls st ->
  step w dest workers (length urls) ev st = Some st' ->
  sized w dest urls st'.
Proof using Hret.
  intros Hs Hset HT%step_transition.
  destruct HT as [t rest Hp Hl|t rest Hq Hl|i u p0 d0 Hi Hpr Ho|i u Hi Hpr Ho
                 |i k u r off0 Hi Hpr Hf Hk Hext|i u ph Hi Hpr Hw|e Hr];
    try exact Hset.
  - (* a download opens its file *)
    pose proof (running_fresh _ _ _ _ _ _ Hs (item_url_elem _ _ _ Hi)) as Hfut.
    assert (Hurl : urls !! i = Some u).
    { apply (sound_items _ _ _ _ Hs). unfold items. rewrite !elem_of_app.
      right; right; left. by apply item_url_elem. }
    intros i' u' p d off Hu' Ho' Hreach.
    destruct (decide (p = p0)) as [->|Hp].
    + exists []. simpl. rewrite lookup_insert_eq. split; [done|].
      split; exists i, u, d0, 0; (split; [done|]); (split; [done|]);
        (split; [|done]); unfold reached; simpl; by rewrite lookup_insert_eq.
    + assert (Hne : i' <> i) by (intros ->; congruence).
      assert (Hold : reached st i' d = Some off).
      { revert Hreach. unfold reached. simpl. by rewrite lookup_insert_ne. }
      destruct (Hset _ _ _ _ _ Hu' Ho' Hold)
        as (c & Hc & (j & v & e & off' & Hv & Hov & Hrj & Hoff)
              & (j2 & v2 & e2 & off2 & Hv2 & Hov2 & Hrj2 & Hoff2)).
      exists c. simpl. rewrite lookup_insert_ne by done. split; [done|].
      split.
      * exists j, v, e, off'. split; [done|]. split; [done|]. split; [|done].
        assert (j <> i) by (intros ->; congruence).
        unfold reached in *. simpl. by rewrite lookup_insert_ne.
      * exists j2, v2, e2, off2. split; [done|]. split; [done|]. split; [|done].
        assert (j2 <> i) by (intros ->; congruence).
        unfold reached in *. simpl. by rewrite lookup_insert_ne.
  - (* a download ends before writing *)
    pose proof (running_fresh _ _ _ _ _ _ Hs (item_url_elem _ _ _ Hi)) as Hfut.
    pose proof (reached_unset st i) as Hnone.
    intros i' u' p d off Hu' Ho' Hreach.
    assert (Hne : i' <> i).
    { intros ->. revert Hreach. unfold reached. simpl. by rewrite lookup_insert_eq. }
    assert (Hold : reached st i' d = Some off).
    { revert Hreach. unfold reached. simpl. by rewrite lookup_insert_ne. }
    destruct (Hset _ _ _ _ _ Hu' Ho' Hold)
      as (c & Hc & (j & v & e & off' & Hv & Hov & Hrj & Hoff)
            & (j2 & v2 & e2 & off2 & Hv2 & Hov2 & Hrj2 & Hoff2)).
    exists c. split; [done|]. split.
    + exists j, v, e, off'. split; [done|]. split; [done|]. split; [|done].
      assert (j <> i) by (intros ->; rewrite Hnone in Hrj; done).
      unfold reached in *. simpl. by rewrite lookup_insert_ne.
    + exists j2, v2, e2, off2. split; [done|]. split; [done|]. split; [|done].
      assert (j2 <> i) by (intros ->; rewrite Hnone in Hrj2; done).
      unfold reached in *. simpl. by rewrite lookup_insert_ne.
  - (* a download writes its next bytes *)
    destruct (sound_writing _ _ _ _ _ _ _ Hs Hi Hpr) as (p0 & d0 & Ho & _ & _).
    destruct (opened_outcome _ _ _ _ _ Ho) as (Hp0 & (r' & Hf' & Hd0) & _).
    assert (r' = r) as -> by congruence.
    assert (Hurl : urls !! i = Some u).
    { apply (sound_items _ _ _ _ Hs). unfold items. rewrite !elem_of_app.
      right; right; left. by apply item_url_elem. }
    assert (Hin : u ∈ urls) by by eapply list_elem_of_lookup_2.
    destruct (opened_returns _ _ _ Hin Ho) as (Hfull & _).
    rewrite <- Hp0, Hd0 in *. rewrite Hfull in Hext.
    assert (Hreach0 : reached st i d0 = Some off0).
    { unfold reached. by rewrite Hpr. }
    set (chunk := take k (drop off0 d0)).
    assert (Hchunk : length chunk = k).
    { unfold chunk. rewrite length_take, length_drop. lia. }
    intros i' u' p d off Hu' Ho' Hreach.
    destruct (decide (p = p0)) as [->|Hp].
    2: { assert (Hne : i' <> i) by (intros ->; congruence).
         assert (Hold : reached st i' d = Some off).
         { revert Hreach. unfold reached. simpl. by rewrite lookup_insert_ne. }
         destruct (Hset _ _ _ _ _ Hu' Ho' Hold)
           as (c & Hc & (j & v & e & off' & Hv & Hov & Hrj & Hoff)
                 & (j2 & v2 & e2 & off2 & Hv2 & Hov2 & Hrj2 & Hoff2)).
         exists c. simpl. rewrite lookup_insert_ne by done. split; [done|].
         split.
         - exists j, v, e, off'. split; [done|]. split; [done|]. split; [|done].
           assert (j <> i) by (intros ->; congruence).
           unfold reached in *. simpl. by rewrite lookup_insert_ne.
         - exists j2, v2, e2, off2. split; [done|]. split; [done|]. split; [|done].
           assert (j2 <> i) by (intros ->; congruence).
           unfold reached in *. simpl. by rewrite lookup_insert_ne. }
    destruct (Hset _ _ _ _ _ Hurl Ho Hreach0)
      as (c & Hc & (j & v & e & off' & Hv & Hov & Hrj & Hoff)
            & (j2 & v2 & e2 & off2 & Hv2 & Hov2 & Hrj2 & Hoff2)).
    simpl. rewrite lookup_insert_eq, Hc. simpl. fold chunk.
    eexists. split; [done|]. rewrite pwrite_length, Hchunk.
    assert (Hji : forall x y z, urls !! i = Some x -> opened w dest x = Some (p0, y) ->
                    reached st i y = Some z -> z = off0).
    { intros x y z Hx Hy Hz. assert (x = u) as -> by congruence.
      assert (y = d0) as -> by congruence. congruence. }
    split.
    + exists j, v, e, (if decide (j = i) then off0 + k else off').
      split; [done|]. split; [done|]. split.
      { unfold reached in *. simpl. destruct (decide (j = i)) as [->|Hne].
        - by rewrite lookup_insert_eq.
        - by rewrite lookup_insert_ne. }
      destruct (decide (j = i)); lia.
    + destruct (decide (length c <= off0 + k)) as [Hle|Hgt].
      * exists i, u, d0, (off0 + k). split; [done|]. split; [done|]. split; [|lia].
        unfold reached. simpl. by rewrite lookup_insert_eq.
      * exists j2, v2, e2, off2. split; [done|]. split; [done|]. split; [|lia].
        assert (j2 <> i).
        { intros ->. specialize (Hji _ _ _ Hv2 Hov2 Hrj2). lia. }
        unfold reached in *. simpl. by rewrite lookup_insert_ne.
  - (* a download returns *)
    pose proof (finish_reached _ _ _ _ Hs Hi Hpr Hw) as Hall.
    intros i' u' p d off Hu' Ho' Hreach.
    rewrite (Hall _ _ _ _ Hu' Ho') in Hreach.
    destruct (Hset _ _ _ _ _ Hu' Ho' Hreach)
      as (c & Hc & (j & v & e & off' & Hv & Hov & Hrj & Hoff)
            & (j2 & v2 & e2 & off2 & Hv2 & Hov2 & Hrj2 & Hoff2)).
    exists c. split; [done|]. split.
    + exists j, v, e, off'. split; [done|]. split; [done|].
      split; [|done]. by rewrite (Hall _ _ _ _ Hv Hov).
    + exists j2, v2, e2, off2. split; [done|]. split; [done|].
      split; [|done]. by rewrite (Hall _ _ _ _ Hv2 Hov2).
Qed.

Lemma run_sized workers evs :
  forall st st',
    sound w dest urls st ->
    sized w dest urls st ->
    run w dest workers (length urls) evs st = Some st' ->
    sized w dest urls st'.
Proof using Hret.
  induction evs as [|ev evs IH]; intros st st' Hs Hset; simpl.
  - by intros [= <-].
  - destruct (step w dest workers (length urls) ev st) as [st1|] eqn:E; [|done].
    apply IH; [by eapply step_sound|by eapply step_sized].
Qed.

(** When the pool has come to rest, the file of a download that
    succeeded is as long as the body of one of the downloads that
    succeeded with that path. *)
Lemma idle_sized st i u p d :
  sound w dest urls st -> sized w dest urls st -> idle st = true ->
  urls !! i = Some u -> downloaded w dest u = Some (p, d) ->
  futures st !! i = Some (Ok (Some p)) ->
  exists c v e, files st !! p = Some c /\ v ∈ urls
                /\ downloaded w dest v = Some (p, e)
                /\ length c = length e.
Proof using Hret.
  intros Hs Hset Hidle Hu Hd Hfut.
  apply downloaded_opened in Hd as (Ho & _ & _).
  pose proof (idle_progress _ _ _ _ Hs Hidle) as Hpr.
  assert (Hreach : reached st i d = Some (length d)).
  { unfold reached. by rewrite Hpr, lookup_empty, Hfut. }
  destruct (Hset _ _ _ _ _ Hu Ho Hreach)
    as (c & Hc & _ & (j & v & e & off' & Hv & Hov & Hrj & Hoff)).
  assert (off' = length e) as ->.
  { revert Hrj. unfold reached. rewrite Hpr, lookup_empty.
    destruct (futures st !! j) as [[[q|]|]|]; congruence. }
  assert (Hin : v ∈ urls) by by eapply list_elem_of_lookup_2.
  exists c, v, e. split; [done|]. split; [done|]. split; [|done].
  by destruct (opened_returns _ _ _ Hin Hov) as (_ & _ & ?).
Qed.

Lemma step_settled workers ev st st' :
  sound w dest urls st ->
  settled P w dest urls st ->
  step w dest workers (length urls) ev st = Some st' ->
  settled P w dest urls st'.
Proof using Hret HP.
  intros Hs Hset HT%step_transition.
  destruct HT as [t rest Hp Hl|t rest Hq Hl|i u p0 d0 Hi Hpr Ho|i u Hi Hpr Ho
                 |i k u r off0 Hi Hpr Hf Hk Hext|i u ph Hi Hpr Hw|e Hr];
    try exact Hset.
  - (* a download opens its file *)
    pose proof (running_fresh _ _ _ _ _ _ Hs (item_url_elem _ _ _ Hi)) as Hfut.
    assert (Hurl : urls !! i = Some u).
    { apply (sound_items _ _ _ _ Hs). unfold items. rewrite !elem_of_app.
      right; right; left. by apply item_url_elem. }
    intros i' u' p d off Hu' Ho' Hreach.
    destruct (decide (p = p0)) as [->|Hp].
    + exists []. simpl. rewrite lookup_insert_eq. split; [done|].
      exists i, u, d0, 0. split; [done|]. split; [done|]. split.
      { unfold reached. simpl. by rewrite lookup_insert_eq. }
      split; [done|]. intros k a Hk. by rewrite lookup_nil in Hk.
    + assert (Hne : i' <> i) by (intros ->; congruence).
      assert (Hold : reached st i' d = Some off).
      { revert Hreach. unfold reached. simpl. by rewrite lookup_insert_ne. }
      destruct (Hset _ _ _ _ _ Hu' Ho' Hold)
        as (c & Hc & j & v & e & off' & Hv & Hov & Hrj & Hoff & Hbytes).
      exists c. simpl. rewrite lookup_insert_ne by done. split; [done|].
      exists j, v, e, off'. split; [done|]. split; [done|].
      split; [|done].
      assert (j <> i) by (intros ->; congruence).
      unfold reached in *. simpl. by rewrite lookup_insert_ne.
  - (* a download ends before writing *)
    pose proof (running_fresh _ _ _ _ _ _ Hs (item_url_elem _ _ _ Hi)) as Hfut.
    pose proof (reached_unset st i) as Hnone.
    intros i' u' p d off Hu' Ho' Hreach.
    assert (Hne : i' <> i).
    { intros ->. revert Hreach. unfold reached. simpl. by rewrite lookup_insert_eq. }
    assert (Hold : reached st i' d = Some off).
    { revert Hreach. unfold reached. simpl. by rewrite lookup_insert_ne. }
    destruct (Hset _ _ _ _ _ Hu' Ho' Hold)
      as (c & Hc & j & v & e & off' & Hv & Hov & Hrj & Hoff & Hbytes).
    exists c. split; [done|].
    exists j, v, e, off'. split; [done|]. split; [done|]. split; [|done].
    assert (j <> i) by (intros ->; rewrite Hnone in Hrj; done).
    unfold reached in *. simpl. by rewrite lookup_insert_ne.
  - (* a download writes its next bytes *)
    destruct (sound_writing _ _ _ _ _ _ _ Hs Hi Hpr) as (p0 & d0 & Ho & _ & _).
    destruct (opened_outcome _ _ _ _ _ Ho) as (Hp0 & (r' & Hf' & Hd0) & _).
    assert (r' = r) as -> by congruence.
    assert (Hurl : urls !! i = Some u).
    { apply (sound_items _ _ _ _ Hs). unfold items. rewrite !elem_of_app.
      right; right; left. by apply item_url_elem. }
    assert (Hin : u ∈ urls) by by eapply list_elem_of_lookup_2.
    destruct (opened_returns _ _ _ Hin Ho) as (Hfull & _).
    rewrite <- Hp0, Hd0 in *. rewrite Hfull in Hext.
    assert (Hreach0 : reached st i d0 = Some off0).
    { unfold reached. by rewrite Hpr. }
    set (chunk := take k (drop off0 d0)).
    assert (Hchunk : length chunk = k).
    { unfold chunk. rewrite length_take, length_drop. lia. }
    intros i' u' p d off Hu' Ho' Hreach.
    destruct (decide (p = p0)) as [->|Hp].
    2: { assert (Hne : i' <> i) by (intros ->; congruence).
         assert (Hold : reached st i' d = Some off).
         { revert Hreach. unfold reached. simpl. by rewrite lookup_insert_ne. }
         destruct (Hset _ _ _ _ _ Hu' Ho' Hold)
           as (c & Hc & j & v & e & off' & Hv & Hov & Hrj & Hoff & Hbytes).
         exists c. simpl. rewrite lookup_insert_ne by done. split; [done|].
         exists j, v, e, off'. split; [done|]. split; [done|].
         split; [|done].
         assert (j <> i) by (intros ->; congruence).
         unfold reached in *. simpl. by rewrite lookup_insert_ne. }
    destruct (Hset _ _ _ _ _ Hurl Ho Hreach0)
      as (c & Hc & j & v & e & off' & Hv & Hov & Hrj & Hoff & Hbytes).
    simpl. rewrite lookup_insert_eq, Hc. simpl. fold chunk.
    eexists. split; [done|]. rewrite pwrite_length, Hchunk.
    exists j, v, e, (if decide (j = i) then off0 + k else off').
    split; [done|]. split; [done|]. split.
    { unfold reached in *. simpl. destruct (decide (j = i)) as [->|Hji].
      - by rewrite lookup_insert_eq.
      - by rewrite lookup_insert_ne. }
    assert (Hji : j = i -> off' = off0).
    { intros ->. assert (e = d0) as -> by congruence. congruence. }
    split; [destruct (decide (j = i)); lia|].
    intros x a. rewrite pwrite_lookup, Hchunk.
    destruct (decide (x < off0)) as [Hx|Hx].
    + intros [= <-]. destruct (c !! x) as [a|] eqn:Hcx; simpl.
      * destruct (Hbytes _ _ Hcx) as [?|[Hle ->]]; [by left|right].
        split; [|done]. destruct (decide (j = i)) as [Heq|]; [|done].
        specialize (Hji Heq). lia.
      * right. split; [|done]. apply lookup_ge_None_1 in Hcx.
        destruct (decide (j = i)) as [Heq|]; [|lia].
        specialize (Hji Heq). lia.
    + destruct (decide (x < off0 + k)) as [Hx'|Hx'].
      * unfold chunk. rewrite lookup_take_lt, lookup_drop by lia.
        replace (off0 + (x - off0)) with x by lia.
        intros Hd. left. by eapply (HP u).
      * intros Hcx. destruct (Hbytes _ _ Hcx) as [?|[Hle ->]]; [by left|right].
        split; [|done]. destruct (decide (j = i)) as [Heq|]; [|done]. lia.
  - (* a download returns *)
    pose proof (finish_reached _ _ _ _ Hs Hi Hpr Hw) as Hall.
    intros i' u' p d off Hu' Ho' Hreach.
    rewrite (Hall _ _ _ _ Hu' Ho') in Hreach.
    destruct (Hset _ _ _ _ _ Hu' Ho' Hreach)
      as (c & Hc & j & v & e & off' & Hv & Hov & Hrj & Hoff & Hbytes).
    exists c. split; [done|].
    exists j, v, e, off'. split; [done|]. split; [done|].
    split; [|done]. by rewrite (Hall _ _ _ _ Hv Hov).
Qed.

Lemma run_settled workers evs :
  forall st st',
    sound w dest urls st ->
    settled P w dest urls st ->
    run w dest workers (length urls) evs st = Some st' ->
    settled P w dest urls st'.
Proof using Hret HP.
  induction evs as [|ev evs IH]; intros st st' Hs Hset; simpl.
  - by intros [= <-].
  - destruct (step w dest workers (length urls) ev st) as [st1|] eqn:E; [|done].
    apply IH; [by eapply step_sound|by eapply step_settled].
Qed.

(** When the pool has come to rest, the file of a download that
    succeeded holds, as far as the body of one of the successful
    downloads to it reaches, bytes that bodies written to it have at
    their place. *)
Lemma idle_settled st i u p d :
  sound w dest urls st -> settled P w dest urls st -> idle st = true ->
  urls !! i = Some u -> downloaded w dest u = Some (p, d) ->
  futures st !! i = Some (Ok (Some p)) ->
  exists c v e, files st !! p = Some c /\ v ∈ urls
                /\ downloaded w dest v = Some (p, e)
                /\ length e <= length c
                /\ forall k a, c !! k = Some a -> k < length e -> P p k a.
Proof using Hret.
  intros Hs Hset Hidle Hu Hd Hfut.
  apply downloaded_opened in Hd as (Ho & _ & _).
  pose proof (idle_progress _ _ _ _ Hs Hidle) as Hpr.
  assert (Hreach : reached st i d = Some (length d)).
  { unfold reached. by rewrite Hpr, lookup_empty, Hfut. }
  destruct (Hset _ _ _ _ _ Hu Ho Hreach)
    as (c & Hc & j & v & e & off' & Hv & Hov & Hrj & Hoff & Hbytes).
  assert (off' = length e) as ->.
  { revert Hrj. unfold reached. rewrite Hpr, lookup_empty.
    destruct (futures st !! j) as [[[q|]|]|]; congruence. }
  assert (Hin : v ∈ urls) by by eapply list_elem_of_lookup_2.
  exists c, v, e. split; [done|]. split; [done|].
  split; [by destruct (opened_returns _ _ _ Hin Hov) as (_ & _ & ?)|].
  split; [done|].
  intros k a Hk Hlt. destruct (Hbytes _ _ Hk) as [?|[Hle _]]; [done|lia].
Qed.

End Files.

(** ** Schedules *)

Section Schedules.

Lemma run_app w dest workers n evs evs' st :
  run w dest workers n (evs ++ evs') st
  = run w dest workers n evs st ≫= run w dest workers n evs'.
Proof.
  revert st. induction evs as [|ev evs IH]; intros st; simpl; [done|].
  by destruct (step w dest workers n ev st).
Qed.

(** No step adds a work item. *)
Lemma step_items w dest workers n ev st st' :
  step w dest workers n ev st = Some st' ->
  forall t, t ∈ items st' -> t ∈ items st.
Proof.
  intros HT%step_transition t.
  destruct HT as [t0 rest Hp Hl|t0 rest Hq Hl|i u p d Hi Hpr Ho|i u Hi Hpr Ho
                 |i k u r offset Hi Hpr Hf Hk Hext|i u ph Hi Hpr Hw|e Hr];
    unfold items; simpl; try done.
  - rewrite Hp, !elem_of_app, !elem_of_cons. pose proof (not_elem_of_nil t). tauto.
  - rewrite Hq, !elem_of_app, !elem_of_cons. pose proof (not_elem_of_nil t). tauto.
  - rewrite !elem_of_app, elem_of_without. tauto.
  - rewrite !elem_of_app. pose proof (not_elem_of_nil t). tauto.
Qed.

(** A path that no download of the pool opens keeps what it holds. *)
Lemma step_frame w dest workers urls ev st st' q :
  sound w dest urls st ->
  (forall u d, u ∈ urls -> opened w dest u <> Some (q, d)) ->
  step w dest workers (length urls) ev st = Some st' ->
  files st' !! q = files st !! q.
Proof.
  intros Hs Hq HT%step_transition.
  destruct HT as [t rest Hp Hl|t rest Hq' Hl|i u p d Hi Hpr Ho|i u Hi Hpr Ho
                 |i k u r offset Hi Hpr Hf Hk Hext|i u ph Hi Hpr Hw|e Hr];
    try done; simpl.
  - assert (Hin : u ∈ urls).
    { eapply list_elem_of_lookup_2, (sound_items _ _ _ _ Hs). unfold items.
      rewrite !elem_of_app. right; right; left. by apply item_url_elem. }
    apply lookup_insert_ne. intros <-. by apply (Hq u d).
  - assert (Hin : u ∈ urls).
    { eapply list_elem_of_lookup_2, (sound_items _ _ _ _ Hs). unfold items.
      rewrite !elem_of_app. right; right; left. by apply item_url_elem. }
    destruct (sound_writing _ _ _ _ _ _ _ Hs Hi Hpr) as (p & d & Ho & _ & _).
    destruct (opened_outcome _ _ _ _ _ Ho) as (-> & _).
    apply lookup_insert_ne. intros <-. by apply (Hq u d).
Qed.

Lemma run_frame w dest workers urls evs q :
  (forall u d, u ∈ urls -> opened w dest u <> Some (q, d)) ->
  forall st st',
    sound w dest urls st ->
    run w dest workers (length urls) evs st = Some st' ->
    files st' !! q = files st !! q.
Proof.
  intros Hq. induction evs as [|ev evs IH]; intros st st' Hs; simpl.
  - by intros [= <-].
  - destruct (step w dest workers (length urls) ev st) as [st1|] eqn:E; [|done].
    intros Hrun. rewrite (IH _ _ (step_sound _ _ _ _ _ _ _ Hs E) Hrun).
    by eapply step_frame.
Qed.

(** A download that runs undisturbed in a worker does what
    [download_url] does. *)
Lemma serve_runs w dest workers n st i u :
  running st = [(i, u)] -> progress st !! i = None ->
  run w dest workers n (serve w dest i u) st
  = Some (mkPool (pending st) (queued st) [] (progress st)
            (<[i := outcome_of w dest u]> (futures st)) (cancelled st)
            (download_url w u dest (files st)).2).
Proof.
  intros Hrun Hpr.
  assert (Hi : item_url i (running st) = Some u).
  { rewrite Hrun. simpl. by rewrite Nat.eqb_refl. }
  assert (Hw : without i (running st) = []).
  { rewrite Hrun. unfold without. by rewrite filter_cons_False by (simpl; tauto). }
  unfold serve. destruct (opened w dest u) as [[p d]|] eqn:Ho.
  - destruct (opened_outcome _ _ _ _ _ Ho) as (Hp & (r & Hf & Hd) & Hopen & _).
    assert (Hfs : (download_url w u dest (files st)).2
                  = <[p := take (extent w p d) d]> (files st)).
    { unfold download_url. rewrite Hf. simpl. rewrite <- Hp, Hopen, Hd.
      unfold write. rewrite insert_insert_eq. by destruct (write_limit w p d). }
    rewrite Hfs. clear Hfs.
    pose proof (t_open w dest workers n st i u p d Hi Hpr Ho) as T1.
    apply step_transition in T1.
    destruct (Nat.ltb_spec 0 (extent w p d)) as [Hpos|Hzero].
    + cbn [run]. rewrite T1.
      set (st1 := mkPool (pending st) (queued st) (running st)
                    (<[i := Writing 0]> (progress st)) (futures st)
                    (cancelled st) (<[p := []]> (files st))).
      assert (T2 : transition w dest workers n st1 (Write i (extent w p d))
                (mkPool (pending st1) (queued st1) (running st1)
                   (<[i := Writing (0 + extent w p d)]> (progress st1))
                   (futures st1) (cancelled st1)
                   (<[OsPath.join dest (OsPath.basename u) :=
                        pwrite (default [] (files st1
                                  !! OsPath.join dest (OsPath.basename u)))
                               0 (take (extent w p d) (drop 0 (content r)))]>
                      (files st1)))).
      { apply t_write; [done|apply lookup_insert_eq|done|done|].
        rewrite <- Hp, Hd. simpl. lia. }
      apply step_transition in T2. rewrite T2. clear T1 T2.
      set (st2 := mkPool _ _ _ _ _ _ _).
      assert (T3 : transition w dest workers n st2 (Finish i)
                (mkPool (pending st2) (queued st2) (without i (running st2))
                   (delete i (progress st2))
                   (<[i := outcome_of w dest u]> (futures st2))
                   (cancelled st2) (files st2))).
      { apply (t_finish _ _ _ _ _ _ _ (Writing (extent w p d))); [done| |].
        - unfold st2. simpl. apply lookup_insert_eq.
        - simpl. rewrite Hf, <- Hp, Hd. apply Nat.eqb_refl. }
      apply step_transition in T3. rewrite T3. clear T3.
      unfold st2, st1. simpl. f_equal. rewrite Hw. f_equal.
      * by rewrite insert_insert_eq, delete_insert_id.
      * rewrite <- Hp, Hd, lookup_insert_eq, insert_insert_eq. simpl.
        by rewrite pwrite_fresh.
    + cbn [run]. rewrite T1.
      set (st1 := mkPool (pending st) (queued st) (running st)
                    (<[i := Writing 0]> (progress st)) (futures st)
                    (cancelled st) (<[p := []]> (files st))).
      assert (T3 : transition w dest workers n st1 (Finish i)
                (mkPool (pending st1) (queued st1) (without i (running st1))
                   (delete i (progress st1))
                   (<[i := outcome_of w dest u]> (futures st1))
                   (cancelled st1) (files st1))).
      { apply (t_finish _ _ _ _ _ _ _ (Writing 0)); [done| |].
        - unfold st1. simpl. apply lookup_insert_eq.
        - cbn [written_out]. rewrite Hf, <- Hp, Hd.
          apply Nat.eqb_eq. lia. }
      apply step_transition in T3. rewrite T3. clear T3.
      unfold st1. simpl. f_equal. rewrite Hw. f_equal.
      * by rewrite delete_insert_id.
      * replace (extent w p d) with 0 by lia. done.
  - assert (Hfs : (download_url w u dest (files st)).2 = files st).
    { destruct (download_url_cases w u dest (files st))
        as [(q & e & _ & _ & _ & _ & _ & _ & Ho' & _)
           |[(-> & _)|[(x & -> & _)|(q & e & m & _ & _ & _ & Ho' & _)]]];
        try done; congruence. }
    rewrite Hfs. clear Hfs.
    pose proof (t_halt w dest workers n st i u Hi Hpr Ho) as T1.
    apply step_transition in T1. cbn [run]. rewrite T1.
    set (st1 := mkPool (pending st) (queued st) (running st)
                  (<[i := Halted]> (progress st)) (futures st)
                  (cancelled st) (files st)).
    assert (T3 : transition w dest workers n st1 (Finish i)
              (mkPool (pending st1) (queued st1) (without i (running st1))
                 (delete i (progress st1))
                 (<[i := outcome_of w dest u]> (futures st1))
                 (cancelled st1) (files st1))).
    { apply (t_finish _ _ _ _ _ _ _ Halted); [done| |done].
      unfold st1. simpl. apply lookup_insert_eq. }
    apply step_transition in T3. rewrite T3. clear T3.
    unfold st1. simpl. f_equal. rewrite Hw. f_equal.
    by rewrite delete_insert_id.
Qed.

Lemma serve_no_cancel w dest i u : Cancel ∉ serve w dest i u.
Proof.
  unfold serve. destruct (opened w dest u) as [[p d]|];
    [destruct (0 <? extent w p d)%nat|];
    intros H; repeat (apply elem_of_cons in H as [H|H]; [done|]);
    by apply elem_of_nil in H.
Qed.

Lemma one_by_one_no_cancel w dest l : Cancel ∉ one_by_one w dest l.
Proof.
  unfold one_by_one. induction l as [|[i u] l IH]; simpl.
  - apply not_elem_of_nil.
  - rewrite !not_elem_of_cons, not_elem_of_app.
    split; [done|]. split; [done|]. split; [apply serve_no_cancel|done].
Qed.

(** Serving the pending items one after the other is a run of the pool
    to its rest. *)
Lemma one_by_one_runs w dest workers n :
  0 < workers ->
  forall l st,
    pending st = l -> queued st = [] -> running st = [] -> progress st = ∅ ->
    exists st',
      run w dest workers n (one_by_one w dest l) st = Some st'
      /\ idle st' = true /\ cancelled st' = cancelled st.
Proof.
  intros Hw l. induction l as [|[i u] l IH]; intros st Hp Hq Hr Hpr.
  - exists st. unfold idle. by rewrite Hp, Hq, Hr.
  - unfold one_by_one. cbn [flat_map]. fold (one_by_one w dest l).
    rewrite <- app_assoc. cbn [app run step]. rewrite Hp, Hq.
    destruct (Nat.ltb_spec (@length (nat * str) []) (workers + EXTRA_QUEUED_CALLS));
      [|simpl in *; lia].
    cbn [queued running app]. rewrite Hr.
    destruct (Nat.ltb_spec (@length (nat * str) []) workers); [|simpl in *; lia].
    rewrite run_app. cbn [app pending queued running progress futures cancelled files].
    rewrite serve_runs; [|done|simpl; by rewrite Hpr, lookup_empty].
    cbn [mbind option_bind pending queued running progress futures cancelled files].
    destruct (IH (mkPool l [] [] (progress st)
                    (<[i := outcome_of w dest u]> (futures st)) (cancelled st)
                    (download_url w u dest (files st)).2))
      as (st' & Hrun & Hidle & Hc); try done.
    by exists st'.
Qed.

Lemma sequential_runs w dest workers urls fs :
  0 < workers ->
  exists st,
    run w dest workers (length urls) (sequential w dest urls) (submit urls fs)
    = Some st
    /\ idle st = true /\ cancelled st = [].
Proof.
  intros Hw. by apply (one_by_one_runs w dest workers (length urls) Hw _
                         (submit urls fs)).
Qed.

End Schedules.

(** ** The crawl *)

Section Crawls.

Variable host_ok : str -> bool.

Lemma read_outcomes_not_waiting os : read_outcomes os <> Waiting.
Proof.
  induction os as [|[r|e] os IH]; simpl; try done.
  by destruct (read_outcomes os).
Qed.

Lemma workable_launches w cpus urls :
  workable w cpus -> launch_fails w cpus urls = false.
Proof. intros [_ H]. unfold launch_fails. destruct urls; [done|]. by rewrite H. Qed.

(** What [crawl] does, case by case. *)
Lemma crawl_cases w start stop evs fs url fts dest cpus obs :
  crawl host_ok w start stop evs fs url fts dest cpus = Some obs ->
  ((cpus <= 0)%Z /\ obs = mkObs [] (Raise ValueError))
  \/ ((2 ^ 31 - 1 <= cpus)%Z /\ obs = mkObs [] (Raise OverflowError))
  \/ ((0 < cpus < 2 ^ 31 - 1)%Z
      /\ exists urls stopped,
          extract_all host_ok w url fts = (urls, stopped)
          /\ ((launch_fails w cpus urls = true
               /\ obs = mkObs (take 1 urls) (Raise OSError))
              \/ (launch_fails w cpus urls = false
                  /\ exists st,
                      run w dest (Z.to_nat cpus) (length urls) evs (submit urls fs)
                      = Some st
                      /\ idle st = true
                      /\ sound w dest urls st
                      /\ match stopped with
                         | Raise e =>
                             (Cancel ∉ evs) /\ cancelled st = []
                             /\ obs = mkObs urls (Raise e)
                         | Ok _ =>
                             match read_results (futures st)
                                     (seq 0 (length urls)) with
                             | Waiting => False
                             | Failed e => obs = mkObs urls (Raise e)
                             | Complete results =>
                                 obs = mkObs urls
                                         (statistics start stop (files st)
                                            (truthy_files results))
                             end
                         end))).
Proof.
  unfold crawl.
  destruct (Z.leb_spec cpus 0); [intros [= <-]; by left|].
  destruct (Z.leb_spec (2 ^ 31 - 1) cpus); [intros [= <-]; right; by left|].
  right; right. split; [lia|].
  destruct (extract_all host_ok w url fts) as [urls stopped].
  exists urls, stopped. split; [done|].
  destruct (launch_fails w cpus urls); [left; by injection H1 as <-|].
  right. split; [done|]. revert H1.
  destruct (run w dest (Z.to_nat cpus) (length urls) evs (submit urls fs))
    as [st|] eqn:Hrun; [|done]. simpl.
  destruct (idle st) eqn:Hidle; [|done]. simpl.
  pose proof (run_sound _ _ _ _ _ _ _ (submit_sound w dest urls fs) Hrun) as Hs.
  intros Hobs. exists st. split; [done|]. split; [done|]. split; [done|].
  destruct stopped as [[]|e].
  - destruct (read_results _ _); [by injection Hobs as <-..|done].
  - case_bool_decide as Hc; [done|]. injection Hobs as <-.
    split; [done|]. split; [|done].
    by rewrite (run_without_cancel _ _ _ _ _ Hc _ _ Hrun).
Qed.

(** What a crawl whose downloads all return does under any schedule,
    with a number of workers that the pool accepts and whose processes
    start: the pool serves every link, and the report is computed
    unless the extractor has raised. *)
Lemma crawl_served w start stop evs fs url fts dest cpus urls stopped obs :
  (0 < cpus < 2 ^ 31 - 1)%Z ->
  launch_fails w cpus urls = false ->
  extract_all host_ok w url fts = (urls, stopped) ->
  all_return w dest urls ->
  crawl host_ok w start stop evs fs url fts dest cpus = Some obs ->
  exists st,
    run w dest (Z.to_nat cpus) (length urls) evs (submit urls fs) = Some st
    /\ idle st = true /\ sound w dest urls st /\ cancelled st = []
    /\ obs = mkObs urls
               match stopped with
               | Raise e => Raise e
               | Ok _ => statistics start stop (files st)
                           (successes w dest urls).*1
               end.
Proof.
  intros Hw Hl Hex Hret Hcrawl.
  destruct (crawl_cases _ _ _ _ _ _ _ _ _ _ Hcrawl)
    as [[? _]|[[? _]|(_ & urls' & stopped' & Hex' & Hrest)]]; [lia..|].
  rewrite Hex in Hex'. injection Hex' as <- <-.
  rewrite Hl in Hrest.
  destruct Hrest as [[? _]|(_ & st & Hrun & Hidle & Hs & Hrest)]; [done|].
  exists st. split; [done|]. split; [done|]. split; [done|].
  pose proof (run_no_cancel _ _ _ _ _ Hret _ _
                (submit_sound w dest urls fs) eq_refl Hrun) as Hcanc.
  split; [done|]. destruct stopped as [[]|e]; [|by destruct Hrest as (_ & _ & ->)].
  destruct (idle_read_results _ _ _ _ Hs Hidle Hcanc) as [_ Hread].
  rewrite Hread in Hrest.
  destruct (read_outcomes_return w dest urls Hret) as (results & Hr & Ht).
  by rewrite Hr, Ht in Hrest.
Qed.

(** A crawl has a schedule: with a number of workers that the pool
    accepts and the machine can start, serving the links one after the
    other always gives an observation. *)
Lemma crawl_sequential_defined w start stop fs url fts dest cpus :
  workable w cpus ->
  exists obs,
    crawl host_ok w start stop
      (sequential w dest (extract_all host_ok w url fts).1)
      fs url fts dest cpus = Some obs.
Proof.
  intros Hc. unfold crawl. pose proof Hc as [Hrange _].
  destruct (Z.leb_spec cpus 0); [lia|].
  destruct (Z.leb_spec (2 ^ 31 - 1) cpus); [lia|].
  destruct (extract_all host_ok w url fts) as [urls stopped]. simpl.
  rewrite (workable_launches w cpus urls Hc).
  destruct (sequential_runs w dest (Z.to_nat cpus) urls fs ltac:(lia))
    as (st & Hrun & Hidle & Hcanc).
  rewrite Hrun. simpl. rewrite Hidle. simpl.
  destruct stopped as [[]|e].
  - pose proof (run_sound _ _ _ _ _ _ _ (submit_sound w dest urls fs) Hrun) as Hs.
    destruct (idle_read_results _ _ _ _ Hs Hidle Hcanc) as [_ ->].
    pose proof (read_outcomes_not_waiting (map (outcome_of w dest) urls)).
    destruct (read_outcomes _); by eauto.
  - rewrite bool_decide_eq_false_2; [by eexists|]. apply one_by_one_no_cancel.
Qed.

(** ** The report *)

Lemma downloaded_outcome w dest u p d :
  downloaded w dest u = Some (p, d) -> outcome_of w dest u = Ok (Some p).
Proof. by intros (_ & _ & ?)%downloaded_opened. Qed.

Lemma outcome_downloaded w dest u p :
  outcome_of w dest u = Ok (Some p) ->
  exists d, downloaded w dest u = Some (p, d).
Proof.
  destruct (download_url_cases w u dest ∅)
    as [(q & d & _ & Ho & Hd & _)
       |[(_ & Ho & _)|[(e & _ & Ho & _)|(q & d & m & _ & Ho & _)]]];
    rewrite Ho; [|done..].
  intros [= <-]. by exists d.
Qed.

Lemma elem_of_successes w dest urls p d :
  (p, d) ∈ successes w dest urls
  <-> exists u, u ∈ urls /\ downloaded w dest u = Some (p, d).
Proof. unfold successes. by rewrite list_elem_of_omap. Qed.

Lemma read_results_complete fut idx rs :
  read_results fut idx = Complete rs ->
  forall i, i ∈ idx -> exists r, fut !! i = Some (Ok r).
Proof.
  revert rs. induction idx as [|j idx IH]; intros rs; simpl.
  - intros _ i Hi. by apply elem_of_nil in Hi.
  - destruct (fut !! j) as [[r|e]|] eqn:E; [|done..].
    destruct (read_results fut idx) as [rs'| |] eqn:E'; [|done..].
    intros _ i [->|Hi]%elem_of_cons; [by exists r|by eapply IH].
Qed.

(** In a pool at rest in which nothing was cancelled, the future of a
    link holds its outcome. *)
Lemma idle_future w dest urls st i u :
  sound w dest urls st -> idle st = true -> cancelled st = [] ->
  urls !! i = Some u ->
  futures st !! i = Some (outcome_of w dest u).
Proof.
  intros Hs Hidle Hcanc Hi.
  destruct (idle_read_results _ _ _ _ Hs Hidle Hcanc) as [Hdom _].
  assert (Hin : i ∈ dom (futures st)).
  { rewrite Hdom, elem_of_list_to_set, elem_of_seq.
    apply lookup_lt_Some in Hi. lia. }
  apply elem_of_dom in Hin as [r Hr].
  destruct (sound_futures _ _ _ _ Hs _ _ Hr) as (u' & Hu' & ->). congruence.
Qed.

(** In a pool at rest, the path of every download that succeeded
    exists. *)
Lemma idle_files w dest urls st p d :
  sound w dest urls st -> idle st = true -> cancelled st = [] ->
  (p, d) ∈ successes w dest urls ->
  p ∈ dom (files st).
Proof.
  intros Hs Hidle Hcanc (u & Hu & Hd)%elem_of_successes.
  apply list_elem_of_lookup in Hu as [i Hi].
  apply (sound_files _ _ _ _ Hs i).
  rewrite (idle_future _ _ _ _ _ _ Hs Hidle Hcanc Hi).
  by rewrite (downloaded_outcome _ _ _ _ _ Hd).
Qed.

Lemma total_size_defined (fs : disk) paths :
  (forall p, p ∈ paths -> is_Some (fs !! p)) ->
  exists n, total_size fs paths = Ok n.
Proof.
  induction paths as [|p paths IH]; intros H; simpl; [by eexists|].
  destruct (H p) as [d Hd]; [left|].
  destruct IH as [n Hn]; [intros q Hq; apply H; by right|].
  unfold st_size. rewrite Hd, Hn. simpl. by eexists.
Qed.

Lemma statistics_ok start stop fs paths rep :
  statistics start stop fs paths = Ok rep ->
  exists total,
    total_size fs paths = Ok total
    /\ ((stop - start) =? 0)%float = false
    /\ rep = mkReport (length paths) total (div_megabyte total)
                      (stop - start)%float
                      (div_megabyte total / (stop - start))%float.
Proof.
  unfold statistics. destruct (total_size fs paths) as [total|e]; simpl; [|done].
  destruct (_ =? 0)%float eqn:E; [done|]. intros [= <-]. by exists total.
Qed.

(** A crawl reports only with a number of workers that the pool
    accepts, after extracting without an exception and reading a value
    from every future; the report is then computed from the final
    disk and the paths of the downloads that succeeded. *)
Lemma crawl_ok_inv w start stop evs fs url fts dest cpus obs rep :
  crawl host_ok w start stop evs fs url fts dest cpus = Some obs ->
  returned obs = Ok rep ->
  (0 < cpus < 2 ^ 31 - 1)%Z
  /\ extract_all host_ok w url fts = (submitted obs, Ok tt)
  /\ all_return w dest (submitted obs)
  /\ exists st,
      run w dest (Z.to_nat cpus) (length (submitted obs)) evs
          (submit (submitted obs) fs) = Some st
      /\ idle st = true /\ sound w dest (submitted obs) st
      /\ cancelled st = []
      /\ returned obs
         = statistics start stop (files st)
             (successes w dest (submitted obs)).*1.
Proof.
  intros Hcrawl Hrep.
  destruct (crawl_cases _ _ _ _ _ _ _ _ _ _ Hcrawl)
    as [[_ ->]|[[_ ->]|(Hc & urls & stopped & Hex & Hrest)]]; [done..|].
  destruct Hrest as [[_ ->]|(_ & st & Hrun & Hidle & Hs & Hrest)]; [done|].
  destruct stopped as [[]|e]; [|by destruct Hrest as (_ & _ & ->)].
  destruct (read_results _ _) as [results| |] eqn:Hread; [|by subst obs|done].
  assert (Hret : all_return w dest urls).
  { intros u [i Hi]%list_elem_of_lookup.
    destruct (read_results_complete _ _ _ Hread i) as [r Hr].
    { apply elem_of_seq. apply lookup_lt_Some in Hi. lia. }
    destruct (sound_futures _ _ _ _ Hs _ _ Hr) as (u' & Hu' & Ho).
    exists r. congruence. }
  pose proof (run_no_cancel _ _ _ _ _ Hret _ _
                (submit_sound w dest urls fs) eq_refl Hrun) as Hcanc.
  destruct (idle_read_results _ _ _ _ Hs Hidle Hcanc) as [_ Hread'].
  rewrite Hread' in Hread.
  destruct (read_outcomes_return w dest urls Hret) as (results' & Hr & Ht).
  rewrite Hr in Hread. injection Hread as <-. rewrite Ht in Hrest.
  subst obs. simpl. split; [done|]. split; [done|]. split; [done|].
  by exists st.
Qed.

(** C1 (as amended). In every crawl that prints its report, under any
    schedule of the pool: the number of files reported is the number K
    of downloads that succeeded, and those and the downloads that
    returned [None] make up all the N links; the bytes reported are the
    sum, over the K returned paths, of the size the file at that path
    has when the pool has finished, which is the byte count of one of
    the downloads that succeeded with that path; so the bytes reported
    are the sum of the byte counts of the K downloads whenever the
    downloads written to one local path have the same byte count. *)
Theorem crawl_tallies w start stop evs fs url fts dest cpus obs rep :
  crawl host_ok w start stop evs fs url fts dest cpus = Some obs ->
  returned obs = Ok rep ->
  files_downloaded rep = length (successes w dest (submitted obs))
  /\ length (submitted obs)
     = length (successes w dest (submitted obs))
       + length (filter (fun u => outcome_of w dest u = Ok None) (submitted obs))
  /\ exists st,
      run w dest (Z.to_nat cpus) (length (submitted obs)) evs
          (submit (submitted obs) fs) = Some st
      /\ total_size (files st) (successes w dest (submitted obs)).*1
         = Ok (bytes_downloaded rep)
      /\ (forall p d, (p, d) ∈ successes w dest (submitted obs) ->
            exists c d', files st !! p = Some c
                         /\ (p, d') ∈ successes w dest (submitted obs)
                         /\ length c = length d')
      /\ ((forall p d d',
              (p, d) ∈ successes w dest (submitted obs) ->
              (p, d') ∈ successes w dest (submitted obs) ->
              length d = length d') ->
          bytes_downloaded rep = byte_count (successes w dest (submitted obs))).
Proof.
  intros Hcrawl Hrep.
  destruct (crawl_ok_inv _ _ _ _ _ _ _ _ _ _ _ Hcrawl Hrep)
    as (Hc & Hex & Hret & st & Hrun & Hidle & Hs & Hcanc & Hobs).
  rewrite Hobs in Hrep.
  apply statistics_ok in Hrep as (total & Htotal & _ & ->). simpl.
  rewrite length_fmap. split; [done|]. split.
  { clear -Hret. induction (submitted obs) as [|u urls IH]; [done|].
    unfold successes in *. simpl.
    destruct (Hret u) as [o Ho]; [left|].
    destruct (download_url_cases w u dest ∅)
      as [(p & d & _ & Ho' & Hd & _)
         |[(_ & Ho' & Hd & _)|[(e & _ & Ho' & _)|(p & d & m & _ & Ho' & _)]]];
      rewrite Ho' in Ho; try done; rewrite Hd; simpl.
    - rewrite filter_cons_False by (rewrite Ho'; done).
      f_equal. apply IH. intros v Hv. apply Hret. by right.
    - rewrite filter_cons_True by done. simpl.
      rewrite Nat.add_succ_r. f_equal. apply IH.
      intros v Hv. apply Hret. by right. }
  exists st. split; [done|]. split; [done|].
  assert (Hsize : forall p d, (p, d) ∈ successes w dest (submitted obs) ->
            exists c d', files st !! p = Some c
                         /\ (p, d') ∈ successes w dest (submitted obs)
                         /\ length c = length d').
  { intros p d (u & Hu & Hd)%elem_of_successes.
    apply list_elem_of_lookup in Hu as [i Hi].
    pose proof (run_sized w dest _ Hret _ _ _ _ (submit_sound _ _ _ _)
                  (submit_sized _ _ _ _) Hrun) as Hsized.
    pose proof (idle_future _ _ _ _ _ _ Hs Hidle Hcanc Hi) as Hfut.
    rewrite (downloaded_outcome _ _ _ _ _ Hd) in Hfut.
    destruct (idle_sized w dest _ Hret _ _ _ _ _ Hs Hsized Hidle Hi Hd Hfut)
      as (c & v & e & Hc' & Hv & Hdv & Hlen).
    exists c, e. split; [done|]. split; [|done].
    apply elem_of_successes. by exists v. }
  split; [done|]. intros Hsame.
  rewrite total_size_successes in Htotal; [by injection Htotal|].
  intros p d Hpd. destruct (Hsize p d Hpd) as (c & d' & Hc' & Hin & Hlen).
  exists c. split; [done|]. rewrite Hlen. by apply (Hsame p).
Qed.

(** C2 (as amended). In a crawl whose downloads all return (a path or
    [None]), with a number of workers that the pool accepts and the
    machine can start, and under any schedule: the URLs submitted to
    the pool are exactly the links the extractor yields, in order,
    whether it ends normally or with an exception; every one of them is
    completed exactly once; its future holds the value that download
    returned; none is cancelled, and there are as many futures as
    links. *)
Theorem every_download_has_one_outcome
    w start stop evs fs url fts dest cpus obs us r :
  workable w cpus ->
  iterates host_ok w (extract_urls url fts) us r ->
  all_return w dest us ->
  crawl host_ok w start stop evs fs url fts dest cpus = Some obs ->
  submitted obs = us
  /\ exists st,
      run w dest (Z.to_nat cpus) (length us) evs (submit us fs) = Some st
      /\ cancelled st = []
      /\ size (futures st) = length us
      /\ forall i u, us !! i = Some u ->
           completions i evs = 1
           /\ exists o, futures st !! i = Some (Ok o)
                        /\ outcome_of w dest u = Ok o.
Proof.
  intros Hc Hit Hret Hcrawl.
  pose proof (iterates_extract_all host_ok w url fts) as Hall.
  destruct (iterates_functional _ _ _ _ _ _ _ Hit Hall) as [Hus Hr].
  assert (Hex : extract_all host_ok w url fts = (us, r)).
  { destruct (extract_all host_ok w url fts). simpl in *. congruence. }
  destruct (crawl_served _ _ _ _ _ _ _ _ _ _ _ _ (proj1 Hc)
              (workable_launches _ _ _ Hc) Hex Hret Hcrawl)
    as (st & Hrun & Hidle & Hs & Hcanc & ->).
  split; [done|]. exists st.
  destruct (idle_read_results _ _ _ _ Hs Hidle Hcanc) as [Hdom _].
  split; [done|]. split; [done|]. split.
  - rewrite <- size_dom, Hdom, size_list_to_set by apply NoDup_seq.
    apply length_seq.
  - intros i u Hi.
    assert (Hin : i ∈ dom (futures st)).
    { rewrite Hdom, elem_of_list_to_set, elem_of_seq.
      apply lookup_lt_Some in Hi. lia. }
    split.
    + pose proof (run_completions _ _ _ _ _ i _ _
                    (submit_sound w dest us fs) Hrun) as Hcount.
      simpl in Hcount. rewrite dom_empty_L in Hcount.
      rewrite decide_False in Hcount by apply not_elem_of_empty.
      rewrite decide_True in Hcount by done. lia.
    + rewrite (idle_future _ _ _ _ _ _ Hs Hidle Hcanc Hi).
      destruct (Hret u) as [o Ho]; [by eapply list_elem_of_lookup_2|].
      exists o. by rewrite <- Ho.
Qed.

Lemma ok_false r :
  ok r = false <-> (400 <= status_code r < 600)%Z.
Proof.
  unfold ok, raise_for_status.
  destruct (Z.leb_spec 400 (status_code r)), (Z.ltb_spec (status_code r) 600);
    simpl; split; try done; lia.
Qed.

Lemma fetch_fails_fetch w url :
  fetch_fails w url <-> fetch w url = Raise RequestException.
Proof.
  unfold fetch_fails, fetch. split.
  - intros [->|(r & -> & Hst)]; simpl; [done|].
    apply ok_false in Hst. unfold ok in Hst.
    destruct (raise_for_status r) as [|e] eqn:E; [done|].
    unfold raise_for_status in E. destruct (_ && _); [|done].
    by injection E as <-.
  - destruct (get w url) as [r|e] eqn:Hget; simpl.
    + destruct (raise_for_status r) as [[]|e] eqn:Hst; simpl; [done|].
      intros _. right. exists r. split; [done|]. apply ok_false.
      unfold ok. by rewrite Hst.
    + intros [= ->]. by left.
Qed.

Lemma fetch_fails_outcome w dest url :
  fetch_fails w url -> forall fs, download_url w url dest fs = (Ok None, fs).
Proof.
  intros Hf%fetch_fails_fetch fs. unfold download_url. by rewrite Hf.
Qed.

(** The report of a crawl whose downloads all return is printed unless
    the two clock readings are equal. *)
Lemma crawl_reports w start stop evs fs url fts dest cpus urls obs :
  (0 < cpus < 2 ^ 31 - 1)%Z ->
  launch_fails w cpus urls = false ->
  extract_all host_ok w url fts = (urls, Ok tt) ->
  all_return w dest urls ->
  crawl host_ok w start stop evs fs url fts dest cpus = Some obs ->
  submitted obs = urls
  /\ if ((stop - start) =? 0)%float
     then returned obs = Raise ZeroDivisionError
     else exists rep, returned obs = Ok rep.
Proof.
  intros Hc Hl Hex Hret Hcrawl.
  destruct (crawl_served _ _ _ _ _ _ _ _ _ _ _ _ Hc Hl Hex Hret Hcrawl)
    as (st & Hrun & Hidle & Hs & Hcanc & ->).
  split; [done|]. simpl.
  destruct (total_size_defined (files st) (successes w dest urls).*1)
    as [total Htotal].
  { intros p ((q & d) & -> & Hpd)%list_elem_of_fmap. simpl.
    apply elem_of_dom. by eapply idle_files. }
  unfold statistics. rewrite Htotal. simpl.
  destruct (_ =? 0)%float; [done|]. by eexists.
Qed.



(** C6. When the fetch of the base page fails, a crawl (with a number
    of workers that the pool accepts) submits no download and ends with
    the exception of the fetch or with [SystemExit(5)], under the one
    schedule a pool without work has and under no other; a crawl whose
    page is fetched and has no matching link never ends that way. *)
Theorem page_fetch_failure w start stop fs url fts dest cpus :
  (0 < cpus < 2 ^ 31 - 1)%Z ->
  fetch_fails w url ->
  exists e,
    crawl host_ok w start stop [] fs url fts dest cpus
    = Some (mkObs [] (Raise e))
    /\ (forall evs obs,
          crawl host_ok w start stop evs fs url fts dest cpus = Some obs ->
          obs = mkObs [] (Raise e))
    /\ (e = RequestException \/ e = SystemExit 5)
    /\ forall w' start' stop' evs' fs' fts' obs',
         extract_all host_ok w' url fts' = ([], Ok tt) ->
         crawl host_ok w' start' stop' evs' fs' url fts' dest cpus = Some obs' ->
         returned obs' <> Raise e.
Proof.
  intros Hc Hfail.
  assert (Hzero : forall e, (e = RequestException \/ e = SystemExit 5) ->
    forall w' start' stop' evs' fs' fts' obs',
      extract_all host_ok w' url fts' = ([], Ok tt) ->
      crawl host_ok w' start' stop' evs' fs' url fts' dest cpus = Some obs' ->
      returned obs' <> Raise e).
  { intros e He w' start' stop' evs' fs' fts' obs' Hex Hcrawl.
    destruct (crawl_cases _ _ _ _ _ _ _ _ _ _ Hcrawl)
      as [[? _]|[[? _]|(_ & urls & stopped & Hex' & Hrest)]]; [lia..|].
    rewrite Hex in Hex'. injection Hex' as <- <-.
    destruct Hrest as [[? _]|(_ & st & Hrun & Hidle & Hs & Hrest)]; [done|].
    simpl in Hrest. subst obs'. simpl. unfold statistics. simpl.
    destruct (_ =? 0)%float; by destruct He as [-> | ->]. }
  assert (Hex : exists e, (e = RequestException \/ e = SystemExit 5)
                          /\ extract_all host_ok w url fts = ([], Raise e)).
  { unfold extract_all. destruct Hfail as [Hg|(r & Hg & Hst)]; rewrite Hg.
    - exists RequestException. split; [by left|done].
    - apply ok_false in Hst. rewrite Hst.
      exists (SystemExit 5). split; [by right|done]. }
  destruct Hex as (e & He & Hex). exists e.
  split; [|split; [|split; [done|by apply Hzero]]].
  - unfold crawl. rewrite Hex.
    destruct (Z.leb_spec cpus 0); [lia|].
    by destruct (Z.leb_spec (2 ^ 31 - 1) cpus); [lia|].
  - intros evs obs Hcrawl.
    destruct (crawl_cases _ _ _ _ _ _ _ _ _ _ Hcrawl)
      as [[? _]|[[? _]|(_ & urls & stopped & Hex' & Hrest)]]; [lia..|].
    rewrite Hex in Hex'. injection Hex' as <- <-.
    destruct Hrest as [[? _]|(_ & st & _ & _ & _ & _ & _ & ->)]; done.
Qed.

(** C7 (as amended). The report of a crawl gives as bandwidth the
    megabytes downloaded divided by the elapsed time, where the
    megabytes are the bytes divided by 1024 * 1024 and the elapsed time
    is the difference of the clock readings, which is not zero; when
    that difference is zero, the number of workers is one that the pool
    accepts and the machine can start, and all downloads return, the
    crawl ends with [ZeroDivisionError] in place of a report. *)
Theorem bandwidth_is_quotient w start stop evs fs url fts dest cpus obs :
  crawl host_ok w start stop evs fs url fts dest cpus = Some obs ->
  (forall rep,
      returned obs = Ok rep ->
      time_total rep = (stop - start)%float
      /\ (time_total rep =? 0)%float = false
      /\ Mbytes_downloaded rep = div_megabyte (bytes_downloaded rep)
      /\ bandwidth rep = (Mbytes_downloaded rep / time_total rep)%float)
  /\ (((stop - start) =? 0)%float = true ->
      workable w cpus ->
      (extract_all host_ok w url fts).2 = Ok tt ->
      all_return w dest (extract_all host_ok w url fts).1 ->
      returned obs = Raise ZeroDivisionError).
Proof.
  intros Hcrawl. split.
  - intros rep Hrep.
    destruct (crawl_ok_inv _ _ _ _ _ _ _ _ _ _ _ Hcrawl Hrep)
      as (_ & _ & _ & st & _ & _ & _ & _ & Hobs).
    rewrite Hobs in Hrep.
    by apply statistics_ok in Hrep as (total & _ & Hz & ->).
  - intros Hz Hc Hstop Hret.
    destruct (extract_all host_ok w url fts) as [urls r] eqn:Hex.
    simpl in *. subst r.
    destruct (crawl_reports _ _ _ _ _ _ _ _ _ _ _ (proj1 Hc)
                (workable_launches _ _ _ Hc) Hex Hret Hcrawl) as [_ H].
    by rewrite Hz in H.
Qed.

End Crawls.

(** * URL resolution *)

Section Resolution.

Variable host_ok : str -> bool.


Lemma find_None c s : find c s = None <-> c ∉ s.
Proof.
  induction s as [|x s IH]; simpl.
  - split; [intros _; apply not_elem_of_nil|done].
  - destruct (Ascii.eqb_spec x c) as [->|Hne].
    + split; [done|]. intros H. exfalso. apply H. left.
    + rewrite not_elem_of_cons. destruct (find c s); simpl.
      * split; [done|]. intros [_ H]. by apply IH in H.
      * split; [|done]. intros _. split; [congruence|]. by apply IH.
Qed.

Lemma find_app_notin c s t :
  c ∉ s -> find c (s ++ t) = (fun i => length s + i) <$> find c t.
Proof.
  induction s as [|x s IH]; simpl; intros H.
  - by destruct (find c t).
  - apply not_elem_of_cons in H as [Hne Hs].
    destruct (Ascii.eqb_spec x c) as [->|_]; [done|].
    rewrite IH by done. by destruct (find c t).
Qed.

Lemma find_take c s i k : find c s = Some i -> k <= i -> c ∉ take k s.
Proof.
  revert i k. induction s as [|x s IH]; intros i k; simpl; [done|].
  destruct (Ascii.eqb_spec x c) as [->|Hne].
  - intros [= <-] Hk. assert (k = 0) as -> by lia. apply not_elem_of_nil.
  - destruct (find c s) as [j|] eqn:E; simpl; [|done].
    intros [= <-] Hk. destruct k as [|k]; simpl; [apply not_elem_of_nil|].
    apply not_elem_of_cons. split; [congruence|]. eapply IH; [done|lia].
Qed.

Lemma find_head c s : find c (c :: s) = Some 0.
Proof. simpl. by rewrite Ascii.eqb_refl. Qed.

Lemma remove_char_app c a b :
  remove_char c (a ++ b) = remove_char c a ++ remove_char c b.
Proof. apply filter_app. Qed.

Lemma remove_char_absent c s : c ∉ s -> remove_char c s = s.
Proof.
  induction s as [|x s IH]; [done|]. intros [Hne Hs]%not_elem_of_cons.
  unfold remove_char in *. rewrite filter_cons_True by congruence.
  by rewrite IH.
Qed.

Lemma remove_unsafe_app a b :
  Url.remove_unsafe (a ++ b) = Url.remove_unsafe a ++ Url.remove_unsafe b.
Proof. unfold Url.remove_unsafe. by rewrite !remove_char_app. Qed.

Lemma remove_unsafe_clean s :
  Forall (fun c => ~ unsafe c) s -> Url.remove_unsafe s = s.
Proof.
  intros H. unfold Url.remove_unsafe.
  assert (Hc : forall c, unsafe c -> c ∉ s).
  { intros c Hc Hin. eapply Forall_forall in H; [|done]. by apply H. }
  rewrite (remove_char_absent TAB), (remove_char_absent CR),
    (remove_char_absent LF); [done|apply Hc; unfold unsafe; tauto..].
Qed.

Lemma remove_unsafe_is_clean s :
  Forall (fun c => ~ unsafe c) (Url.remove_unsafe s).
Proof.
  apply Forall_forall. intros c Hc. unfold Url.remove_unsafe, remove_char in Hc.
  apply list_elem_of_filter in Hc as [H1 Hc].
  apply list_elem_of_filter in Hc as [H2 Hc].
  apply list_elem_of_filter in Hc as [H3 Hc].
  unfold unsafe. tauto.
Qed.

Lemma remove_unsafe_cons c s :
  ~ unsafe c -> Url.remove_unsafe (c :: s) = c :: Url.remove_unsafe s.
Proof.
  intros H. change (c :: s) with ([c] ++ s). rewrite remove_unsafe_app.
  rewrite (remove_unsafe_clean [c]); [done|]. by constructor.
Qed.

(** Facts about single characters, by enumeration. *)
Lemma alpha_not_space c : is_ascii_alpha c = true -> Url.is_c0_or_space c = false.
Proof. by destruct c as [[] [] [] [] [] [] [] []]. Qed.

Lemma scheme_char_not_colon c : Url.is_scheme_char c = true -> c <> ":".
Proof. by destruct c as [[] [] [] [] [] [] [] []]. Qed.

Lemma scheme_char_safe c : Url.is_scheme_char c = true -> ~ unsafe c.
Proof.
  unfold unsafe. destruct c as [[] [] [] [] [] [] [] []]; try done;
    intros _ [H|[H|H]]; discriminate H.
Qed.

Lemma lower_char_alpha c : is_ascii_alpha c = true -> is_ascii_alpha (lower_char c) = true.
Proof. by destruct c as [[] [] [] [] [] [] [] []]. Qed.

Lemma lower_char_scheme c :
  Url.is_scheme_char c = true -> Url.is_scheme_char (lower_char c) = true.
Proof. by destruct c as [[] [] [] [] [] [] [] []]. Qed.

Lemma lower_char_idem c : lower_char (lower_char c) = lower_char c.
Proof. by destruct c as [[] [] [] [] [] [] [] []]. Qed.

Lemma delimiter_safe c : delimiter c -> ~ unsafe c.
Proof. intros [-> | [-> | ->]] [H|[H|H]]; discriminate H. Qed.

Lemma lstrip_head p c s : p c = false -> lstrip p (c :: s) = c :: s.
Proof. intros H. simpl. by rewrite H. Qed.

Lemma splitnetloc_slashes r :
  Url.splitnetloc ("/" :: "/" :: r) 2 = (take (delim_of r) r, drop (delim_of r) r).
Proof.
  unfold Url.splitnetloc.
  match goal with |- context [foldl ?f ?a ?l] =>
    assert (Hd : foldl f a l = S (S (delim_of r))) end.
  { unfold Url.find_from, delim_of.
    change (lit "/?#") with ["/"; "?"; "#"]. cbn [foldl].
    change (drop 2 ("/" :: "/" :: r)) with r.
    destruct (find "/" r), (find "?" r), (find "#" r);
      cbn [fmap option_fmap option_map length]; lia. }
  rewrite Hd. simpl. by rewrite Nat.sub_0_r.
Qed.

Lemma delim_of_bound r c i :
  delimiter c -> find c r = Some i -> delim_of r <= i.
Proof.
  unfold delim_of. change (lit "/?#") with ["/"; "?"; "#"]. cbn [foldl].
  intros [-> | [-> | ->]] H; rewrite H;
    repeat match goal with |- context [find ?c r] => destruct (find c r) end;
    lia.
Qed.

Lemma take_delim_of r : Forall (fun c => ~ delimiter c) (take (delim_of r) r).
Proof.
  apply Forall_forall. intros c Hc Hd.
  destruct (find c r) as [i|] eqn:E.
  - by eapply find_take; [done|by eapply delim_of_bound|].
  - apply find_None in E. apply E. by eapply subseteq_take.
Qed.

Lemma delim_of_app n tail :
  Forall (fun c => ~ delimiter c) n ->
  (tail = [] \/ exists c t, tail = c :: t /\ delimiter c) ->
  delim_of (n ++ tail) = length n.
Proof.
  intros Hn Htail.
  assert (Hnot : forall c, delimiter c -> c ∉ n).
  { intros c Hc Hin. eapply Forall_forall in Hn; [|done]. by apply Hn. }
  unfold delim_of. change (lit "/?#") with ["/"; "?"; "#"]. cbn [foldl].
  rewrite !find_app_notin by (apply Hnot; unfold delimiter; tauto).
  rewrite length_app.
  destruct Htail as [->|(c & t & -> & [-> | [-> | ->]])];
    cbn [find Ascii.eqb Bool.eqb fmap option_fmap option_map length];
    repeat match goal with |- context [find ?c t] => destruct (find c t) end;
    cbn [fmap option_fmap option_map length]; lia.
Qed.

Lemma split_tail_origin s n url :
  Url.s_scheme (Url.split_tail s n url) = s
  /\ Url.s_netloc (Url.split_tail s n url) = n.
Proof.
  unfold Url.split_tail.
  destruct (cut "#" url) as [[a b]|]; [destruct (cut "?" a) as [[]|]|
    destruct (cut "?" url) as [[]|]]; done.
Qed.

(** A URL put together with an authority is the scheme, [://], the
    authority, and a rest that is empty or starts with a delimiter. *)
Lemma urlunparse_shape s n p x q f :
  s <> [] -> n <> [] ->
  exists tail,
    Url.urlunparse s n p x q f = s ++ ":" :: "/" :: "/" :: n ++ tail
    /\ (tail = [] \/ exists c t, tail = c :: t /\ delimiter c).
Proof.
  intros Hs Hn. unfold Url.urlunparse, Url.urlunsplit.
  destruct s as [|s0 s]; [done|]. destruct n as [|n0 n]; [done|].
  cbn [truthy orb].
  set (url := if truthy x then p ++ ";" :: x else p).
  set (url1 := if truthy url && negb (starts_with_char "/" url)
               then "/" :: url else url).
  exists (url1 ++ (if truthy q then "?" :: q else [])
               ++ (if truthy f then "#" :: f else [])).
  split.
  - change (lit "//") with ["/"; "/"].
    destruct (truthy q), (truthy f); simpl;
      rewrite <- ?app_assoc; simpl; rewrite <- ?app_assoc; simpl;
      rewrite ?app_nil_r; done.
  - assert (Hurl1 : url1 = [] \/ exists t, url1 = "/" :: t).
    { unfold url1. destruct url as [|c t]; [by left|]. simpl.
      destruct (Ascii.eqb_spec c "/") as [->|_]; simpl; right; by eexists. }
    destruct Hurl1 as [->|(t & ->)].
    + simpl. destruct q as [|q0 q]; simpl.
      * destruct f as [|f0 f]; simpl; [by left|].
        right. exists "#", (f0 :: f). unfold delimiter. tauto.
      * right. eexists "?", _. unfold delimiter. split; [done|tauto].
    + right. eexists "/", _. unfold delimiter. split; [done|tauto].
Qed.

Lemma forallb_elem {A} (f : A -> bool) l x :
  forallb f l = true -> x ∈ l -> f x = true.
Proof.
  intros H Hx. rewrite forallb_forall in H. apply H. by apply list_elem_of_In.
Qed.

Lemma split_scheme_found s rest d :
  (exists c s', s = c :: s' /\ is_ascii_alpha c = true) ->
  forallb Url.is_scheme_char s = true ->
  Url.split_scheme (s ++ ":" :: rest) d = (lower s, rest).
Proof.
  intros (c & s' & -> & Hc) Hchars. unfold Url.split_scheme.
  assert (Hnot : ":" ∉ c :: s').
  { intros Hin. by apply (forallb_elem _ _ _ Hchars), scheme_char_not_colon in Hin. }
  rewrite (find_app_notin _ _ _ Hnot), find_head. simpl length. simpl fmap.
  rewrite Nat.add_0_r. cbn [app]. rewrite Hc.
  change (c :: s' ++ ":" :: rest) with ((c :: s') ++ ":" :: rest).
  rewrite (take_app_length' (c :: s')) by done.
  rewrite Hchars. simpl andb. cbv iota.
  f_equal. change (S (S (length s'))) with (S (length (c :: s'))).
  clear. induction (c :: s') as [|y l IH]; [done|]. exact IH.
Qed.

Lemma lower_scheme_chars s :
  forallb Url.is_scheme_char s = true ->
  forallb Url.is_scheme_char (lower s) = true.
Proof.
  induction s as [|c s IH]; [done|]. simpl.
  intros [Hc Hs]%andb_prop. by rewrite lower_char_scheme, IH.
Qed.

Lemma lower_idem s : lower (lower s) = lower s.
Proof.
  induction s as [|c s IH]; [done|]. simpl.
  by rewrite lower_char_idem, IH.
Qed.

Lemma scheme_chars_clean s :
  forallb Url.is_scheme_char s = true -> Forall (fun c => ~ unsafe c) s.
Proof.
  intros H. apply Forall_forall. intros c Hc.
  by apply scheme_char_safe, (forallb_elem _ _ _ H).
Qed.

(** Splitting a URL that starts with a good scheme and authority gives
    them back. *)
Lemma urlsplit_of_origin s n tail d :
  origin_ok host_ok s n ->
  (tail = [] \/ exists c t, tail = c :: t /\ delimiter c) ->
  exists r,
    Url.urlsplit host_ok (s ++ ":" :: "/" :: "/" :: n ++ tail) d = Ok r
    /\ Url.s_scheme r = s /\ Url.s_netloc r = n.
Proof.
  intros [Hhead Hchars Hlow Hclean Hnodelim Hb1 Hb2] Htail.
  unfold Url.urlsplit.
  destruct Hhead as (c & s' & -> & Hc).
  cbn [app]. rewrite lstrip_head by by apply alpha_not_space.
  change (c :: s' ++ ":" :: "/" :: "/" :: n ++ tail)
    with ((c :: s') ++ [":"; "/"; "/"] ++ n ++ tail).
  rewrite !remove_unsafe_app.
  rewrite (remove_unsafe_clean (c :: s')) by by apply scheme_chars_clean.
  rewrite (remove_unsafe_clean n) by done.
  change (Url.remove_unsafe [":"; "/"; "/"]) with [":"; "/"; "/"].
  cbn [app].
  change (c :: s' ++ ":" :: "/" :: "/" :: n ++ Url.remove_unsafe tail)
    with ((c :: s') ++ ":" :: "/" :: "/" :: n ++ Url.remove_unsafe tail).
  rewrite split_scheme_found by eauto. rewrite Hlow.
  unfold Url.split_authority. rewrite splitnetloc_slashes.
  assert (Htail' : Url.remove_unsafe tail = []
                   \/ exists c t, Url.remove_unsafe tail = c :: t /\ delimiter c).
  { destruct Htail as [->|(c0 & t & -> & Hd)]; [by left|right].
    rewrite remove_unsafe_cons by by apply delimiter_safe. eauto. }
  rewrite (delim_of_app n _ Hnodelim Htail').
  rewrite take_app_length, drop_app_length. rewrite Hb1, Hb2.
  eexists. split; [done|]. apply split_tail_origin.
Qed.

Lemma split_authority_cases s url :
  (exists r, url = "/" :: "/" :: r)
  \/ Url.split_authority host_ok s url = Ok (Url.split_tail s [] url).
Proof.
  destruct url as [|c1 url]; [by right|].
  destruct (Ascii.eqb_spec c1 "/") as [->|H1].
  - destruct url as [|c2 r]; [by right|].
    destruct (Ascii.eqb_spec c2 "/") as [->|H2]; [left; by eexists|].
    right. by destruct c2 as [[] [] [] [] [] [] [] []].
  - right. by destruct c1 as [[] [] [] [] [] [] [] []].
Qed.

Lemma split_scheme_cases url d :
  Url.split_scheme url d = (d, url)
  \/ exists c0 t k,
      url = c0 :: t /\ is_ascii_alpha c0 = true
      /\ forallb Url.is_scheme_char (take (S k) url) = true
      /\ Url.split_scheme url d = (lower (take (S k) url), drop (S (S k)) url).
Proof.
  unfold Url.split_scheme.
  destruct (find ":" url) as [[|k]|]; [by left| |by left].
  destruct url as [|c0 t]; [by left|].
  destruct (is_ascii_alpha c0) eqn:Hc; [|by left].
  destruct (forallb Url.is_scheme_char (take (S k) (c0 :: t))) eqn:Hf; [|by left].
  right. by exists c0, t, k.
Qed.

(** The scheme and the authority that [urlsplit] finds in a URL. *)
Lemma urlsplit_origin base b :
  Url.urlsplit host_ok base [] = Ok b ->
  Url.s_scheme b <> [] -> Url.s_netloc b <> [] ->
  origin_ok host_ok (Url.s_scheme b) (Url.s_netloc b).
Proof.
  unfold Url.urlsplit.
  change (Url.remove_unsafe (strip Url.is_c0_or_space [])) with (@nil ascii).
  set (url0 := Url.remove_unsafe (lstrip Url.is_c0_or_space base)).
  assert (Hclean0 : Forall (fun c => ~ unsafe c) url0)
    by apply remove_unsafe_is_clean.
  destruct (split_scheme_cases url0 []) as [->|(c0 & t & k & Hurl & Hc0 & Hchars & ->)].
  { destruct (split_authority_cases [] url0) as [(r & ->)| ->].
    - unfold Url.split_authority. rewrite splitnetloc_slashes.
      destruct (_ || _); [done|].
      destruct (contains "[" _ && contains "]" _ && negb _); [done|].
      intros [= <-].
      by destruct (split_tail_origin [] (take (delim_of r) r) (drop (delim_of r) r))
        as [-> _].
    - intros [= <-]. by destruct (split_tail_origin [] [] url0) as [-> _]. }
  set (s := lower (take (S k) url0)). set (url1 := drop (S (S k)) url0).
  destruct (split_authority_cases s url1) as [(r & Hr)| ->].
  2: { intros [= <-]. by destruct (split_tail_origin s [] url1) as [_ ->]. }
  rewrite Hr. unfold Url.split_authority. rewrite splitnetloc_slashes.
  destruct (_ || _) eqn:Hb1; [done|].
  destruct (contains "[" _ && contains "]" _ && negb _) eqn:Hb2; [done|].
  intros [= <-] _ _.
  destruct (split_tail_origin s (take (delim_of r) r) (drop (delim_of r) r))
    as [-> ->].
  split.
  - unfold s. rewrite Hurl. simpl. eexists _, _. split; [done|].
    by apply lower_char_alpha.
  - by apply lower_scheme_chars.
  - apply lower_idem.
  - apply Forall_take.
    assert (Hsub : Forall (fun c => ~ unsafe c) url1) by by apply Forall_drop.
    rewrite Hr in Hsub. by apply Forall_cons in Hsub as [_ [_ ?]%Forall_cons].
  - apply take_delim_of.
  - done.
  - done.
Qed.

Lemma urlparse_split x d p :
  Url.urlparse host_ok x d = Ok p ->
  exists r, Url.urlsplit host_ok x d = Ok r
            /\ Url.scheme p = Url.s_scheme r /\ Url.netloc p = Url.s_netloc r.
Proof.
  unfold Url.urlparse. destruct (Url.urlsplit host_ok x d) as [r|e]; simpl; [|done].
  destruct (_ && _); [destruct (Url.splitparams _)|]; intros [= <-]; by exists r.
Qed.

Lemma urlsplit_parse x d r :
  Url.urlsplit host_ok x d = Ok r ->
  exists p, Url.urlparse host_ok x d = Ok p
            /\ Url.scheme p = Url.s_scheme r /\ Url.netloc p = Url.s_netloc r.
Proof.
  intros H. unfold Url.urlparse. rewrite H. simpl.
  destruct (_ && _); [destruct (Url.splitparams _)|]; by eexists.
Qed.

Lemma scheme_char_not_space c :
  Url.is_scheme_char c = true -> Url.is_c0_or_space c = false.
Proof. by destruct c as [[] [] [] [] [] [] [] []]. Qed.

Lemma lstrip_scheme s :
  forallb Url.is_scheme_char s = true -> lstrip Url.is_c0_or_space s = s.
Proof.
  destruct s as [|c s]; [done|]. simpl. intros [Hc _]%andb_prop.
  by rewrite scheme_char_not_space.
Qed.

Lemma strip_scheme s :
  forallb Url.is_scheme_char s = true -> strip Url.is_c0_or_space s = s.
Proof.
  intros H. unfold strip, rstrip. rewrite (lstrip_scheme s H).
  rewrite lstrip_scheme; [apply rev_involutive|].
  apply forallb_forall. intros c Hc%in_rev.
  by apply (forallb_elem _ _ _ H), list_elem_of_In.
Qed.

(** Parsing the empty string gives back the default scheme and no
    authority. *)
Lemma urlparse_empty d :
  forallb Url.is_scheme_char d = true ->
  exists p, Url.urlparse host_ok [] d = Ok p
            /\ Url.scheme p = d /\ Url.netloc p = [].
Proof.
  intros Hd. unfold Url.urlparse, Url.urlsplit. simpl lstrip.
  rewrite (strip_scheme d Hd), (remove_unsafe_clean d) by by apply scheme_chars_clean.
  change (Url.remove_unsafe []) with (@nil ascii).
  change (Url.split_scheme [] d) with (d, @nil ascii).
  cbn [Url.split_authority Url.split_tail cut mbind result_bind
       Url.s_path Url.s_scheme Url.s_netloc contains].
  simpl. destruct (Url.member d Url.uses_params); simpl; by eexists.
Qed.

(** C8 (as amended). Let the base parse with a non-empty scheme that
    supports relative references and with a non-empty authority, and
    let the candidate parse.  A candidate without an authority of its
    own, and with no scheme or the base's, resolves to a URL whose
    scheme and authority are the base's.  A candidate with its own
    authority under that scheme resolves to its own components put
    together again.  A candidate with another scheme is returned as it
    is. *)
Theorem resolve_url_origin base url b u :
  Url.urlparse host_ok base [] = Ok b ->
  Url.urlparse host_ok url (Url.scheme b) = Ok u ->
  Url.scheme b <> [] ->
  Url.netloc b <> [] ->
  Url.member (Url.scheme b) Url.uses_relative = true ->
  Url.member (Url.scheme b) Url.uses_netloc = true ->
  (Url.scheme u = Url.scheme b -> Url.netloc u = [] ->
   exists x r,
     resolve_url host_ok base url = Ok x
     /\ Url.urlparse host_ok x [] = Ok r
     /\ Url.scheme r = Url.scheme b /\ Url.netloc r = Url.netloc b)
  /\ (Url.scheme u = Url.scheme b -> Url.netloc u <> [] ->
      resolve_url host_ok base url
      = Ok (Url.urlunparse (Url.scheme u) (Url.netloc u) (Url.path u)
                           (Url.params u) (Url.query u) (Url.fragment u)))
  /\ (Url.scheme u <> Url.scheme b -> resolve_url host_ok base url = Ok url).
Proof.
  intros Hb Hu Hs Hn Hrel Hnet.
  destruct (urlparse_split _ _ _ Hb) as (rb & Hrb & Hsb & Hnb).
  assert (Horigin : origin_ok host_ok (Url.scheme b) (Url.netloc b)).
  { rewrite Hsb, Hnb. eapply urlsplit_origin; [exact Hrb|congruence..]. }
  assert (Hbase : truthy base = true).
  { destruct base; [|done]. exfalso.
    destruct (urlparse_empty []) as (p & Hp & Hsp & _); [done|]. congruence. }
  assert (Hurl : url = [] -> Url.scheme u = Url.scheme b /\ Url.netloc u = []).
  { intros ->. destruct (urlparse_empty (Url.scheme b)) as (p & Hp & ? & ?).
    - apply (o_chars _ _ _ Horigin).
    - by assert (p = u) as -> by congruence. }
  unfold resolve_url, Url.urljoin. rewrite Hbase. cbn [negb].
  split; [|split].
  - intros Hsu Hnu. destruct url as [|c url'].
    { exists base, b. by rewrite Hb. }
    cbn [truthy negb]. rewrite Hb. cbn [mbind result_bind]. rewrite Hu.
    cbn [mbind result_bind]. rewrite Hsu.
    unfold str_eqb. rewrite bool_decide_eq_true_2 by done.
    rewrite Hrel, Hnet, Hnu. cbn [negb orb andb truthy].
    assert (Hre : forall p x q f, exists r,
      Url.urlparse host_ok (Url.urlunparse (Url.scheme b) (Url.netloc b) p x q f) []
      = Ok r /\ Url.scheme r = Url.scheme b /\ Url.netloc r = Url.netloc b).
    { intros p x q f.
      destruct (urlunparse_shape (Url.scheme b) (Url.netloc b) p x q f Hs Hn)
        as (tail & -> & Htail).
      destruct (urlsplit_of_origin _ _ _ [] Horigin Htail) as (r & Hr & Hsr & Hnr).
      destruct (urlsplit_parse _ _ _ Hr) as (r' & Hr' & ? & ?).
      exists r'. split; [done|]. split; congruence. }
    destruct (negb (truthy (Url.path u)) && negb (truthy (Url.params u))).
    + destruct (Hre (Url.path b) (Url.params b)
                  (if negb (truthy (Url.query u)) then Url.query b else Url.query u)
                  (Url.fragment u)) as (r & ? & ? & ?).
      by eexists _, r.
    + match goal with |- context [Ok (Url.urlunparse _ _ ?p ?x ?q ?f)] =>
        destruct (Hre p x q f) as (r & ? & ? & ?) end.
      by eexists _, r.
  - intros Hsu Hnu. destruct url as [|c url'].
    { by destruct (Hurl eq_refl). }
    cbn [truthy negb]. rewrite Hb. cbn [mbind result_bind]. rewrite Hu.
    cbn [mbind result_bind]. rewrite Hsu.
    unfold str_eqb. rewrite bool_decide_eq_true_2 by done.
    rewrite Hrel, Hnet. cbn [negb orb andb].
    destruct (Url.netloc u); [done|]. done.
  - intros Hsu. destruct url as [|c url'].
    { by destruct (Hurl eq_refl). }
    cbn [truthy negb]. rewrite Hb. cbn [mbind result_bind]. rewrite Hu.
    cbn [mbind result_bind].
    unfold str_eqb. by rewrite bool_decide_eq_false_2 by done.
Qed.

End Resolution.

(** * The properties on the sample sites *)

Import Sample.

(** A page that links the same picture in two tags has it yielded
    twice, by the pattern for images first. *)
Lemma extract_urls_order_witness :
  (forall us r,
      iterates any_host twice_site (extract_urls twice [jpg]) us r
      <-> us = [lit "http://t/p.jpg"; lit "http://t/p.jpg"] /\ r = Ok tt)
  /\ length [lit "http://t/p.jpg"; lit "http://t/p.jpg"]
     = length (all_matches twice_page [jpg])
  /\ (forall rx, findall rx twice_page = map group1 (finditer rx twice_page)
                 /\ StronglySorted before (finditer rx twice_page)).
Proof.
  apply (extract_urls_order any_host twice_site twice [jpg]
           (mkResponse 200 [] twice_page)).
  - vm_compute. reflexivity.
  - reflexivity.
  - constructor; [|constructor]. vm_compute. eexists. reflexivity.
  - vm_compute. reflexivity.
Defined.

(** Asking [site] for pictures, an unknown type and documents yields
    the two pictures and then raises. *)
Lemma unknown_file_type_raises_witness :
  FILE_REGEX !! gif = None
  /\ iterates any_host site (extract_urls base ([jpg] ++ gif :: [pdf])) pictures
       (Raise (KeyError gif)).
Proof.
  apply (unknown_file_type_raises any_host site base [jpg] gif [pdf]
           (mkResponse 200 [] page) pictures).
  - apply (bool_decide_unpack _). vm_compute. exact I.
  - vm_compute. reflexivity.
  - reflexivity.
  - exact (iterates_extract_all any_host site base [jpg]).
Defined.

(** The picture of [site] downloaded after another answer for the same
    URL: one file, with the later bytes. *)
Lemma download_twice_overwrites_witness :
  lit "out/x.jpg" = lit "out/x.jpg"
  /\ lit "out/x.jpg" = OsPath.join dest (OsPath.basename (lit "http://h/b/x.jpg"))
  /\ (exists r2, get site (lit "http://h/b/x.jpg") = Ok r2
                 /\ ({[lit "out/x.jpg" := twenty]} : disk) !! lit "out/x.jpg"
                    = Some (content r2))
  /\ dom ({[lit "out/x.jpg" := twenty]} : disk)
     = dom ({[lit "out/x.jpg" := ten]} : disk)
  /\ (forall q, q <> lit "out/x.jpg" ->
        ({[lit "out/x.jpg" := twenty]} : disk) !! q = (∅ : disk) !! q).
Proof.
  apply (download_twice_overwrites twice_site site (lit "http://h/b/x.jpg") dest ∅).
  - vm_compute. reflexivity.
  - vm_compute. reflexivity.
Defined.

(** With two workers and three links, two downloads are in flight and
    the third waits. *)
Lemma in_flight_bounded_witness :
  exists st,
    run site dest (Z.to_nat 2) (length links)
      [Enqueue; Enqueue; Enqueue; Start; Start] (submit links ∅) = Some st
    /\ length (running st) = 2
    /\ length (running st) <= Z.to_nat 2.
Proof.
  destruct (run site dest (Z.to_nat 2) (length links)
              [Enqueue; Enqueue; Enqueue; Start; Start] (submit links ∅))
    as [st|] eqn:E.
  - exists st. split; [reflexivity|]. split.
    + vm_compute in E. injection E as <-. reflexivity.
    + exact (in_flight_bounded site dest 2 links ∅ _ st E).
  - vm_compute in E. discriminate E.
Defined.

(** The pictures of [mirror], ten bytes each under one name, and its
    missing document: three links, two files reported, and twice ten
    bytes. *)
Lemma crawl_tallies_witness :
  files_downloaded (mkReport 2 20 (div_megabyte 20) 2 (div_megabyte 20 / 2)%float)
  = length (successes mirror dest links)
  /\ length links
     = length (successes mirror dest links)
       + length (filter (fun u => outcome_of mirror dest u = Ok None) links)
  /\ (exists st,
        run mirror dest (Z.to_nat 2) (length links) interleaved_three
            (submit links ∅) = Some st
        /\ total_size (files st) (successes mirror dest links).*1 = Ok 20%Z)
  /\ 20%Z = byte_count (successes mirror dest links).
Proof.
  destruct (crawl_tallies any_host mirror 1 3 interleaved_three ∅ base [jpg; pdf]
              dest 2
              (mkObs links (Ok (mkReport 2 20 (div_megabyte 20) 2
                                   (div_megabyte 20 / 2)%float)))
              (mkReport 2 20 (div_megabyte 20) 2 (div_megabyte 20 / 2)%float))
    as (Hfiles & Hlinks & st & Hrun & Htotal & _ & Hbytes).
  - vm_compute. reflexivity.
  - reflexivity.
  - split; [exact Hfiles|]. split; [exact Hlinks|]. split.
    + exists st. split; [exact Hrun|exact Htotal].
    + apply Hbytes. intros p d d'.
      change (successes mirror dest links)
        with [(lit "out/x.jpg", ten); (lit "out/x.jpg", ten)].
      intros [[= _ ->]|[[= _ ->]|[]%elem_of_nil]%elem_of_cons]%elem_of_cons
             [[= _ ->]|[[= _ ->]|[]%elem_of_nil]%elem_of_cons]%elem_of_cons;
        reflexivity.
Defined.

(** The three links of [site]: each is completed once and has its
    outcome, the missing document included. *)
Lemma every_download_has_one_outcome_witness :
  exists st,
    run site dest (Z.to_nat 2) (length links) (sequential site dest links)
        (submit links ∅)
    = Some st
    /\ cancelled st = []
    /\ size (futures st) = length links
    /\ forall i u, links !! i = Some u ->
         completions i (sequential site dest links) = 1
         /\ exists o, futures st !! i = Some (Ok o)
                      /\ outcome_of site dest u = Ok o.
Proof.
  refine (proj2 (every_download_has_one_outcome any_host site 1 3
           (sequential site dest links) ∅
           base [jpg; pdf] dest 2 (mkObs links (Ok site_report)) links (Ok tt)
           _ _ _ _)).
  - split; [split; reflexivity|reflexivity].
  - exact (iterates_extract_all any_host site base [jpg; pdf]).
  - intros u [->|[->|[->|[]%elem_of_nil]%elem_of_cons]%elem_of_cons]%elem_of_cons;
      eexists; vm_compute; reflexivity.
  - vm_compute. reflexivity.
Defined.


(** The page of [broken] cannot be fetched: nothing is submitted and
    the crawl exits with status 5. *)
Lemma page_fetch_failure_witness :
  exists e,
    crawl any_host broken 1 3 [] ∅ base [jpg] dest 2 = Some (mkObs [] (Raise e))
    /\ (forall evs obs,
          crawl any_host broken 1 3 evs ∅ base [jpg] dest 2 = Some obs ->
          obs = mkObs [] (Raise e))
    /\ (e = RequestException \/ e = SystemExit 5)
    /\ forall w' start' stop' evs' fs' fts' obs',
         extract_all any_host w' base fts' = ([], Ok tt) ->
         crawl any_host w' start' stop' evs' fs' base fts' dest 2 = Some obs' ->
         returned obs' <> Raise e.
Proof.
  apply (page_fetch_failure any_host broken 1 3 ∅ base [jpg] dest 2).
  - split; reflexivity.
  - right. exists (mkResponse 500 [] []). split; [reflexivity|simpl; lia].
Defined.

(** The report of [site] after two seconds. *)
Lemma bandwidth_is_quotient_witness :
  (forall rep,
      Ok site_report = Ok rep ->
      time_total rep = (3 - 1)%float
      /\ (time_total rep =? 0)%float = false
      /\ Mbytes_downloaded rep = div_megabyte (bytes_downloaded rep)
      /\ bandwidth rep = (Mbytes_downloaded rep / time_total rep)%float)
  /\ (((3 - 1) =? 0)%float = true ->
      workable site 1 ->
      (extract_all any_host site base [jpg; pdf]).2 = Ok tt ->
      all_return site dest (extract_all any_host site base [jpg; pdf]).1 ->
      Ok site_report = Raise ZeroDivisionError).
Proof.
  apply (bandwidth_is_quotient any_host site 1 3 (sequential site dest links) ∅
           base [jpg; pdf] dest 1 (mkObs links (Ok site_report))).
  vm_compute. reflexivity.
Defined.

(** The example of the source: a relative path under the course page. *)
Lemma resolve_url_origin_witness :
  resolve_url any_host
    (lit "https://www3.nd.edu/~pbui/teaching/cse.20289.sp24/")
    (lit "static/img/ostep.jpg")
  = Ok (lit "https://www3.nd.edu/~pbui/teaching/cse.20289.sp24/static/img/ostep.jpg")
  /\ exists x r,
      resolve_url any_host
        (lit "https://www3.nd.edu/~pbui/teaching/cse.20289.sp24/")
        (lit "static/img/ostep.jpg") = Ok x
      /\ Url.urlparse any_host x [] = Ok r
      /\ Url.scheme r = lit "https" /\ Url.netloc r = lit "www3.nd.edu".
Proof.
  split; [vm_compute; reflexivity|].
  refine (proj1 (resolve_url_origin any_host
           (lit "https://www3.nd.edu/~pbui/teaching/cse.20289.sp24/")
           (lit "static/img/ostep.jpg")
           (Url.mkParse (lit "https") (lit "www3.nd.edu")
                        (lit "/~pbui/teaching/cse.20289.sp24/") [] [] [])
           (Url.mkParse (lit "https") [] (lit "static/img/ostep.jpg") [] [] [])
           _ _ _ _ _ _) eq_refl eq_refl).
  - vm_compute. reflexivity.
  - vm_compute. reflexivity.
  - discriminate.
  - discriminate.
  - vm_compute. reflexivity.
  - vm_compute. reflexivity.
Defined.

(** A number of workers that is not positive, one that is too large
    for the pool, and one that the machine cannot start: nothing is
    fetched in the first two cases, and the first link is the only one
    submitted in the third. *)
Lemma crawl_without_workers :
  crawl any_host site 1 3 [] ∅ base [jpg; pdf] dest 0
  = Some (mkObs [] (Raise ValueError))
  /\ crawl any_host site 1 3 [] ∅ base [jpg; pdf] dest (2 ^ 31 - 1)
     = Some (mkObs [] (Raise OverflowError))
  /\ crawl any_host crowded 1 3 [] ∅ base [jpg; pdf] dest 2
     = Some (mkObs [lit "http://h/a/x.jpg"] (Raise OSError)).
Proof. repeat split; vm_compute; reflexivity. Qed.

(** ** Where the code departs from the specification *)

(** C1, as stated, fails.  The two pictures of [site] have the same
    file name: both downloads succeed, with 10 and 20 bytes, but the
    report gives 40 bytes when they are served in order or at the same
    time, and 20 bytes when the second is served first. *)
Lemma tallies_depend_on_file_names :
  successes site dest pictures
  = [(lit "out/x.jpg", ten); (lit "out/x.jpg", twenty)]
  /\ byte_count (successes site dest pictures) = 30%Z
  /\ crawl any_host site 1 3 (sequential site dest pictures) ∅ base [jpg] dest 2
     = Some (mkObs pictures
               (Ok (mkReport 2 40 (div_megabyte 40) 2 (div_megabyte 40 / 2)%float)))
  /\ crawl any_host site 1 3 interleaved ∅ base [jpg] dest 2
     = Some (mkObs pictures
               (Ok (mkReport 2 40 (div_megabyte 40) 2 (div_megabyte 40 / 2)%float)))
  /\ crawl any_host site 1 3 overlapped ∅ base [jpg] dest 2
     = Some (mkObs pictures
               (Ok (mkReport 2 20 (div_megabyte 20) 2 (div_megabyte 20 / 2)%float))).
Proof. repeat split; vm_compute; reflexivity. Qed.

(** C2, as stated, fails.  On the machine without the destination
    directory the three links of [site] are submitted; the first
    download raises, which is neither a path nor [None]; the caller
    cancels the third, which gets no outcome at all; and [crawl] ends
    with the exception. *)
Lemma write_error_leaves_no_outcome :
  extract_all any_host locked base [jpg; pdf] = (links, Ok tt)
  /\ outcome_of locked dest (lit "http://h/a/x.jpg") = Raise OSError
  /\ crawl any_host locked 1 3 interrupted ∅ base [jpg; pdf] dest 1
     = Some (mkObs links (Raise OSError))
  /\ exists st,
      run locked dest 1 (length links) interrupted (submit links ∅) = Some st
      /\ idle st = true
      /\ futures st !! 0 = Some (Raise OSError)
      /\ futures st !! 2 = None
      /\ cancelled st = [(2, lit "http://h/c.pdf")].
Proof.
  split; [vm_compute; reflexivity|]. split; [vm_compute; reflexivity|].
  split; [vm_compute; reflexivity|].
  destruct (run locked dest 1 (length links) interrupted (submit links ∅))
    as [st|] eqn:E; vm_compute in E; [|discriminate E].
  injection E as <-. eexists. split; [reflexivity|].
  repeat split; vm_compute; reflexivity.
Qed.


(** C7, as stated, fails.  With equal clock readings the crawl of
    [site] ends with [ZeroDivisionError]: no bandwidth is computed. *)
Lemma equal_clock_readings_raise :
  ((5 - 5) =? 0)%float = true
  /\ crawl any_host site 5 5 (sequential site dest links) ∅ base [jpg; pdf] dest 1
     = Some (mkObs links (Raise ZeroDivisionError)).
Proof. split; vm_compute; reflexivity. Qed.

(** C8, as stated, fails.  A candidate without a scheme that starts
    with two slashes is relative, and resolves to a URL with its own
    authority, not the base's; and an absolute candidate whose scheme
    is written in capitals is not returned unchanged. *)
Lemma resolve_url_keeps_other_authority :
  Url.urlparse any_host (lit "http://a/") []
  = Ok (Url.mkParse (lit "http") (lit "a") (lit "/") [] [] [])
  /\ Url.urlparse any_host (lit "//b/x.jpg") []
     = Ok (Url.mkParse [] (lit "b") (lit "/x.jpg") [] [] [])
  /\ resolve_url any_host (lit "http://a/") (lit "//b/x.jpg")
     = Ok (lit "http://b/x.jpg")
  /\ Url.urlparse any_host (lit "http://b/x.jpg") []
     = Ok (Url.mkParse (lit "http") (lit "b") (lit "/x.jpg") [] [] [])
  /\ resolve_url any_host (lit "http://a/") (lit "HTTP://b/x.jpg")
     = Ok (lit "http://b/x.jpg")
  /\ lit "http://b/x.jpg" <> lit "HTTP://b/x.jpg".
Proof. repeat split; try (vm_compute; reflexivity). discriminate. Qed.

(** * Further properties of the program *)

Section Further.

Variable host_ok : str -> bool.

(** ** What a download writes *)

(** X1. A download changes at most one path of the disk, the one
    named after the last segment of the URL under the destination.  A
    download that returns [None] changes nothing; one that returns a
    path has put the body of the response there; one that raises has
    changed nothing, or has left at that path the bytes of the body
    that were written before the write failed. *)
Theorem download_url_one_path w url dest fs :
  (forall q, q <> OsPath.join dest (OsPath.basename url) ->
             (download_url w url dest fs).2 !! q = fs !! q)
  /\ ((download_url w url dest fs).1 = Ok None ->
      (download_url w url dest fs).2 = fs)
  /\ (forall p, (download_url w url dest fs).1 = Ok (Some p) ->
        p = OsPath.join dest (OsPath.basename url)
        /\ exists r, get w url = Ok r
                     /\ (download_url w url dest fs).2 !! p = Some (content r))
  /\ (forall e, (download_url w url dest fs).1 = Raise e ->
        (download_url w url dest fs).2 = fs
        \/ exists r m,
            get w url = Ok r
            /\ write_limit w (OsPath.join dest (OsPath.basename url)) (content r)
               = Some m
            /\ (download_url w url dest fs).2
               = <[OsPath.join dest (OsPath.basename url) :=
                     take (Nat.min m (length (content r))) (content r)]> fs).
Proof.
  destruct (download_url_cases w url dest fs)
    as [(p & d & -> & _ & _ & _ & Hp & (r & Hr & <-) & _)
       |[(-> & _)|[(e & -> & _)|(p & d & m & -> & _ & _ & Ho & Hm)]]];
    simpl.
  - split; [|split; [done|split; [|done]]].
    + intros q Hq. rewrite lookup_insert_ne; [done|congruence].
    + intros p' [= <-]. split; [done|]. exists r. by rewrite lookup_insert_eq.
  - split; [done|]. split; [done|]. split; [by intros p [=]|done].
  - split; [done|]. split; [done|]. split; [by intros p [=]|]. intros _ _. by left.
  - destruct (opened_outcome _ _ _ _ _ Ho) as (-> & (r & Hf & <-) & _).
    split; [|split; [done|split; [done|]]].
    + intros q Hq. by rewrite lookup_insert_ne.
    + intros _ _. right. exists r, m.
      destruct (fetch_cases w url) as [(r' & Hf' & Hget)|[x Hx]]; [|congruence].
      assert (r' = r) as -> by congruence.
      split; [done|]. split; [done|]. unfold extent. by rewrite Hm.
Qed.

(** X2. Whatever a pool does, a path that is not the local path of one
    of its work items holds at the end what it held at the start. *)
Theorem run_keeps_other_files w dest workers n evs q :
  forall st st',
    (forall i u, (i, u) ∈ items st ->
                 q <> OsPath.join dest (OsPath.basename u)) ->
    run w dest workers n evs st = Some st' ->
    files st' !! q = files st !! q.
Proof.
  induction evs as [|ev evs IH]; intros st st' Hq; simpl.
  - by intros [= <-].
  - destruct (step w dest workers n ev st) as [st1|] eqn:E; [|done].
    intros Hrun. rewrite (IH st1 st').
    + apply step_transition in E.
      destruct E as [t rest Hp Hl|t rest Hq' Hl|i u p d Hi Hpr Ho|i u Hi Hpr Ho
                    |i k u r offset Hi Hpr Hf Hk Hext|i u ph Hi Hpr Hw|e Hr];
        try done; simpl.
      * destruct (opened_outcome _ _ _ _ _ Ho) as (-> & _).
        apply lookup_insert_ne. intros <-. apply (Hq i u); [|done].
        unfold items. rewrite !elem_of_app. right; right; left.
        by apply item_url_elem.
      * apply lookup_insert_ne. intros <-. apply (Hq i u); [|done].
        unfold items. rewrite !elem_of_app. right; right; left.
        by apply item_url_elem.
    + intros i u Hin. apply (Hq i). by eapply step_items.
    + done.
Qed.

(** ** Where a download is stored *)

Lemma after_last_absent c s : c ∉ after_last c s.
Proof.
  induction s as [|x s IH]; simpl; [apply not_elem_of_nil|].
  unfold contains. case_bool_decide as Hc; [done|].
  destruct (Ascii.eqb_spec x c) as [->|Hx]; [done|].
  rewrite not_elem_of_cons. split; [congruence|done].
Qed.

Lemma after_last_suffix c s : exists pre, s = pre ++ after_last c s.
Proof.
  induction s as [|x s [pre IH]]; simpl; [by exists []|].
  unfold contains. case_bool_decide as Hc.
  - exists (x :: pre). simpl. by rewrite <- IH.
  - destruct (Ascii.eqb_spec x c) as [->|Hx]; [by exists [c]|by exists []].
Qed.

Lemma after_last_whole c s : c ∉ s -> after_last c s = s.
Proof.
  induction s as [|x s IH]; simpl; [done|].
  rewrite not_elem_of_cons. intros [Hx Hs].
  unfold contains. rewrite bool_decide_eq_false_2 by done.
  destruct (Ascii.eqb_spec x c); congruence.
Qed.

Lemma after_last_app c a b : c ∉ b -> after_last c (a ++ c :: b) = b.
Proof.
  intros Hb. induction a as [|x a IH]; simpl.
  - unfold contains. rewrite bool_decide_eq_false_2 by done.
    by rewrite Ascii.eqb_refl.
  - unfold contains. rewrite bool_decide_eq_true_2; [done|].
    rewrite elem_of_app, elem_of_cons. tauto.
Qed.

Lemma last_snoc_eq (a : str) c : a <> [] -> List.last a c = c ->
  exists a', a = a' ++ [c].
Proof.
  intros Ha Hl. destruct (exists_last Ha) as (a' & x & ->).
  rewrite last_last in Hl. subst. by exists a'.
Qed.

Lemma join_basename dest url :
  OsPath.join dest (OsPath.basename url) = dest ++ OsPath.basename url
  \/ OsPath.join dest (OsPath.basename url) = dest ++ "/" :: OsPath.basename url.
Proof.
  unfold OsPath.join, OsPath.basename.
  pose proof (after_last_absent "/" url) as Hno.
  destruct (after_last "/" url) as [|x name] eqn:E; simpl.
  - destruct (_ || _); [by left|by right].
  - destruct (Ascii.eqb_spec x "/") as [->|_].
    + exfalso. apply Hno. by left.
    + destruct (_ || _); [by left|by right].
Qed.

Lemma basename_join dest url :
  OsPath.basename (OsPath.join dest (OsPath.basename url)) = OsPath.basename url.
Proof.
  unfold OsPath.join, OsPath.basename.
  pose proof (after_last_absent "/" url) as Hno.
  set (name := after_last "/" url) in *.
  assert (starts_with_char "/" name = false) as ->.
  { destruct name as [|x name]; [done|]. simpl.
    destruct (Ascii.eqb_spec x "/") as [->|]; [|done].
    exfalso. apply Hno. by left. }
  destruct dest as [|d dest]; [simpl; by apply after_last_whole|].
  cbn [truthy negb orb].
  destruct (Ascii.eqb_spec (List.last (d :: dest) "/") "/") as [Hl|_].
  - apply last_snoc_eq in Hl as [a' ->]; [|done].
    rewrite <- app_assoc. by apply after_last_app.
  - by apply after_last_app.
Qed.

Lemma after_last_split c s :
  exists pre,
    s = pre ++ after_last c s /\ (pre = [] \/ exists pre', pre = pre' ++ [c]).
Proof.
  induction s as [|x s (pre & IH & Hpre)]; simpl.
  { exists []. split; [done|by left]. }
  unfold contains. case_bool_decide as Hc.
  - exists (x :: pre). split; [simpl; by rewrite <- IH|]. right.
    destruct Hpre as [->|[pre' ->]].
    + exfalso. simpl in IH. pose proof (after_last_absent c s) as Hno.
      rewrite <- IH in Hno. done.
    + by exists (x :: pre').
  - destruct (Ascii.eqb_spec x c) as [->|Hx].
    + exists [c]. split; [done|]. right. by exists [].
    + exists []. split; [done|by left].
Qed.

Lemma join_cases (a b : str) :
  starts_with_char "/" b = false ->
  ((a = [] \/ exists a', a = a' ++ ["/"]) -> OsPath.join a b = a ++ b)
  /\ (a <> [] -> (forall a', a <> a' ++ ["/"]) ->
      OsPath.join a b = a ++ "/" :: b).
Proof.
  intros Hb. unfold OsPath.join. rewrite Hb. split.
  - intros [->|[a' ->]]; [done|].
    destruct (a' ++ ["/"]) as [|x t] eqn:E; [by destruct a'|].
    rewrite <- E. cbn [truthy negb orb].
    destruct a'; simpl in E; injection E as <- <-; cbn [truthy negb orb];
      by rewrite ?last_last.
  - intros Hne Hlast. destruct a as [|x a]; [done|]. cbn [truthy negb orb].
    destruct (Ascii.eqb_spec (List.last (x :: a) "/") "/") as [Hl|_]; [|done].
    apply last_snoc_eq in Hl as [a' Ha']; [|done]. by destruct (Hlast a').
Qed.

(** X3. The path a download returns is made of the destination and
    the name of the file, which is the text of the URL after its last
    slash (all of the URL when it has none): the name is put right
    after a destination that is empty or ends with a slash, and after
    a slash put behind any other destination.  The name contains no
    slash, so it is again the last segment of the path. *)
Theorem download_url_local_path w url dest fs p :
  (download_url w url dest fs).1 = Ok (Some p) ->
  exists pre name,
    url = pre ++ name
    /\ ("/" ∉ name)
    /\ (pre = [] \/ exists pre', pre = pre' ++ ["/"])
    /\ ((dest = [] \/ exists d, dest = d ++ ["/"]) -> p = dest ++ name)
    /\ (dest <> [] -> (forall d, dest <> d ++ ["/"]) -> p = dest ++ "/" :: name)
    /\ OsPath.basename p = name.
Proof.
  intros Hp.
  pose proof (download_url_outcome w url dest fs) as Hout.
  destruct (download_url_cases w url dest fs)
    as [(p' & d & _ & Ho & _ & _ & -> & _)
       |[(_ & Ho & _)|[(e & _ & Ho & _)|(q & d & m & _ & Ho & _)]]];
    rewrite Hout, Ho in Hp; try done.
  injection Hp as <-.
  destruct (after_last_split "/" url) as (pre & Hurl & Hpre).
  exists pre, (OsPath.basename url).
  pose proof (after_last_absent "/" url) as Hno.
  assert (Hb : starts_with_char "/" (OsPath.basename url) = false).
  { unfold OsPath.basename. destruct (after_last "/" url) as [|x name]; [done|].
    simpl. destruct (Ascii.eqb_spec x "/") as [->|]; [|done].
    exfalso. apply Hno. by left. }
  destruct (join_cases dest (OsPath.basename url) Hb) as [Hj1 Hj2].
  split; [done|]. split; [done|]. split; [done|]. split; [done|].
  split; [done|]. apply basename_join.
Qed.

(** ** A crawl for a file type outside the table *)

(** X4. A crawl for file types of which one is outside the table,
    with a number of workers that the pool accepts and the machine can
    start, ends with [KeyError] for that file type and prints no
    report, under every schedule: the links of the file types before
    it have been submitted to the pool by then, and the pool serves
    them all, cancelling none, before the exception leaves [crawl]. *)
Theorem crawl_unknown_file_type
    w start stop evs fs url known ft rest dest cpus us obs :
  workable w cpus ->
  ft ∉ map lit ["jpg"; "mp3"; "pdf"; "png"]%string ->
  extract_all host_ok w url known = (us, Ok tt) ->
  crawl host_ok w start stop evs fs url (known ++ ft :: rest) dest cpus
  = Some obs ->
  obs = mkObs us (Raise (KeyError ft))
  /\ exists st,
      run w dest (Z.to_nat cpus) (length us) evs (submit us fs) = Some st
      /\ cancelled st = []
      /\ forall i u, us !! i = Some u ->
           futures st !! i = Some (outcome_of w dest u).
Proof.
  intros Hc Hft%FILE_REGEX_unknown Hknown Hcrawl.
  assert (Hex : extract_all host_ok w url (known ++ ft :: rest)
                = (us, Raise (KeyError ft))).
  { unfold extract_all in *.
    destruct (get w url) as [response|e]; [|done].
    destruct (negb (ok response)); [done|].
    rewrite run_filetypes_app, Hknown. simpl. rewrite Hft.
    unfold then_run. simpl. by rewrite app_nil_r. }
  destruct (crawl_cases _ _ _ _ _ _ _ _ _ _ _ Hcrawl)
    as [[? _]|[[? _]|(_ & urls & stopped & Hex' & Hrest)]];
    [destruct Hc as [? _]; lia..|].
  rewrite Hex in Hex'. injection Hex' as <- <-.
  rewrite (workable_launches _ _ us Hc) in Hrest.
  destruct Hrest as [[? _]|(_ & st & Hrun & Hidle & Hs & _ & Hcanc & ->)]; [done|].
  split; [done|]. exists st. split; [done|]. split; [done|].
  intros i u Hi. by eapply idle_future.
Qed.

(** ** When resolution raises *)

Lemma elem_of_lstrip p (s : str) c : c ∈ lstrip p s -> c ∈ s.
Proof.
  induction s as [|x s IH]; simpl; [done|].
  destruct (p x); [|done]. intros H. right. by apply IH.
Qed.

Lemma elem_of_remove_unsafe s c : c ∈ Url.remove_unsafe s -> c ∈ s.
Proof.
  unfold Url.remove_unsafe, remove_char.
  rewrite !list_elem_of_filter. tauto.
Qed.

Lemma urlsplit_raises x d e :
  Url.urlsplit host_ok x d = Raise e ->
  e = ValueError /\ ("[" ∈ x \/ "]" ∈ x).
Proof.
  unfold Url.urlsplit.
  set (x1 := Url.remove_unsafe (lstrip Url.is_c0_or_space x)).
  assert (Hx1 : forall c, c ∈ x1 -> c ∈ x).
  { intros c Hc. unfold x1 in Hc.
    by apply elem_of_remove_unsafe, elem_of_lstrip in Hc. }
  clearbody x1.
  set (d1 := Url.remove_unsafe (strip Url.is_c0_or_space d)). clearbody d1.
  assert (exists s x2, Url.split_scheme x1 d1 = (s, x2)
                       /\ forall c, c ∈ x2 -> c ∈ x) as (s & x2 & -> & Hx2).
  { destruct (split_scheme_cases x1 d1) as [->|(c0 & t & k & _ & _ & _ & ->)].
    - by exists d1, x1.
    - eexists _, _. split; [done|]. intros c Hc. apply Hx1.
      revert Hc. apply subseteq_drop. }
  destruct (split_authority_cases host_ok s x2) as [[r ->]| ->]; [|done].
  unfold Url.split_authority. rewrite splitnetloc_slashes.
  assert (Hn : forall c, contains c (take (delim_of r) r) = true -> c ∈ x).
  { intros c Hc. apply bool_decide_eq_true_1 in Hc.
    apply Hx2. right; right. revert Hc. apply subseteq_take. }
  destruct (contains "[" (take (delim_of r) r)) eqn:Ho;
    destruct (contains "]" (take (delim_of r) r)) eqn:Hc; simpl;
    try (intros [= <-]; split; [done|]; auto); try done.
  destruct (Url.check_bracketed_netloc _ _); simpl; [done|].
  intros [= <-]. auto.
Qed.

Lemma urlparse_raises x d e :
  Url.urlparse host_ok x d = Raise e ->
  e = ValueError /\ ("[" ∈ x \/ "]" ∈ x).
Proof.
  unfold Url.urlparse.
  destruct (Url.urlsplit host_ok x d) as [r|e'] eqn:E; simpl.
  - destruct (_ && _); [destruct (Url.splitparams _)|]; done.
  - intros [= <-]. by apply urlsplit_raises in E.
Qed.

(** X5. Resolving a link against a base, both of ASCII characters,
    raises nothing but [ValueError], and only when the base or the link
    contains a square bracket. *)
Theorem resolve_url_raises base url e :
  isascii (base ++ url) ->
  resolve_url host_ok base url = Raise e ->
  e = ValueError /\ ("[" ∈ base ++ url \/ "]" ∈ base ++ url).
Proof.
  intros _. unfold resolve_url, Url.urljoin.
  destruct (negb (truthy base)); [done|].
  destruct (negb (truthy url)); [done|].
  rewrite !elem_of_app.
  destruct (Url.urlparse host_ok base []) as [b|e'] eqn:Eb; simpl.
  - destruct (Url.urlparse host_ok url (Url.scheme b)) as [u|e'] eqn:Eu; simpl.
    + repeat (match goal with |- context [if ?c then _ else _] =>
                destruct c end; try done).
    + intros [= <-]. apply urlparse_raises in Eu. tauto.
  - intros [= <-]. apply urlparse_raises in Eb. tauto.
Qed.

(** ** The generator after its end *)

Lemma yield_resolved_end url page m ms rs fts s g :
  yield_resolved host_ok url page m ms rs fts = (s, g) ->
  (forall u, s <> Yield u) -> g = Finished.
Proof.
  unfold yield_resolved. destruct (resolve_url host_ok url m) as [u|e].
  - intros [= <- <-] H. by destruct (H u).
  - by intros [= <- <-].
Qed.

Lemma next_filetype_end url page fts s g :
  next_filetype host_ok url page fts = (s, g) ->
  (forall u, s <> Yield u) -> g = Finished.
Proof.
  induction fts as [|ft fts IH]; simpl; [by intros [= <- <-]|].
  destruct (FILE_REGEX !! ft) as [rs|]; [|by intros [= <- <-]].
  destruct (next_regex page rs) as [[[m ms] rs']|] eqn:E.
  - apply yield_resolved_end.
  - apply IH.
Qed.

(** X6. A generator of [extract_urls] that has stopped or raised is
    finished: iterating it again yields nothing and stops at once. *)
Theorem generator_single_pass w g s g' :
  next host_ok w g = (s, g') ->
  (forall u, s <> Yield u) ->
  g' = Finished
  /\ forall us r, iterates host_ok w g' us r -> us = [] /\ r = Ok tt.
Proof.
  intros Hnext Hs.
  assert (g' = Finished) as ->.
  { destruct g as [url fts|url page ms rs fts|]; simpl in Hnext.
    - destruct (get w url) as [response|e]; [|by injection Hnext as <- <-].
      destruct (negb (ok response)); [by injection Hnext as <- <-|].
      by eapply next_filetype_end.
    - unfold advance in Hnext. destruct ms as [|m ms].
      + destruct (next_regex page rs) as [[[m ms] rs']|].
        * by eapply yield_resolved_end.
        * by eapply next_filetype_end.
      + by eapply yield_resolved_end.
    - by injection Hnext as <- <-. }
  split; [done|]. intros us r H. by inversion H.
Qed.

(** ** The result of a crawl and the schedule of its pool *)

(** Futures that hold outcomes of [os] are read as [os] is, unless the
    reader has to wait. *)
Lemma read_results_partial (fut : gmap nat outcome) (os : list outcome) k :
  (forall j r, fut !! (k + j) = Some r -> os !! j = Some r) ->
  read_results fut (seq k (length os)) = Waiting
  \/ read_results fut (seq k (length os)) = read_outcomes os.
Proof.
  revert k. induction os as [|o os IH]; intros k Hfut; [by right|].
  cbn [length seq read_results read_outcomes].
  destruct (fut !! k) as [r|] eqn:Hk; [|by left].
  assert (o = r) as ->.
  { specialize (Hfut 0 r). rewrite Nat.add_0_r in Hfut.
    specialize (Hfut Hk). by injection Hfut. }
  destruct r as [v|e]; [|by right].
  destruct (IH (S k)) as [-> | ->]; [|by left|by right].
  intros j r Hj. apply (Hfut (S j)). by rewrite Nat.add_succ_r.
Qed.

(** A reader that has met an exception does not see the futures set
    later. *)
Lemma read_results_insert_failed (fut : gmap nat outcome) idx i r e :
  fut !! i = None ->
  read_results fut idx = Failed e ->
  read_results (<[i := r]> fut) idx = Failed e.
Proof.
  intros Hi. induction idx as [|j idx IH]; simpl; [done|].
  destruct (fut !! j) as [[v|e']|] eqn:Hj; [| |done].
  - rewrite lookup_insert_ne by congruence. rewrite Hj.
    destruct (read_results fut idx) eqn:Hr; try done.
    intros [= ->]. by rewrite IH.
  - rewrite lookup_insert_ne by congruence. by rewrite Hj.
Qed.

(** Items are cancelled only after the reader has met an exception. *)
Lemma step_cancelled w dest workers urls ev st st' :
  sound w dest urls st ->
  step w dest workers (length urls) ev st = Some st' ->
  (cancelled st = []
   \/ exists e, read_results (futures st) (seq 0 (length urls)) = Failed e) ->
  cancelled st' = []
  \/ exists e, read_results (futures st') (seq 0 (length urls)) = Failed e.
Proof.
  intros Hs HT%step_transition Hinv.
  destruct HT as [t rest Hp Hl|t rest Hq Hl|i u p d Hi Hpr Ho|i u Hi Hpr Ho
                 |i k u r offset Hi Hpr Hf Hk Hext|i u ph Hi Hpr Hw|e Hr];
    try done; simpl.
  - pose proof (finish_fresh _ _ _ _ _ _ Hs Hi) as Hfresh.
    apply not_elem_of_dom in Hfresh.
    destruct Hinv as [?|[e He]]; [by left|]. right. exists e.
    by apply read_results_insert_failed.
  - right. by exists e.
Qed.

Lemma run_cancelled w dest workers urls evs :
  forall st st',
    sound w dest urls st ->
    run w dest workers (length urls) evs st = Some st' ->
    (cancelled st = []
     \/ exists e, read_results (futures st) (seq 0 (length urls)) = Failed e) ->
    cancelled st' = []
    \/ exists e, read_results (futures st') (seq 0 (length urls)) = Failed e.
Proof.
  induction evs as [|ev evs IH]; intros st st' Hs; simpl.
  - by intros [= <-].
  - destruct (step w dest workers (length urls) ev st) as [st1|] eqn:E; [|done].
    intros Hrun Hinv. apply (IH st1); [by eapply step_sound|done|].
    by eapply step_cancelled.
Qed.

(** Once the pool of a crawl is at rest, the caller reads the outcomes
    of the links in order, also after a cancellation. *)
Lemma idle_reading w dest workers urls evs fs st :
  run w dest workers (length urls) evs (submit urls fs) = Some st ->
  idle st = true ->
  sound w dest urls st
  /\ read_results (futures st) (seq 0 (length urls))
     = read_outcomes (map (outcome_of w dest) urls).
Proof.
  intros Hrun Hidle.
  pose proof (run_sound _ _ _ _ _ _ _ (submit_sound w dest urls fs) Hrun) as Hs.
  split; [done|].
  destruct (run_cancelled _ _ _ _ _ _ _ (submit_sound w dest urls fs) Hrun)
    as [Hc|[e He]]; [by left|by apply idle_read_results|].
  rewrite <- (length_map (outcome_of w dest) urls) in *.
  destruct (read_results_partial (futures st) (map (outcome_of w dest) urls) 0)
    as [Hw|Heq]; [|congruence|done].
  intros j r Hj. simpl in Hj.
  destruct (sound_futures _ _ _ _ Hs _ _ Hj) as (u & Hu & ->).
  by rewrite list_lookup_fmap, Hu.
Qed.

Lemma read_outcomes_complete w dest urls rs :
  read_outcomes (map (outcome_of w dest) urls) = Complete rs ->
  all_return w dest urls.
Proof.
  revert rs. induction urls as [|u urls IH]; intros rs; simpl.
  - intros _ v Hv. by apply elem_of_nil in Hv.
  - destruct (outcome_of w dest u) as [o|e] eqn:Ho; [|done].
    destruct (read_outcomes _) as [rs'| |] eqn:Hr; [|done..].
    intros _ v [->|Hv]%elem_of_cons; [by exists o|by eapply IH].
Qed.

(** A crawl whose pool has served its links and one of whose downloads
    raises ends with the exception of the first such download, in the
    order of the links. *)
Lemma crawl_raises w start stop evs fs url fts dest cpus urls e obs :
  (0 < cpus < 2 ^ 31 - 1)%Z ->
  launch_fails w cpus urls = false ->
  extract_all host_ok w url fts = (urls, Ok tt) ->
  read_outcomes (map (outcome_of w dest) urls) = Failed e ->
  crawl host_ok w start stop evs fs url fts dest cpus = Some obs ->
  obs = mkObs urls (Raise e).
Proof.
  intros Hc Hl Hex Hfail Hcrawl.
  destruct (crawl_cases _ _ _ _ _ _ _ _ _ _ _ Hcrawl)
    as [[? _]|[[? _]|(_ & urls' & stopped & Hex' & Hrest)]]; [lia..|].
  rewrite Hex in Hex'. injection Hex' as <- <-. rewrite Hl in Hrest.
  destruct Hrest as [[? _]|(_ & st & Hrun & Hidle & Hs & Hrest)]; [done|].
  destruct (idle_reading _ _ _ _ _ _ _ Hrun Hidle) as [_ Hread].
  by rewrite Hread, Hfail in Hrest.
Qed.

(** X7. The links a crawl submits, whether it ends with a report or
    with an exception, which exception, and the number of files of the
    report are the same under every schedule of the pool and whatever
    the clock shows, as long as the elapsed time is not zero. *)
Theorem crawl_schedule_independent
    w start stop start' stop' evs evs' fs url fts dest cpus obs obs' :
  ((stop - start) =? 0)%float = false ->
  ((stop' - start') =? 0)%float = false ->
  crawl host_ok w start stop evs fs url fts dest cpus = Some obs ->
  crawl host_ok w start' stop' evs' fs url fts dest cpus = Some obs' ->
  submitted obs = submitted obs'
  /\ match returned obs, returned obs' with
     | Ok rep, Ok rep' => files_downloaded rep = files_downloaded rep'
     | Raise e, Raise e' => e = e'
     | _, _ => False
     end.
Proof.
  intros Ht Ht' H1 H2.
  destruct (crawl_cases _ _ _ _ _ _ _ _ _ _ _ H1)
    as [[Hc ->]|[[Hc ->]|(Hc & urls & stopped & Hex & Hrest)]];
    destruct (crawl_cases _ _ _ _ _ _ _ _ _ _ _ H2)
      as [[Hc' ->]|[[Hc' ->]|(Hc' & urls' & stopped' & Hex' & Hrest')]];
    try lia; try done.
  rewrite Hex in Hex'. injection Hex' as <- <-.
  destruct (launch_fails w cpus urls) eqn:Hl.
  { destruct Hrest as [[_ ->]|[? _]]; [|done].
    by destruct Hrest' as [[_ ->]|[? _]]. }
  destruct Hrest as [[? _]|(_ & st & Hrun & Hidle & Hs & Hrest)]; [done|].
  destruct Hrest' as [[? _]|(_ & st' & Hrun' & Hidle' & Hs' & Hrest')]; [done|].
  destruct stopped as [[]|e].
  2: { destruct Hrest as (_ & _ & ->). by destruct Hrest' as (_ & _ & ->). }
  clear Hrest Hrest'.
  destruct (read_outcomes (map (outcome_of w dest) urls)) as [rs|e|] eqn:Hread.
  - apply read_outcomes_complete in Hread as Hret.
    destruct (crawl_reports _ _ _ _ _ _ _ _ _ _ _ _ Hc Hl Hex Hret H1) as [E1 R1].
    destruct (crawl_reports _ _ _ _ _ _ _ _ _ _ _ _ Hc Hl Hex Hret H2) as [E2 R2].
    split; [congruence|]. rewrite Ht in R1. rewrite Ht' in R2.
    destruct R1 as [rep R1], R2 as [rep' R2]. rewrite R1, R2.
    destruct (crawl_ok_inv _ _ _ _ _ _ _ _ _ _ _ _ H1 R1)
      as (_ & _ & _ & s1 & _ & _ & _ & _ & Ho).
    destruct (crawl_ok_inv _ _ _ _ _ _ _ _ _ _ _ _ H2 R2)
      as (_ & _ & _ & s2 & _ & _ & _ & _ & Ho').
    rewrite Ho in R1. rewrite Ho' in R2.
    apply statistics_ok in R1 as (? & _ & _ & ->).
    apply statistics_ok in R2 as (? & _ & _ & ->). simpl.
    by rewrite E1, E2.
  - rewrite (crawl_raises _ _ _ _ _ _ _ _ _ _ _ _ Hc Hl Hex Hread H1).
    by rewrite (crawl_raises _ _ _ _ _ _ _ _ _ _ _ _ Hc Hl Hex Hread H2).
  - by apply read_outcomes_not_waiting in Hread.
Qed.

Lemma read_outcomes_first w dest before u after e :
  (forall v, v ∈ before -> exists o, outcome_of w dest v = Ok o) ->
  outcome_of w dest u = Raise e ->
  read_outcomes (map (outcome_of w dest) (before ++ u :: after)) = Failed e.
Proof.
  intros Hbefore Hu. induction before as [|v before IH]; simpl.
  - by rewrite Hu.
  - destruct (Hbefore v) as [o ->]; [left|].
    rewrite IH; [done|]. intros x Hx. apply Hbefore. by right.
Qed.

(** X8. A crawl in which a download raises, with a number of workers
    that the pool accepts and the machine can start, ends with the
    exception of the first link, in the order of the page, whose
    download raises, under every schedule: also when a later link has
    raised earlier in time. *)
Theorem crawl_first_exception
    w start stop evs fs url fts dest cpus before u after e obs :
  workable w cpus ->
  extract_all host_ok w url fts = (before ++ u :: after, Ok tt) ->
  (forall v, v ∈ before -> exists o, outcome_of w dest v = Ok o) ->
  outcome_of w dest u = Raise e ->
  crawl host_ok w start stop evs fs url fts dest cpus = Some obs ->
  obs = mkObs (before ++ u :: after) (Raise e).
Proof.
  intros Hc Hex Hbefore Hu Hcrawl.
  eapply crawl_raises; [exact (proj1 Hc)|by apply workable_launches|done| |done].
  by apply read_outcomes_first.
Qed.

Lemma step_cancelled_grows w dest workers n ev st st' :
  step w dest workers n ev st = Some st' -> cancelled st ⊆ cancelled st'.
Proof.
  intros HT%step_transition. destruct HT; simpl; try done.
  intros x Hx. apply elem_of_app. by left.
Qed.

Lemma run_cancelled_grows w dest workers n evs :
  forall st st',
    run w dest workers n evs st = Some st' -> cancelled st ⊆ cancelled st'.
Proof.
  induction evs as [|ev evs IH]; intros st st'; simpl.
  - by intros [= <-].
  - destruct (step w dest workers n ev st) as [st1|] eqn:E; [|done].
    intros Hrun. etrans; [by eapply step_cancelled_grows|by apply IH].
Qed.

(** X9. A link that the pool of a crawl has cancelled is never
    downloaded: however the schedule goes on, it stays cancelled and
    its future is never set. *)
Theorem cancelled_never_downloaded
    w dest workers urls fs evs evs' st st' i u :
  run w dest workers (length urls) evs (submit urls fs) = Some st ->
  (i, u) ∈ cancelled st ->
  run w dest workers (length urls) evs' st = Some st' ->
  (i, u) ∈ cancelled st' /\ futures st' !! i = None.
Proof.
  intros Hrun Hin Hrun'.
  pose proof (run_sound _ _ _ _ _ _ _ (submit_sound w dest urls fs) Hrun) as Hs.
  pose proof (run_sound _ _ _ _ _ _ _ Hs Hrun') as Hs'.
  apply (run_cancelled_grows _ _ _ _ _ _ _ Hrun') in Hin.
  split; [done|]. apply not_elem_of_dom.
  pose proof (sound_nodup _ _ _ _ Hs') as (_ & Hdisj & _)%NoDup_app.
  intros Hdom%elem_of_elements. apply (Hdisj i); [|done].
  unfold items. rewrite !fmap_app, !elem_of_app. do 3 right.
  apply list_elem_of_fmap. by exists (i, u).
Qed.

(** ** What the patterns capture *)

Lemma star_split k cont s h :
  forall off,
    star k cont s off = Some h ->
    exists u v, s = u ++ v /\ Forall (fun x => accepts k x = true) u
                /\ cont v (off + length u) = Some h.
Proof.
  induction s as [|x s IH]; intros off; simpl.
  - intros H. exists [], []. by rewrite Nat.add_0_r.
  - destruct (accepts k x) eqn:Hx.
    + destruct (star k cont s (S off)) as [h'|] eqn:Hs.
      * intros [= ->]. destruct (IH _ Hs) as (u & v & -> & Hu & Hc).
        exists (x :: u), v. split; [done|]. split; [by constructor|].
        simpl. by rewrite Nat.add_succ_r.
      * intros H. exists [], (x :: s). by rewrite Nat.add_0_r.
    + intros H. exists [], (x :: s). by rewrite Nat.add_0_r.
Qed.

Lemma match_star k r txt off gs ge h :
  match_here (Atom k Star :: r) txt off gs ge = Some h ->
  exists u v, txt = u ++ v /\ Forall (fun x => accepts k x = true) u
              /\ match_here r v (off + length u) gs ge = Some h.
Proof. simpl. apply star_split. Qed.

Lemma match_plus k r txt off gs ge h :
  match_here (Atom k Plus :: r) txt off gs ge = Some h ->
  exists u v, txt = u ++ v /\ u <> []
              /\ Forall (fun x => accepts k x = true) u
              /\ match_here r v (off + length u) gs ge = Some h.
Proof.
  simpl. destruct txt as [|x txt]; simpl; [done|].
  destruct (accepts k x) eqn:Hx; [|done].
  intros (u & v & -> & Hu & Hc)%star_split.
  exists (x :: u), v. split; [done|]. split; [done|].
  split; [by constructor|]. simpl. by rewrite Nat.add_succ_r.
Qed.

Lemma match_one k r txt off gs ge h :
  match_here (Atom k One :: r) txt off gs ge = Some h ->
  exists x v, txt = x :: v /\ accepts k x = true
              /\ match_here r v (S off) gs ge = Some h.
Proof.
  simpl. destruct txt as [|x txt]; simpl; [done|].
  destruct (accepts k x) eqn:Hx; [|done]. intros H. by exists x, txt.
Qed.

Lemma match_opt k r txt off gs ge h :
  match_here (Atom k Opt :: r) txt off gs ge = Some h ->
  exists u v, txt = u ++ v
              /\ match_here r v (off + length u) gs ge = Some h.
Proof.
  simpl. destruct (one k _ txt off) as [h'|] eqn:Ho.
  - intros [= ->]. destruct txt as [|x txt]; simpl in Ho; [done|].
    destruct (accepts k x); [|done]. exists [x], txt.
    split; [done|]. simpl. by rewrite Nat.add_1_r.
  - intros H. exists [], txt. by rewrite Nat.add_0_r.
Qed.

Lemma match_literal (l : str) r txt off gs ge h :
  match_here (map (fun c => Atom (Char c) One) l ++ r) txt off gs ge = Some h ->
  exists v, txt = l ++ v /\ match_here r v (off + length l) gs ge = Some h.
Proof.
  revert txt off. induction l as [|c l IH]; intros txt off.
  - intros H. exists txt. by rewrite Nat.add_0_r.
  - rewrite map_cons, <- app_comm_cons.
    intros (x & v & -> & Hx & Hm)%match_one.
    apply Ascii.eqb_eq in Hx as ->.
    destruct (IH _ _ Hm) as (v' & -> & Hm'). exists v'.
    split; [done|]. simpl. by rewrite Nat.add_succ_r.
Qed.

(** A match of [lead.*attr="?([^\" ]+.EXT)]: where its group lies and
    what it holds. *)
Lemma match_target lead attr ext txt off h :
  match_here (chars lead ++ [Atom Dot Star] ++ chars attr ++ quoted_target ext)
             txt off off off = Some h ->
  exists pre body c rest,
    txt = pre ++ (body ++ c :: lit ext) ++ rest
    /\ g_start h = off + length pre
    /\ g_end h = g_start h + length (body ++ c :: lit ext)
    /\ body <> []
    /\ Forall (fun x => x <> dquote /\ x <> " ") body
    /\ c <> LF.
Proof.
  unfold chars, quoted_target.
  intros (v1 & -> & H)%match_literal.
  simpl app in H.
  apply match_star in H as (u2 & v2 & -> & _ & H).
  apply match_literal in H as (v3 & -> & H).
  apply match_opt in H as (u4 & v4 & -> & H).
  cbn [match_here] in H.
  change (match_here (Atom (NotIn [dquote; " "]) Plus
                        :: Atom Dot One
                        :: map (fun c => Atom (Char c) One) (lit ext)
                        ++ [GroupClose]) v4
            (off + length (lit lead) + length u2 + length (lit attr)
             + length u4)
            (off + length (lit lead) + length u2 + length (lit attr)
             + length u4)
            off = Some h) in H.
  apply match_plus in H as (body & v5 & -> & Hne & Hbody & H).
  apply match_one in H as (c & v6 & -> & Hc & H).
  apply match_literal in H as (rest & -> & H).
  cbn [match_here] in H. injection H as <-. cbn [g_start g_end].
  exists (lit lead ++ u2 ++ lit attr ++ u4), body, c, rest.
  split; [by rewrite <- !app_assoc|].
  split; [rewrite !length_app; lia|].
  split; [rewrite !length_app; simpl; lia|].
  split; [done|]. split.
  - eapply Forall_impl; [exact Hbody|]. intros x Hx. simpl in Hx.
    unfold contains in Hx. apply negb_true_iff, bool_decide_eq_false_1 in Hx.
    rewrite !not_elem_of_cons in Hx. tauto.
  - intros ->. done.
Qed.

Lemma search_found r :
  forall s pos st h,
    search r s pos = Some (st, h) ->
    exists k, st = pos + k /\ match_here r (drop k s) st st st = Some h.
Proof.
  induction s as [|x s IH]; intros pos st h; simpl.
  - destruct (match_here r [] pos pos pos) eqn:E; [|done].
    intros [= <- <-]. exists 0. by rewrite Nat.add_0_r.
  - destruct (match_here r (x :: s) pos pos pos) eqn:E.
    + intros [= <- <-]. exists 0. by rewrite Nat.add_0_r.
    + intros (k & -> & Hk)%IH. exists (S k). split; [lia|].
      simpl. by replace (pos + S k) with (S pos + k) by lia.
Qed.

Lemma scan_found r text fuel :
  forall pos sp,
    sp ∈ scan fuel r text pos ->
    exists st h,
      match_here r (drop st text) st st st = Some h
      /\ group1 sp = take (g_end h - g_start h) (drop (g_start h) text).
Proof.
  induction fuel as [|fuel IH]; intros pos sp; simpl.
  - by intros ?%elem_of_nil.
  - destruct (length text <? pos)%nat; [by intros ?%elem_of_nil|].
    destruct (search r (drop pos text) pos) as [[st h]|] eqn:Hs;
      [|by intros ?%elem_of_nil].
    intros [->|Hin]%elem_of_cons; [|by eapply IH].
    apply search_found in Hs as (k & -> & Hk).
    rewrite drop_drop in Hk. by exists (pos + k), h.
Qed.

(** The patterns of the table all have one shape. *)
Lemma pattern_shape ft rs r :
  FILE_REGEX !! ft = Some rs -> r ∈ rs ->
  exists lead attr ext,
    ft = lit ext
    /\ r = chars lead ++ [Atom Dot Star] ++ chars attr ++ quoted_target ext.
Proof.
  intros Hft Hr.
  unfold FILE_REGEX in Hft. apply elem_of_list_to_map_2 in Hft.
  repeat (apply elem_of_cons in Hft as [[= -> ->]|Hft]);
    [..|by apply elem_of_nil in Hft];
    repeat (apply elem_of_cons in Hr as [->|Hr]);
    try (by apply elem_of_nil in Hr).
  - by exists "<img"%string, "src="%string, "jpg"%string.
  - by exists "<a"%string, "href="%string, "jpg"%string.
  - by exists "<audio"%string, "src="%string, "mp3"%string.
  - by exists "a"%string, "href="%string, "mp3"%string.
  - by exists "<a"%string, "href="%string, "pdf"%string.
  - by exists "<img"%string, "src="%string, "png"%string.
  - by exists "<a"%string, "href="%string, "png"%string.
Qed.

(** What [findall] returns for a pattern of that shape. *)
Lemma findall_target lead attr ext page m :
  m ∈ findall (chars lead ++ [Atom Dot Star] ++ chars attr ++ quoted_target ext)
              page ->
  exists body c,
    m = body ++ c :: lit ext
    /\ body <> []
    /\ Forall (fun x => x <> dquote /\ x <> " ") body
    /\ c <> LF.
Proof.
  unfold findall, finditer.
  intros (sp & -> & Hsp)%list_elem_of_fmap.
  apply scan_found in Hsp as (st & h & Hh & ->).
  apply match_target in Hh
    as (pre & body & c & rest & Htxt & Hgs & Hge & Hne & Hbody & Hc).
  exists body, c. split; [|done].
  rewrite Hge, Hgs.
  replace (st + length pre + length (body ++ c :: lit ext) - (st + length pre))
    with (length (body ++ c :: lit ext)) by lia.
  rewrite <- drop_drop, Htxt, drop_app_length. by rewrite take_app_length.
Qed.

(** X11. Every candidate that [findall] takes from a page with a
    pattern of a file type ends with the letters of the file type, has
    before them one character that is not a newline (the dot of the
    pattern stands for any character), and before that at least one
    character, none of them a double quote or a space. *)
Theorem findall_candidates ft rs r page m :
  FILE_REGEX !! ft = Some rs ->
  r ∈ rs ->
  m ∈ findall r page ->
  exists body c,
    m = body ++ c :: ft
    /\ body <> []
    /\ Forall (fun x => x <> dquote /\ x <> " ") body
    /\ c <> LF.
Proof.
  intros Hft Hr Hm.
  destruct (pattern_shape ft rs r Hft Hr) as (lead & attr & ext & -> & ->).
  by apply (findall_target lead attr ext page).
Qed.

(** ** The disk after a crawl *)

(** The disk that a crawl which prints its report leaves. *)
Lemma crawl_disk w start stop evs fs url fts dest cpus obs rep :
  crawl host_ok w start stop evs fs url fts dest cpus = Some obs ->
  returned obs = Ok rep ->
  exists st,
    run w dest (Z.to_nat cpus) (length (submitted obs)) evs
        (submit (submitted obs) fs) = Some st
    /\ returned obs
       = statistics start stop (files st)
           (successes w dest (submitted obs)).*1
    /\ (forall p, p ∈ (successes w dest (submitted obs)).*1 ->
          p ∈ dom (files st))
    /\ (forall q, q ∉ (successes w dest (submitted obs)).*1 ->
          files st !! q = fs !! q)
    /\ (forall p d, (p, d) ∈ successes w dest (submitted obs) ->
          exists c d', files st !! p = Some c
                       /\ (p, d') ∈ successes w dest (submitted obs)
                       /\ length c = length d')
    /\ (forall p d, (p, d) ∈ successes w dest (submitted obs) ->
          (forall d', (p, d') ∈ successes w dest (submitted obs) -> d' = d) ->
          files st !! p = Some d).
Proof.
  intros Hcrawl Hrep.
  destruct (crawl_ok_inv _ _ _ _ _ _ _ _ _ _ _ _ Hcrawl Hrep)
    as (Hc & Hex & Hret & st & Hrun & Hidle & Hs & Hcanc & Hobs).
  set (urls := submitted obs) in *. exists st. split; [done|].
  split; [done|].
  assert (Hsize : forall p d, (p, d) ∈ successes w dest urls ->
            exists c d', files st !! p = Some c
                         /\ (p, d') ∈ successes w dest urls
                         /\ length c = length d').
  { intros p d (u & Hu & Hd)%elem_of_successes.
    apply list_elem_of_lookup in Hu as [i Hi].
    pose proof (run_sized w dest _ Hret _ _ _ _ (submit_sound _ _ _ _)
                  (submit_sized _ _ _ _) Hrun) as Hsized.
    pose proof (idle_future _ _ _ _ _ _ Hs Hidle Hcanc Hi) as Hfut.
    rewrite (downloaded_outcome _ _ _ _ _ Hd) in Hfut.
    destruct (idle_sized w dest _ Hret _ _ _ _ _ Hs Hsized Hidle Hi Hd Hfut)
      as (c & v & e & Hc' & Hv & Hdv & Hlen).
    exists c, e. split; [done|]. split; [|done].
    apply elem_of_successes. by exists v. }
  split; [|split; [|split; [done|]]].
  - intros p ((q & d) & -> & Hpd)%list_elem_of_fmap. simpl.
    by eapply idle_files.
  - intros q Hq. change (fs !! q) with (files (submit urls fs) !! q).
    apply (run_frame w dest (Z.to_nat cpus) urls evs q);
      [|apply submit_sound|done].
    intros u d Hu Ho. apply Hq.
    destruct (opened_returns w dest urls Hret _ _ _ Hu Ho) as (_ & _ & Hd).
    apply list_elem_of_fmap. exists (q, d). split; [done|].
    apply elem_of_successes. by exists u.
  - intros p d Hpd Hsame.
    destruct (Hsize p d Hpd) as (c & d' & Hc' & Hd' & Hlen).
    rewrite (Hsame d' Hd') in Hlen. clear d' Hd'.
    apply elem_of_successes in Hpd as (u & Hu & Hd).
    apply list_elem_of_lookup in Hu as [i Hi].
    set (P := fun (q : str) (k : nat) (a : ascii) => q = p -> d !! k = Some a).
    assert (HP : forall v q e k a, v ∈ urls -> opened w dest v = Some (q, e) ->
                   e !! k = Some a -> P q k a).
    { intros v q e k a Hv Ho Hk ->.
      destruct (opened_returns w dest urls Hret _ _ _ Hv Ho) as (_ & _ & Hdv).
      rewrite <- (Hsame e); [done|]. apply elem_of_successes. by exists v. }
    pose proof (run_settled P w dest _ Hret HP _ _ _ _ (submit_sound _ _ _ _)
                  (submit_settled _ _ _ _ _) Hrun) as Hsettled.
    pose proof (idle_future _ _ _ _ _ _ Hs Hidle Hcanc Hi) as Hfut.
    rewrite (downloaded_outcome _ _ _ _ _ Hd) in Hfut.
    destruct (idle_settled P w dest _ Hret _ _ _ _ _ Hs Hsettled Hidle Hi Hd Hfut)
      as (c' & v & e & Hc'' & Hv & Hdv & Hle & Hbytes).
    assert (c' = c) as -> by congruence.
    assert (e = d) as ->.
    { apply Hsame. apply elem_of_successes. by exists v. }
    rewrite Hc'. f_equal. apply list_eq. intros k.
    destruct (c !! k) as [a|] eqn:Hk.
    + symmetry. apply (Hbytes k a Hk); [|done].
      apply lookup_lt_Some in Hk. lia.
    + symmetry. apply lookup_ge_None. apply lookup_ge_None in Hk. lia.
Qed.

Lemma crawl_disk_dom (fs fs' : disk) (paths : list str) :
  (forall p, p ∈ paths -> p ∈ dom fs') ->
  (forall q, q ∉ paths -> fs' !! q = fs !! q) ->
  dom fs' = dom fs ∪ list_to_set paths.
Proof.
  intros Hheld Hother. apply set_eq. intros q.
  rewrite elem_of_union, elem_of_list_to_set.
  destruct (decide (q ∈ paths)) as [Hin|Hout].
  - split; [by right|]. intros _. by apply Hheld.
  - rewrite !elem_of_dom, (Hother q Hout). tauto.
Qed.

(** X12. After a crawl that prints its report, the files of the disk
    are those it had before together with the local paths of the
    downloads that succeeded.  Each of these paths holds a file as
    long as the body of one of the successful downloads to it, and
    holds that body when the successful downloads to the path all
    carry the same body; when they do not, the workers' writes
    interleave and the file can mix their bytes.  Every other path
    holds what it held before. *)
Theorem crawl_leaves_files w start stop evs fs url fts dest cpus obs rep :
  crawl host_ok w start stop evs fs url fts dest cpus = Some obs ->
  returned obs = Ok rep ->
  exists st,
    run w dest (Z.to_nat cpus) (length (submitted obs)) evs
        (submit (submitted obs) fs) = Some st
    /\ dom (files st)
       = dom fs ∪ list_to_set (successes w dest (submitted obs)).*1
    /\ (forall p d, (p, d) ∈ successes w dest (submitted obs) ->
          exists c d', files st !! p = Some c
                       /\ (p, d') ∈ successes w dest (submitted obs)
                       /\ length c = length d')
    /\ (forall p d, (p, d) ∈ successes w dest (submitted obs) ->
          (forall d', (p, d') ∈ successes w dest (submitted obs) -> d' = d) ->
          files st !! p = Some d)
    /\ (forall q, q ∉ (successes w dest (submitted obs)).*1 ->
          files st !! q = fs !! q).
Proof.
  intros Hcrawl Hrep.
  destruct (crawl_disk _ _ _ _ _ _ _ _ _ _ _ Hcrawl Hrep)
    as (st & Hrun & _ & Hheld & Hother & Hsize & Hbody).
  exists st. split; [done|]. split; [by apply crawl_disk_dom|done].
Qed.

Lemma size_list_to_set_le (l : list str) :
  size (list_to_set l : gset str) <= length l.
Proof.
  induction l as [|x l IH].
  { rewrite list_to_set_nil, size_empty. simpl. lia. }
  rewrite list_to_set_cons, size_union_alt, size_singleton. simpl.
  pose proof (subseteq_size (list_to_set l ∖ {[x]}) (list_to_set l : gset str)
                ltac:(apply subseteq_difference_l; reflexivity)).
  lia.
Qed.

(** X13. The number of files a crawl reports is the number of links
    whose download succeeded: the files that the crawl has added to
    the disk are at most that many, and fewer when links share a local
    path or a file was there before. *)
Theorem crawl_counts_links w start stop evs fs url fts dest cpus obs rep :
  crawl host_ok w start stop evs fs url fts dest cpus = Some obs ->
  returned obs = Ok rep ->
  exists st,
    run w dest (Z.to_nat cpus) (length (submitted obs)) evs
        (submit (submitted obs) fs) = Some st
    /\ files_downloaded rep = length (successes w dest (submitted obs))
    /\ size (dom (files st) ∖ dom fs) <= files_downloaded rep.
Proof.
  intros Hcrawl Hrep.
  destruct (crawl_disk _ _ _ _ _ _ _ _ _ _ _ Hcrawl Hrep)
    as (st & Hrun & Hret & Hheld & Hother & _).
  exists st. split; [done|].
  rewrite Hret in Hrep. apply statistics_ok in Hrep as (total & _ & _ & ->).
  simpl. rewrite length_fmap. split; [done|].
  rewrite (crawl_disk_dom fs _ _ Hheld Hother).
  rewrite <- (length_fmap fst (successes w dest (submitted obs))).
  etrans; [|apply size_list_to_set_le].
  apply subseteq_size. intros q. rewrite elem_of_difference, elem_of_union.
  tauto.
Qed.

(** X14. When the downloads that write to one local path all carry the
    same body, two crawls that print their reports, under any two
    schedules of the pool and whatever the clock shows, report the
    same number of files and the same bytes and leave the same
    disk. *)
Theorem crawl_confluent
    w start stop start' stop' evs evs' fs url fts dest cpus obs obs' rep rep' :
  crawl host_ok w start stop evs fs url fts dest cpus = Some obs ->
  crawl host_ok w start' stop' evs' fs url fts dest cpus = Some obs' ->
  returned obs = Ok rep ->
  returned obs' = Ok rep' ->
  (forall p d d',
      (p, d) ∈ successes w dest (submitted obs) ->
      (p, d') ∈ successes w dest (submitted obs) -> d = d') ->
  submitted obs' = submitted obs
  /\ files_downloaded rep' = files_downloaded rep
  /\ bytes_downloaded rep' = bytes_downloaded rep
  /\ Mbytes_downloaded rep' = Mbytes_downloaded rep
  /\ exists st st',
      run w dest (Z.to_nat cpus) (length (submitted obs)) evs
          (submit (submitted obs) fs) = Some st
      /\ run w dest (Z.to_nat cpus) (length (submitted obs)) evs'
             (submit (submitted obs) fs) = Some st'
      /\ files st' = files st.
Proof.
  intros H1 H2 Hrep Hrep' Hsame.
  destruct (crawl_ok_inv _ _ _ _ _ _ _ _ _ _ _ _ H1 Hrep) as (_ & Hex & _).
  destruct (crawl_ok_inv _ _ _ _ _ _ _ _ _ _ _ _ H2 Hrep') as (_ & Hex' & _).
  assert (Hsub : submitted obs' = submitted obs) by congruence.
  destruct (crawl_disk _ _ _ _ _ _ _ _ _ _ _ H1 Hrep)
    as (st & Hrun & Ho & Hheld & Hother & _ & Hbody).
  destruct (crawl_disk _ _ _ _ _ _ _ _ _ _ _ H2 Hrep')
    as (st' & Hrun' & Ho' & Hheld' & Hother' & _ & Hbody').
  rewrite Hsub in *.
  assert (Hfiles : files st' = files st).
  { apply map_eq. intros q.
    destruct (decide (q ∈ (successes w dest (submitted obs)).*1)) as [Hin|Hout].
    - apply list_elem_of_fmap in Hin as ((p & d) & -> & Hpd). simpl.
      rewrite (Hbody p d Hpd), (Hbody' p d Hpd); [done|..];
        intros d' Hd'; by apply (Hsame p).
    - by rewrite Hother, Hother'. }
  split; [done|].
  rewrite Ho in Hrep. rewrite Ho', Hfiles in Hrep'.
  apply statistics_ok in Hrep as (total & Htotal & _ & ->).
  apply statistics_ok in Hrep' as (total' & Htotal' & _ & ->). simpl.
  assert (total' = total) as -> by congruence.
  split; [done|]. split; [done|]. split; [done|]. by exists st, st'.
Qed.

(** ** The command line *)

Lemma int_raises s e : PyInt.int s = Raise e -> e = ValueError.
Proof.
  unfold PyInt.int.
  repeat (match goal with
          | |- context [match ?x with _ => _ end] => destruct x
          end; try done); by intros [= <-].
Qed.

(** The loop of [main] goes on after a prefix of the arguments it has
    scanned to their end. *)
Lemma options_app pre rest :
  forall s0 s,
    options pre s0 = Settings s ->
    options (pre ++ rest) s0 = options rest s.
Proof.
  induction pre as [pre IH] using (induction_ltof1 _ (@length str)).
  unfold ltof in IH. intros s0 s.
  destruct pre as [|a pre]; [by intros [= <-]|].
  cbn [options app].
  destruct (str_eqb a (lit "-d")).
  { destruct pre as [|v pre]; [done|]. apply IH. simpl. lia. }
  destruct (str_eqb a (lit "-n")).
  { destruct pre as [|v pre]; [done|]. cbn [app].
    destruct (PyInt.int v); [|done]. apply IH. simpl. lia. }
  destruct (str_eqb a (lit "-f")).
  { destruct pre as [|v pre]; [done|]. apply IH. simpl. lia. }
  destruct (str_eqb a (lit "-h")); [done|].
  destruct (starts_with_char "-" a); [done|].
  apply IH. simpl. lia.
Qed.

Lemma split_absent c a : c ∉ a -> split c a = [a].
Proof.
  induction a as [|x a IH]; [done|].
  intros [Hx Ha]%not_elem_of_cons. simpl.
  destruct (Ascii.eqb_spec x c); [congruence|]. by rewrite IH.
Qed.

Lemma split_app_sep c a b : c ∉ a -> split c (a ++ c :: b) = a :: split c b.
Proof.
  induction a as [|x a IH]; simpl.
  - intros _. by rewrite Ascii.eqb_refl.
  - intros [Hx Ha]%not_elem_of_cons.
    destruct (Ascii.eqb_spec x c); [congruence|]. by rewrite IH.
Qed.

Lemma split_join c ts :
  ts <> [] -> Forall (fun t => c ∉ t) ts -> split c (join c ts) = ts.
Proof.
  induction ts as [|a ts IH]; [done|]. intros _ [Ha Hts]%Forall_cons.
  destruct ts as [|b ts]; [by apply split_absent|].
  change (join c (a :: b :: ts)) with (a ++ c :: join c (b :: ts)).
  rewrite split_app_sep by done. by rewrite IH.
Qed.

Lemma contains_join c ts :
  Forall (fun t => c ∉ t) ts ->
  contains c (join c ts) = bool_decide (2 <= length ts).
Proof.
  intros Hts. destruct ts as [|a [|b ts]].
  - by apply bool_decide_eq_false_2, not_elem_of_nil.
  - apply Forall_cons in Hts as [Ha _]. simpl.
    by apply bool_decide_eq_false_2.
  - change (join c (a :: b :: ts)) with (a ++ c :: join c (b :: ts)).
    rewrite bool_decide_eq_true_2 by (simpl; lia).
    apply bool_decide_eq_true_2. rewrite elem_of_app, elem_of_cons. tauto.
Qed.

(** One [-f] for each of [ts]. *)
Lemma options_each ts rest :
  Forall (fun t => "," ∉ t) ts ->
  forall s,
    options (flat_map (fun t => [lit "-f"; t]) ts ++ rest) s
    = options rest
        (mkSettings (opt_destination s) (opt_cpus s)
                    (opt_file_types s ++ ts) (opt_url s)).
Proof.
  induction 1 as [|t ts Ht Hts IH]; intros s.
  - simpl. rewrite app_nil_r. by destruct s.
  - cbn [flat_map app options].
    change (str_eqb (lit "-f") (lit "-d")) with false.
    change (str_eqb (lit "-f") (lit "-n")) with false.
    change (str_eqb (lit "-f") (lit "-f")) with true. cbv iota.
    unfold contains at 1. rewrite bool_decide_eq_false_2 by done.
    rewrite IH. simpl. by rewrite <- app_assoc.
Qed.

(** X15. [-f a,b,...] does what [-f a -f b ...] does, wherever it
    stands among the arguments, as the usage message says. *)
Theorem main_comma_file_types m w start stop evs fs pre ts rest s :
  options pre (mkSettings DESTINATION CPUS [] []) = Settings s ->
  ts <> [] ->
  Forall (fun t => "," ∉ t) ts ->
  main host_ok m w start stop evs fs (pre ++ lit "-f" :: join "," ts :: rest)
  = main host_ok m w start stop evs fs
      (pre ++ flat_map (fun t => [lit "-f"; t]) ts ++ rest).
Proof.
  intros Hpre Hne Hts. unfold main.
  rewrite !(options_app pre _ _ _ Hpre), (options_each ts rest Hts).
  cbn [options].
  change (str_eqb (lit "-f") (lit "-d")) with false.
  change (str_eqb (lit "-f") (lit "-n")) with false.
  change (str_eqb (lit "-f") (lit "-f")) with true. cbv iota.
  rewrite (contains_join "," ts Hts).
  case_bool_decide as Hlen.
  - by rewrite split_join.
  - destruct ts as [|t [|]]; [done|done|simpl in Hlen; lia].
Qed.

(** X16. An argument read as an option that starts with a dash and is
    none of [-d], [-n] and [-f] ends the program through [usage]: with
    status 0 when it is [-h] and 1 otherwise, whatever follows, and
    before anything is crawled. *)
Theorem main_usage_exits m w start stop evs fs pre arg rest s :
  options pre (mkSettings DESTINATION CPUS [] []) = Settings s ->
  starts_with_char "-" arg = true ->
  arg ∉ [lit "-d"; lit "-n"; lit "-f"] ->
  main host_ok m w start stop evs fs (pre ++ arg :: rest)
  = Some (Exception (SystemExit (if str_eqb arg (lit "-h") then 0 else 1))).
Proof.
  intros Hpre Hdash Harg. unfold main.
  rewrite (options_app pre _ _ _ Hpre). cbn [options].
  rewrite !not_elem_of_cons in Harg. destruct Harg as (Hd & Hn & Hf & _).
  unfold str_eqb at 1 2 3. rewrite !bool_decide_eq_false_2 by done.
  destruct (str_eqb arg (lit "-h")); [done|]. by rewrite Hdash.
Qed.

(** X17. [-d], [-n] or [-f] as the last argument, with no value after
    it, ends the program with the [IndexError] of the [pop]. *)
Theorem main_missing_value m w start stop evs fs pre flag s :
  options pre (mkSettings DESTINATION CPUS [] []) = Settings s ->
  flag ∈ [lit "-d"; lit "-n"; lit "-f"] ->
  main host_ok m w start stop evs fs (pre ++ [flag]) = Some IndexError.
Proof.
  intros Hpre Hflag. unfold main.
  rewrite (options_app pre _ _ _ Hpre).
  repeat (apply elem_of_cons in Hflag as [->|Hflag]); [done..|].
  by apply elem_of_nil in Hflag.
Qed.

(** X18. A value of [-n] that [int] does not accept ends the program
    with [ValueError], whatever follows and before anything is
    crawled. *)
Theorem main_cpus_not_a_number m w start stop evs fs pre number rest s e :
  options pre (mkSettings DESTINATION CPUS [] []) = Settings s ->
  PyInt.int number = Raise e ->
  main host_ok m w start stop evs fs (pre ++ lit "-n" :: number :: rest)
  = Some (Exception ValueError).
Proof.
  intros Hpre Hint. unfold main.
  rewrite (options_app pre _ _ _ Hpre). cbn [options].
  change (str_eqb (lit "-n") (lit "-d")) with false.
  change (str_eqb (lit "-n") (lit "-n")) with true. cbv iota.
  rewrite Hint. by rewrite (int_raises _ _ Hint).
Qed.

(** The URL that the loop of [main] leaves is the one it started with
    or an argument that does not start with a dash. *)
Lemma options_url args :
  forall s0 s,
    options args s0 = Settings s ->
    opt_url s = opt_url s0
    \/ (opt_url s ∈ args /\ starts_with_char "-" (opt_url s) = false).
Proof.
  induction args as [args IH] using (induction_ltof1 _ (@length str)).
  unfold ltof in IH. intros s0 s.
  destruct args as [|a args]; [intros [= <-]; by left|].
  cbn [options].
  assert (Hlater : forall v rest s1,
             args = v :: rest ->
             options rest s1 = Settings s -> opt_url s1 = opt_url s0 ->
             opt_url s = opt_url s0
             \/ (opt_url s ∈ a :: args /\ starts_with_char "-" (opt_url s) = false)).
  { intros v rest s1 -> Hrest Hs1.
    destruct (IH rest ltac:(simpl; lia) s1 s Hrest) as [->|[Hin Hd]];
      [by left|right]. split; [|done]. by do 2 right. }
  destruct (str_eqb a (lit "-d")).
  { destruct args as [|v rest]; [done|]. intros H. by eapply Hlater. }
  destruct (str_eqb a (lit "-n")).
  { destruct args as [|v rest]; [done|].
    destruct (PyInt.int v); [|done]. intros H. by eapply Hlater. }
  destruct (str_eqb a (lit "-f")).
  { destruct args as [|v rest]; [done|]. intros H. by eapply Hlater. }
  destruct (str_eqb a (lit "-h")); [done|].
  destruct (starts_with_char "-" a) eqn:Ha; [done|].
  intros H. right.
  destruct (IH args ltac:(simpl; lia) _ s H) as [->|[Hin Hd]]; simpl.
  - split; [by left|done].
  - split; [by right|done].
Qed.

(** X19. Without an argument that is not empty and does not start
    with a dash there is no URL: the program ends through [usage(1)] or
    [usage(0)], with [ValueError] or with [IndexError], and nothing is
    crawled. *)
Theorem main_without_url m w start stop evs fs args :
  Forall (fun a => a = [] \/ starts_with_char "-" a = true) args ->
  exists e,
    main host_ok m w start stop evs fs args = Some e
    /\ (e = Exception (SystemExit 0) \/ e = Exception (SystemExit 1)
        \/ e = Exception ValueError \/ e = IndexError).
Proof.
  intros Hargs. unfold main.
  destruct (options args (mkSettings DESTINATION CPUS [] [])) as [s|e] eqn:Ho.
  - destruct (options_url _ _ _ Ho) as [Hu|[Hin Hd]].
    + rewrite Hu. simpl. eexists. split; [done|]. unfold usage. tauto.
    + rewrite Forall_forall in Hargs.
      destruct (Hargs _ Hin) as [Hu|Hu]; [|congruence].
      rewrite Hu. simpl. eexists. split; [done|]. unfold usage. tauto.
  - exists e. split; [done|]. clear Hargs. revert Ho.
    generalize (mkSettings DESTINATION CPUS [] []).
    induction args as [args IH] using (induction_ltof1 _ (@length str)).
    unfold ltof in IH. intros s0.
    destruct args as [|a args]; [done|]. cbn [options].
    destruct (str_eqb a (lit "-d")).
    { destruct args as [|v rest]; [intros [= <-]; tauto|].
      apply IH. simpl. lia. }
    destruct (str_eqb a (lit "-n")).
    { destruct args as [|v rest]; [intros [= <-]; tauto|].
      destruct (PyInt.int v) eqn:Hv; [apply IH; simpl; lia|].
      apply int_raises in Hv as ->. intros [= <-]. tauto. }
    destruct (str_eqb a (lit "-f")).
    { destruct args as [|v rest]; [intros [= <-]; tauto|].
      apply IH. simpl. lia. }
    destruct (str_eqb a (lit "-h")); [intros [= <-]; unfold usage; tauto|].
    destruct (starts_with_char "-" a); [intros [= <-]; unfold usage; tauto|].
    apply IH. simpl. lia.
Qed.

(** ** Pages without square brackets *)

Lemma findall_chars r page m c : m ∈ findall r page -> c ∈ m -> c ∈ page.
Proof.
  unfold findall, finditer.
  intros (sp & -> & Hsp)%list_elem_of_fmap.
  apply scan_found in Hsp as (st & h & _ & ->).
  intros Hc%subseteq_take. revert Hc. apply subseteq_drop.
Qed.

Lemma all_matches_findall page fts m :
  m ∈ all_matches page fts -> exists r, m ∈ findall r page.
Proof.
  unfold all_matches. rewrite list_elem_of_In, in_concat.
  intros (ms & (ft & <- & _)%in_map_iff & Hm).
  apply in_concat in Hm as (ms' & (r & <- & _)%in_map_iff & Hm).
  exists r. by apply list_elem_of_In.
Qed.

(** When [urljoin] raises, for the loops of the generator. *)
Lemma urljoin_raises base url e :
  Url.urljoin host_ok base url = Raise e ->
  e = ValueError /\ ("[" ∈ base ++ url \/ "]" ∈ base ++ url).
Proof.
  unfold Url.urljoin.
  destruct (negb (truthy base)); [done|].
  destruct (negb (truthy url)); [done|].
  rewrite !elem_of_app.
  destruct (Url.urlparse host_ok base []) as [b|e'] eqn:Eb; simpl.
  - destruct (Url.urlparse host_ok url (Url.scheme b)) as [u|e'] eqn:Eu; simpl.
    + repeat (match goal with |- context [if ?c then _ else _] =>
                destruct c end; try done).
    + intros [= <-]. apply urlparse_raises in Eu. tauto.
  - intros [= <-]. apply urlparse_raises in Eb. tauto.
Qed.

Lemma resolve_each_defined url ms :
  "[" ∉ url -> "]" ∉ url ->
  Forall (fun m => ("[" ∉ m) /\ ("]" ∉ m)) ms ->
  exists l, resolve_each host_ok url ms = Ok l.
Proof.
  intros Ho Hc. induction 1 as [|m ms [Hmo Hmc] _ [l IH]]; simpl; [by eexists|].
  destruct (resolve_url host_ok url m) as [u|e] eqn:E; simpl.
  - rewrite IH. simpl. by eexists.
  - apply urljoin_raises in E as [_ E]. rewrite !elem_of_app in E. tauto.
Qed.

(** X20. When the URL of the page and its text are of ASCII characters
    and neither contains a square bracket, and the file types are in
    the table, every match resolves: the generator yields one link for
    each match and stops without an exception. *)
Theorem extract_urls_without_brackets w url fts response :
  get w url = Ok response ->
  ok response = true ->
  Forall (fun ft => is_Some (FILE_REGEX !! ft)) fts ->
  isascii (url ++ text response) ->
  Forall (fun c => c <> "[" /\ c <> "]") (url ++ text response) ->
  exists links,
    iterates host_ok w (extract_urls url fts) links (Ok tt)
    /\ resolve_each host_ok url (all_matches (text response) fts) = Ok links.
Proof.
  intros Hget Hok Hknown _ Hfree.
  rewrite Forall_forall in Hfree.
  assert (Hin : forall c (s : str),
             c ∈ s -> (forall x, x ∈ s -> x ∈ url ++ text response) ->
             c <> "[" /\ c <> "]").
  { intros c s Hc Hs. apply Hfree, Hs, Hc. }
  destruct (resolve_each_defined url (all_matches (text response) fts))
    as [links Hlinks].
  - intros H. destruct (Hin _ _ H); [|done].
    intros x Hx. apply elem_of_app. by left.
  - intros H. destruct (Hin _ _ H); [|done].
    intros x Hx. apply elem_of_app. by left.
  - apply Forall_forall. intros m [r Hm]%all_matches_findall.
    split; intros H; destruct (Hin _ _ H); try done;
      intros x Hx; apply elem_of_app; right; by eapply findall_chars.
  - exists links. split; [|done].
    pose proof (iterates_extract_all host_ok w url fts) as Hit.
    unfold extract_all in Hit. rewrite Hget, Hok in Hit. simpl in Hit.
    by rewrite (run_filetypes_ok host_ok _ _ _ _ Hknown Hlinks) in Hit.
Qed.

(** ** When a download raises *)

(** X21. A download raises in four cases only: the fetch raised
    something other than a [RequestException], which is passed on; the
    local path contains a null character ([ValueError]); the local path
    is empty or cannot be opened for writing ([OSError]); or the file
    was opened and its bytes could not all be written ([OSError]).  In
    the first three cases the disk is left as it was; in the last the
    file is left with the bytes that were written before the
    failure. *)
Theorem download_url_raises w url dest fs e :
  (download_url w url dest fs).1 = Raise e ->
  (get w url = Raise e /\ e <> RequestException
   /\ (download_url w url dest fs).2 = fs)
  \/ exists r,
      get w url = Ok r /\ raise_for_status r = Ok tt
      /\ ((e = ValueError
           /\ (NUL ∈ OsPath.join dest (OsPath.basename url))
           /\ (download_url w url dest fs).2 = fs)
          \/ (e = OSError
              /\ (NUL ∉ OsPath.join dest (OsPath.basename url))
              /\ (OsPath.join dest (OsPath.basename url) = []
                  \/ can_open w (OsPath.join dest (OsPath.basename url))
                     = false)
              /\ (download_url w url dest fs).2 = fs)
          \/ (e = OSError
              /\ (NUL ∉ OsPath.join dest (OsPath.basename url))
              /\ OsPath.join dest (OsPath.basename url) <> []
              /\ can_open w (OsPath.join dest (OsPath.basename url)) = true
              /\ exists m,
                  write_limit w (OsPath.join dest (OsPath.basename url))
                              (content r) = Some m
                  /\ (download_url w url dest fs).2
                     = <[OsPath.join dest (OsPath.basename url) :=
                           take (Nat.min m (length (content r))) (content r)]>
                         fs)).
Proof.
  unfold download_url, fetch.
  destruct (get w url) as [r|e'] eqn:Hget; simpl.
  - destruct (raise_for_status r) as [[]|e0] eqn:Hst; simpl.
    2: { unfold raise_for_status in Hst. destruct (_ && _); [|done].
         by injection Hst as <-. }
    unfold open_wb, contains. case_bool_decide as Hnul.
    { intros [= <-]. right. exists r.
      split; [done|]. split; [done|]. by left. }
    destruct (OsPath.join dest (OsPath.basename url)) as [|c p] eqn:Hp; simpl.
    { intros [= <-]. right. exists r.
      split; [done|]. split; [done|]. right; left. auto. }
    destruct (can_open w (c :: p)) eqn:Hopen; simpl.
    2: { intros [= <-]. right. exists r.
         split; [done|]. split; [done|]. right; left. auto. }
    unfold write, extent.
    destruct (write_limit w (c :: p) (content r)) as [m|] eqn:Hm; simpl; [|done].
    intros [= <-]. right. exists r. split; [done|]. split; [done|].
    right; right. split; [done|]. split; [done|]. split; [done|].
    split; [done|]. exists m. split; [done|]. by rewrite insert_insert_eq.
  - destruct e'; try done; simpl; intros [= <-]; left; done.
Qed.

(** X22. A download returns [None] exactly when the fetch fails, by an
    exception of [requests] or by a client or server error status:
    never because of the local file. *)
Theorem download_url_none w url dest fs :
  (download_url w url dest fs).1 = Ok None <-> fetch_fails w url.
Proof.
  split.
  - rewrite fetch_fails_fetch. unfold download_url.
    destruct (fetch w url) as [r|e] eqn:Hf.
    + destruct (open_wb w _ fs); [|done].
      by destruct (write w _ _ _) as [[[]|x] fs'].
    + by destruct e.
  - intros Hfail. by rewrite (fetch_fails_outcome w dest url Hfail fs).
Qed.

(** ** The usage line *)

Lemma digits_numeral d :
  forall acc cnt,
    PyInt.digits (Z.of_nat acc) cnt (lit (NilEmpty.string_of_uint d))
    = Some (Z.of_nat (Nat.of_uint_acc d acc), cnt + nb_digits d).
Proof.
  induction d as [|d IH|d IH|d IH|d IH|d IH|d IH|d IH|d IH|d IH|d IH];
    intros acc cnt;
    cbn [NilEmpty.string_of_uint lit list_ascii_of_string PyInt.digits
         nb_digits Nat.of_uint_acc];
    [by rewrite Nat.add_0_r|..];
    match goal with
    | |- context [is_digit ?c] => change (is_digit c) with true
    end; cbv iota;
    rewrite Nat.add_succ_r, <- Nat.add_succ_l, <- IH; f_equal;
    rewrite Nat.tail_mul_spec; unfold PyInt.digit_value;
    match goal with
    | |- context [nat_of_ascii ?c] =>
        let n := eval vm_compute in (nat_of_ascii c) in
        change (nat_of_ascii c) with n
    end; lia.
Qed.

Lemma numeral_digits d :
  Forall (fun c => is_digit c = true) (lit (NilEmpty.string_of_uint d)).
Proof. induction d; simpl; by constructor. Qed.

Lemma digit_not_space c : is_digit c = true -> PyInt.is_space c = false.
Proof. by destruct c as [[] [] [] [] [] [] [] []]. Qed.

Lemma strip_clean p (s : str) : Forall (fun c => p c = false) s -> strip p s = s.
Proof.
  intros Hs. unfold strip, rstrip.
  assert (Hl : forall t : str, Forall (fun c => p c = false) t -> lstrip p t = t).
  { intros [|c t]; [done|]. intros [Hc _]%Forall_cons. simpl. by rewrite Hc. }
  rewrite (Hl s Hs), Hl; [apply rev_involutive|].
  apply Forall_forall. intros c Hc%list_elem_of_In%in_rev%list_elem_of_In.
  rewrite Forall_forall in Hs. by apply Hs.
Qed.

(** [int] reads a decimal numeral as the number it writes. *)
Lemma int_numeral d :
  d <> Nil -> nb_digits d <= PyInt.max_str_digits ->
  PyInt.int (lit (NilEmpty.string_of_uint d)) = Ok (Z.of_nat (Nat.of_uint d)).
Proof.
  intros Hd Hlen. unfold PyInt.int.
  rewrite strip_clean.
  2: { eapply Forall_impl; [apply numeral_digits|].
       intros c Hc. by apply digit_not_space. }
  unfold Nat.of_uint.
  destruct d; [done|..];
    cbn [NilEmpty.string_of_uint lit list_ascii_of_string nb_digits
         Nat.of_uint_acc] in *;
    match goal with
    | |- context [is_digit ?c] => change (is_digit c) with true
    end; cbv iota;
    match goal with
    | |- context [PyInt.digits (PyInt.digit_value ?c) 1 ?t] =>
        let n := eval vm_compute in (Z.to_nat (PyInt.digit_value c)) in
        change (PyInt.digit_value c) with (Z.of_nat n)
    end;
    rewrite digits_numeral;
    (destruct (Nat.ltb_spec PyInt.max_str_digits (1 + nb_digits d)); [lia|]);
    done.
Qed.

(** X23. The command line of the usage message,
    [-d DESTINATION -n CPUS -f FILETYPES URL] with a decimal numeral
    for CPUS and the file types separated by commas, makes [main]
    call [crawl] with that URL, these file types, that destination and
    that number of workers, once the destination exists. *)
Theorem main_usage_line m w start stop evs fs destination cpus ts url :
  cpus <> Nil ->
  nb_digits cpus <= PyInt.max_str_digits ->
  ts <> [] ->
  Forall (fun t => "," ∉ t) ts ->
  truthy url = true ->
  starts_with_char "-" url = false ->
  path_exists m destination = true \/ makedirs m destination = Ok tt ->
  main host_ok m w start stop evs fs
    [lit "-d"; destination; lit "-n"; lit (NilEmpty.string_of_uint cpus);
     lit "-f"; join "," ts; url]
  = Crawled <$> crawl host_ok w start stop evs fs url ts destination
                  (Z.of_nat (Nat.of_uint cpus)).
Proof.
  intros Hd Hlen Hne Hts Hurl Hdash Hdir. unfold main. cbn [options].
  change (str_eqb (lit "-d") (lit "-d")) with true.
  change (str_eqb (lit "-n") (lit "-d")) with false.
  change (str_eqb (lit "-n") (lit "-n")) with true.
  change (str_eqb (lit "-f") (lit "-d")) with false.
  change (str_eqb (lit "-f") (lit "-n")) with false.
  change (str_eqb (lit "-f") (lit "-f")) with true. cbv iota.
  rewrite (int_numeral cpus Hd Hlen). cbn [opt_destination opt_cpus opt_file_types opt_url].
  assert (Hflag : forall f, starts_with_char "-" (lit f) = true ->
                            str_eqb url (lit f) = false).
  { intros f Hf. apply bool_decide_eq_false_2. intros ->. congruence. }
  rewrite !Hflag by done. rewrite Hdash.
  cbn [opt_destination opt_cpus opt_file_types opt_url]. rewrite Hurl. simpl negb.
  cbv iota.
  assert (Htypes : (if contains "," (join "," ts)
                    then [] ++ split "," (join "," ts)
                    else [] ++ [join "," ts]) = ts).
  { rewrite (contains_join "," ts Hts). case_bool_decide as Hl.
    - by rewrite split_join.
    - destruct ts as [|t [|]]; [done|done|simpl in Hl; lia]. }
  rewrite Htypes.
  assert (Hmk : (if negb (path_exists m destination)
                 then makedirs m destination else Ok tt) = Ok tt).
  { destruct Hdir as [-> | ->]; [done|]. by destruct (negb _). }
  rewrite Hmk. by destruct ts.
Qed.

(** ** The end of a resolved link *)

Lemma plain_chars c :
  plain c = true ->
  c <> "/" /\ c <> "?" /\ c <> "#" /\ c <> ";" /\ c <> ":" /\ c <> "."
  /\ ~ unsafe c /\ Url.is_c0_or_space c = false.
Proof.
  unfold unsafe.
  destruct c as [[] [] [] [] [] [] [] []]; try done; intros _;
    repeat split; try done; intros [H|[H|H]]; discriminate H.
Qed.

Lemma plain_absent ext x :
  Forall (fun c => plain c = true) ext ->
  x ∈ ["/"; "?"; "#"; ";"; ":"; "."] -> x ∉ ext.
Proof.
  intros Hext Hx Hin. rewrite Forall_forall in Hext.
  apply Hext, plain_chars in Hin.
  repeat (apply elem_of_cons in Hx as [->|Hx]); try tauto.
  by apply elem_of_nil in Hx.
Qed.

Lemma suffix_after (ext a b : str) x :
  x ∉ ext -> ext `suffix_of` a ++ x :: b -> ext `suffix_of` b.
Proof.
  intros Hx [k Hk]. symmetry in Hk.
  apply app_eq_app in Hk as [l [[-> Hl]|[-> Hl]]].
  - destruct l as [|y l]; simpl in Hl.
    + subst ext. exfalso. apply Hx. left.
    + injection Hl as -> ->. by exists l.
  - exfalso. apply Hx. rewrite Hl, elem_of_app. right. left.
Qed.

Lemma suffix_not_nil (ext s : str) : ext <> [] -> ext `suffix_of` s -> s <> [].
Proof. intros Hne Hs ->. by apply suffix_nil_inv in Hs. Qed.

Lemma find_split c s i : find c s = Some i -> s = take i s ++ c :: drop (S i) s.
Proof.
  revert i. induction s as [|x s IH]; intros i; simpl; [done|].
  destruct (Ascii.eqb_spec x c) as [->|Hne].
  - by intros [= <-].
  - destruct (find c s) as [j|]; simpl; [|done].
    intros [= <-]. simpl. f_equal. by apply IH.
Qed.

Lemma cut_split c s a b : cut c s = Some (a, b) -> s = a ++ c :: b.
Proof.
  revert a. induction s as [|x s IH]; intros a; simpl; [done|].
  destruct (Ascii.eqb_spec x c) as [->|Hne].
  - by intros [= <- <-].
  - destruct (cut c s) as [[a' b']|]; [|done].
    intros [= <- <-]. simpl. f_equal. by apply IH.
Qed.

(** The steps of [urlsplit] keep the end of the URL. *)
Lemma clean_suffix (ext m : str) :
  ext <> [] -> Forall (fun c => plain c = true) ext ->
  ext `suffix_of` m ->
  ext `suffix_of` Url.remove_unsafe (lstrip Url.is_c0_or_space m).
Proof.
  intros Hne Hext [k ->].
  assert (Hl : ext `suffix_of` lstrip Url.is_c0_or_space (k ++ ext)).
  { induction k as [|x k IH]; simpl.
    - destruct ext as [|c ext]; [done|]. apply Forall_cons in Hext as [Hc _].
      apply plain_chars in Hc as (_ & _ & _ & _ & _ & _ & _ & Hc).
      simpl. by rewrite Hc.
    - destruct (Url.is_c0_or_space x); [done|].
      by apply (suffix_app_r _ _ (x :: k)). }
  destruct Hl as [k' ->]. rewrite remove_unsafe_app.
  rewrite (remove_unsafe_clean host_ok ext); [by apply suffix_app_r|].
  eapply Forall_impl; [exact Hext|]. intros c Hc. apply plain_chars in Hc. tauto.
Qed.

Lemma split_scheme_suffix (ext url d s rest : str) :
  Forall (fun c => plain c = true) ext ->
  Url.split_scheme url d = (s, rest) ->
  ext `suffix_of` url -> ext `suffix_of` rest.
Proof.
  intros Hext. unfold Url.split_scheme.
  destruct (find ":" url) as [[|i]|] eqn:Hf; try (by intros [= _ <-]).
  destruct url as [|c0 t]; [by intros [= _ <-]|].
  destruct (_ && _); [|by intros [= _ <-]].
  intros [= _ <-]. apply find_split in Hf. rewrite Hf at 1.
  apply suffix_after, plain_absent; [done|]. do 4 right. left.
Qed.

Lemma split_tail_suffix (ext s n rest : str) :
  ext <> [] -> Forall (fun c => plain c = true) ext ->
  (rest = [] -> ext `suffix_of` n) ->
  (rest <> [] -> ext `suffix_of` rest) ->
  let r := Url.split_tail s n rest in
  ext `suffix_of`
    last_part [Url.s_netloc r; Url.s_path r; Url.s_query r; Url.s_fragment r].
Proof.
  intros Hne Hext Hn Hrest. unfold Url.split_tail.
  destruct rest as [|c rest'] eqn:Er.
  { simpl. destruct n; by apply Hn. }
  rewrite <- Er in *. assert (Hs : ext `suffix_of` rest) by (apply Hrest; by subst).
  clear Hn Hrest Er.
  destruct (cut "#" rest) as [[a f]|] eqn:Hf.
  - apply cut_split in Hf. rewrite Hf in Hs.
    apply suffix_after in Hs; [|apply plain_absent; [done|do 2 right; left]].
    pose proof (suffix_not_nil _ _ Hne Hs).
    destruct (cut "?" a) as [[a' q]|]; simpl; by destruct f.
  - destruct (cut "?" rest) as [[a q]|] eqn:Hq.
    + apply cut_split in Hq. rewrite Hq in Hs.
      apply suffix_after in Hs; [|apply plain_absent; [done|right; left]].
      pose proof (suffix_not_nil _ _ Hne Hs). simpl. by destruct q.
    + pose proof (suffix_not_nil _ _ Hne Hs). simpl. by destruct rest.
Qed.

Lemma delim_of_found r :
  delim_of r = length r
  \/ exists c, delimiter c /\ find c r = Some (delim_of r).
Proof.
  unfold delim_of. change (lit "/?#") with ["/"; "?"; "#"].
  set (f := fun d c => match find c r with
                       | Some w => Nat.min d w
                       | None => d
                       end).
  assert (Hstep : forall d c, delimiter c ->
            (d = length r \/ exists c', delimiter c' /\ find c' r = Some d) ->
            f d c = length r
            \/ exists c', delimiter c' /\ find c' r = Some (f d c)).
  { intros d c Hc Hd. unfold f. destruct (find c r) as [w|] eqn:Hw; [|done].
    destruct (Nat.min_spec d w) as [[_ ->]|[_ ->]]; [done|].
    right. by exists c. }
  cbn [foldl]. unfold delimiter in *.
  apply Hstep; [tauto|]. apply Hstep; [tauto|]. apply Hstep; [tauto|].
  by left.
Qed.

Lemma delim_of_head r :
  delim_of r < length r ->
  exists x rest, drop (delim_of r) r = x :: rest /\ delimiter x.
Proof.
  intros Hlt. destruct (delim_of_found r) as [?|(c & Hc & Hf)]; [lia|].
  exists c, (drop (S (delim_of r)) r). split; [|done].
  revert Hlt Hf. generalize (delim_of r). intros d Hlt Hf.
  apply find_split in Hf. rewrite Hf at 1.
  rewrite drop_app_length'; [done|]. rewrite length_take. lia.
Qed.

Lemma split_authority_suffix (ext s url : str) r :
  ext <> [] -> Forall (fun c => plain c = true) ext ->
  Url.split_authority host_ok s url = Ok r ->
  ext `suffix_of` url ->
  ext `suffix_of`
    last_part [Url.s_netloc r; Url.s_path r; Url.s_query r; Url.s_fragment r].
Proof.
  intros Hne Hext Hr Hs.
  destruct (split_authority_cases host_ok s url) as [[r0 ->]|Hplain].
  - unfold Url.split_authority in Hr. rewrite splitnetloc_slashes in Hr.
    assert (Hr0 : ext `suffix_of` r0).
    { apply (suffix_after ext ["/"] r0 "/") in Hs; [done|].
      apply plain_absent; [done|left]. }
    assert (r = Url.split_tail s (take (delim_of r0) r0) (drop (delim_of r0) r0))
      as ->.
    { destruct (_ || _); [done|]. destruct (_ && _); [done|]. by injection Hr. }
    apply split_tail_suffix; [done|done|..].
    + intros Hd. rewrite <- (take_drop (delim_of r0) r0), Hd, app_nil_r in Hr0.
      done.
    + intros Hd.
      destruct (delim_of_head r0) as (x & rest & Hx & Hdel).
      { destruct (Nat.lt_ge_cases (delim_of r0) (length r0)); [done|].
        by rewrite drop_ge in Hd by done. }
      rewrite Hx. rewrite <- (take_drop (delim_of r0) r0), Hx in Hr0.
      apply suffix_after in Hr0; [by apply suffix_cons_r|].
      apply plain_absent; [done|].
      destruct Hdel as [-> | [-> | ->]];
        [left|right; left|do 2 right; left].
  - rewrite Hplain in Hr. injection Hr as <-.
    apply split_tail_suffix; [done|done|..].
    + intros ->. by apply suffix_nil_inv in Hs.
    + done.
Qed.

Lemma urlsplit_suffix (ext m d : str) r :
  ext <> [] -> Forall (fun c => plain c = true) ext ->
  Url.urlsplit host_ok m d = Ok r ->
  ext `suffix_of` m ->
  ext `suffix_of`
    last_part [Url.s_netloc r; Url.s_path r; Url.s_query r; Url.s_fragment r].
Proof.
  intros Hne Hext Hr Hs. unfold Url.urlsplit in Hr.
  apply (clean_suffix _ _ Hne Hext) in Hs.
  destruct (Url.split_scheme _ _) as [s rest] eqn:Hsch.
  apply (split_scheme_suffix ext _ _ _ _ Hext Hsch) in Hs.
  by eapply split_authority_suffix.
Qed.

Lemma splitparams_suffix (ext pth a x : str) :
  Forall (fun c => plain c = true) ext ->
  Url.splitparams pth = (a, x) ->
  ext `suffix_of` pth ->
  (x <> [] /\ ext `suffix_of` x) \/ (x = [] /\ ext `suffix_of` a).
Proof.
  intros Hext. unfold Url.splitparams.
  assert (Hsemi : ";" ∉ ext) by (apply plain_absent; [done|do 3 right; left]).
  assert (Hcase : forall i, pth = take i pth ++ ";" :: drop (S i) pth ->
            ext `suffix_of` pth ->
            (drop (S i) pth <> [] /\ ext `suffix_of` drop (S i) pth)
            \/ (drop (S i) pth = [] /\ ext `suffix_of` take i pth)).
  { intros i Hi Hs. rewrite Hi in Hs. apply suffix_after in Hs; [|done].
    destruct (drop (S i) pth) eqn:E; [|by left].
    apply suffix_nil_inv in Hs as ->. right. split; [done|]. apply suffix_nil. }
  destruct (contains "/" pth).
  - unfold Url.find_from.
    destruct (find ";" (drop _ pth)) as [j|] eqn:Hj; simpl.
    + intros [= <- <-]. apply Hcase.
      apply find_split in Hj. revert Hj.
      generalize (default 0 (Url.rfind "/" pth)). intros k Hj.
      rewrite drop_drop in Hj.
      replace (S (k + j)) with (k + S j) by lia.
      rewrite <- (take_take_drop pth k j), <- app_assoc, <- Hj.
      symmetry. apply take_drop.
    + intros [= <- <-]. by right.
  - destruct (find ";" pth) as [j|] eqn:Hj.
    + intros [= <- <-]. apply Hcase. by apply find_split.
    + intros [= <- <-]. by right.
Qed.

Lemma urlparse_suffix (ext m d : str) p :
  ext <> [] -> Forall (fun c => plain c = true) ext ->
  Url.urlparse host_ok m d = Ok p ->
  ext `suffix_of` m ->
  ext `suffix_of`
    last_part [Url.netloc p; Url.path p; Url.params p; Url.query p;
               Url.fragment p].
Proof.
  intros Hne Hext Hp Hs. unfold Url.urlparse in Hp.
  destruct (Url.urlsplit host_ok m d) as [r|] eqn:Hr; [|done]. simpl in Hp.
  pose proof (urlsplit_suffix ext m d r Hne Hext Hr Hs) as Hlast.
  destruct (_ && _).
  - destruct (Url.splitparams (Url.s_path r)) as [a x] eqn:Hsp.
    injection Hp as <-. cbn [Url.netloc Url.path Url.params Url.query Url.fragment].
    destruct (Url.s_fragment r) as [|f0 f]; [|by destruct (Url.s_query r)].
    destruct (Url.s_query r) as [|q0 q]; [|done].
    destruct (Url.s_path r) as [|p0 pth] eqn:Hpath.
    { cbv in Hsp. injection Hsp as <- <-. done. }
    cbn [last_part] in Hlast.
    destruct (splitparams_suffix ext _ _ _ Hext Hsp Hlast) as [[Hx Hsx]|[-> Hsa]].
    + destruct x; [done|]. done.
    + pose proof (suffix_not_nil _ _ Hne Hsa). by destruct a.
  - injection Hp as <-. cbn [Url.netloc Url.path Url.params Url.query Url.fragment].
    destruct (Url.s_fragment r), (Url.s_query r), (Url.s_path r),
      (Url.s_netloc r); done.
Qed.

(** Putting the components together again ends with the last of them
    that is not empty. *)
Lemma urlunparse_suffix (ext s n pth x q f : str) :
  ext <> [] ->
  ext `suffix_of` last_part [n; pth; x; q; f] ->
  ext `suffix_of` Url.urlunparse s n pth x q f.
Proof.
  intros Hne Hlast. unfold Url.urlunparse, Url.urlunsplit.
  destruct f as [|f0 f].
  2: { cbn [truthy]. apply suffix_app_r, suffix_cons_r.
       by destruct q, x, pth, n. }
  destruct q as [|q0 q].
  2: { cbn [truthy]. apply suffix_app_r, suffix_cons_r.
       by destruct x, pth, n. }
  cbn [truthy].
  assert (Hurl : forall url : str, ext `suffix_of` url ->
            ext `suffix_of` (if truthy s then s ++ ":" :: url else url)).
  { intros url Hu. destruct (truthy s); [|done].
    by apply suffix_app_r, suffix_cons_r. }
  apply Hurl.
  set (url := if truthy x then pth ++ ";" :: x else pth).
  destruct (decide (url = [])) as [Hempty|Hfull].
  - assert (x = [] /\ pth = []) as [-> ->].
    { unfold url in Hempty. destruct x; [done|].
      simpl in Hempty. by destruct pth. }
    simpl in Hlast. pose proof (suffix_not_nil _ _ Hne ltac:(by destruct n)).
    destruct n as [|n0 n]; [by destruct Hlast as [? ?%eq_sym%app_eq_nil]|].
    simpl in Hlast. cbn [truthy orb]. rewrite Hempty. cbn [truthy andb].
    change (lit "//") with ["/"; "/"]%char. rewrite app_nil_r.
    by apply (suffix_app_r _ _ ["/"; "/"]%char).
  - assert (Hu : ext `suffix_of` url).
    { unfold url in *. destruct x as [|x0 x]; simpl in *.
      - by destruct pth.
      - by apply suffix_app_r, suffix_cons_r. }
    destruct (truthy n || _); [|done].
    apply suffix_app_r, suffix_app_r.
    destruct (_ && _); [by apply suffix_cons_r|done].
Qed.

(** The segments of a path and its last segment. *)
Lemma split_not_nil c s : split c s <> [].
Proof.
  destruct s as [|x s]; simpl; [done|].
  destruct (Ascii.eqb x c); [done|]. by destruct (split c s).
Qed.

Lemma split_last_suffix (ext s : str) c :
  c ∉ ext -> ext `suffix_of` s ->
  exists init seg, split c s = init ++ [seg] /\ ext `suffix_of` seg.
Proof.
  intros Hc [k ->]. induction k as [|x k (init & seg & IH & Hseg)].
  - exists [], ext. split; [by apply split_absent|done].
  - simpl. rewrite IH. destruct (Ascii.eqb x c).
    + by exists ([] :: init), seg.
    + destruct init as [|a init]; simpl.
      * exists [], (x :: seg). split; [done|]. by apply suffix_cons_r.
      * by exists ((x :: a) :: init), seg.
Qed.

Lemma filter_middle_last (ys : list str) (seg : str) :
  exists zs, Url.filter_middle (ys ++ [seg]) = zs ++ [seg].
Proof.
  destruct ys as [|y ys]; [by exists []|]. simpl.
  destruct (ys ++ [seg]) as [|a rest] eqn:E; [by destruct ys|].
  rewrite <- E.
  exists (y :: filter (fun s => truthy s = true) (removelast (ys ++ [seg]))).
  simpl. f_equal. f_equal. f_equal. apply last_last.
Qed.

Lemma resolve_segments_last (zs : list str) (seg : str) :
  seg <> lit ".." -> seg <> lit "." ->
  exists rs, Url.resolve_segments (zs ++ [seg]) = rs ++ [seg].
Proof.
  intros H2 H1. unfold Url.resolve_segments. rewrite foldl_app. simpl.
  unfold str_eqb. rewrite !bool_decide_eq_false_2 by done. by eexists.
Qed.

Lemma join_last_suffix c (rs : list str) (seg : str) :
  seg `suffix_of` join c (rs ++ [seg]).
Proof.
  induction rs as [|a rs IH]; [done|].
  change (join c ((a :: rs) ++ [seg]))
    with (match rs ++ [seg] with
          | [] => a
          | _ :: _ => a ++ c :: join c (rs ++ [seg])
          end).
  destruct (rs ++ [seg]) eqn:E; [by destruct rs|].
  by apply suffix_app_r, suffix_cons_r.
Qed.

(** The path that [urljoin] puts together ends as the path of the link
    does. *)
Lemma joined_suffix (ext pu : str) (bp : list str) :
  ext <> [] -> Forall (fun c => plain c = true) ext ->
  ext `suffix_of` pu ->
  let segments :=
    if starts_with_char "/" pu then split "/" pu
    else Url.filter_middle (bp ++ split "/" pu) in
  let resolved_path := Url.resolve_segments segments in
  let resolved_path :=
    if Url.member (List.last segments []) [lit "."; lit ".."]
    then resolved_path ++ [[]] else resolved_path in
  let joined := join "/" resolved_path in
  ext `suffix_of` (if truthy joined then joined else lit "/").
Proof.
  intros Hne Hext Hs.
  destruct (split_last_suffix ext pu "/") as (init & seg & Hsplit & Hseg);
    [apply plain_absent; [done|left]|done|].
  assert (Hdots : seg <> lit ".." /\ seg <> lit ".").
  { destruct ext as [|c ext']; [done|].
    assert (Hc : c ∈ seg).
    { destruct Hseg as [k ->]. rewrite elem_of_app. right. left. }
    assert (c <> "."%char).
    { apply Forall_cons in Hext as [Hp _]. apply plain_chars in Hp. tauto. }
    split; intros ->;
      repeat (apply elem_of_cons in Hc as [->|Hc]; [done|]);
      by apply elem_of_nil in Hc. }
  destruct Hdots as [H2 H1].
  intros segments.
  assert (exists zs, segments = zs ++ [seg]) as [zs Hsegs].
  { unfold segments. rewrite Hsplit. destruct (starts_with_char "/" pu).
    - by exists init.
    - rewrite app_assoc. apply filter_middle_last. }
  clearbody segments. subst segments. rewrite last_last.
  destruct (resolve_segments_last zs seg H2 H1) as [rs ->].
  unfold Url.member. rewrite bool_decide_eq_false_2.
  2: { rewrite !elem_of_cons, elem_of_nil. tauto. }
  cbv zeta.
  pose proof (join_last_suffix "/" rs seg) as Hj.
  assert (Hfull : join "/" (rs ++ [seg]) <> []).
  { eapply suffix_not_nil; [|exact Hj]. by eapply suffix_not_nil. }
  destruct (join "/" (rs ++ [seg])); [done|].
  simpl. by etrans.
Qed.

Lemma relative_uses_netloc s :
  Url.member s Url.uses_relative = true -> Url.member s Url.uses_netloc = true.
Proof.
  unfold Url.member. intros H%bool_decide_eq_true_1.
  apply bool_decide_eq_true_2. unfold Url.uses_relative in H.
  cbn [map] in H.
  repeat (apply elem_of_cons in H as [->|H];
          [apply (bool_decide_unpack _); vm_compute; exact I|]).
  by apply elem_of_nil in H.
Qed.

(** [urljoin] keeps the end of the link. *)
Lemma urljoin_suffix (ext base m u : str) :
  ext <> [] -> Forall (fun c => plain c = true) ext ->
  Url.urljoin host_ok base m = Ok u ->
  ext `suffix_of` m -> ext `suffix_of` u.
Proof.
  intros Hne Hext Hu Hs. unfold Url.urljoin in Hu.
  destruct (negb (truthy base)); [by injection Hu as <-|].
  destruct (negb (truthy m)) eqn:Hm.
  { destruct m; [|done]. by apply suffix_nil_inv in Hs. }
  destruct (Url.urlparse host_ok base []) as [b|] eqn:Hb; [|done].
  simpl in Hu.
  destruct (Url.urlparse host_ok m (Url.scheme b)) as [p|] eqn:Hp; [|done].
  simpl in Hu.
  pose proof (urlparse_suffix ext m _ p Hne Hext Hp Hs) as Hlast.
  destruct (negb (str_eqb (Url.scheme p) (Url.scheme b))) eqn:Hsame;
    [by injection Hu as <-|].
  destruct (Url.member (Url.scheme p) Url.uses_relative) eqn:Hrel;
    [|by injection Hu as <-].
  rewrite (relative_uses_netloc _ Hrel) in Hu. simpl in Hu.
  destruct (Url.netloc p) as [|n0 n] eqn:Hn.
  2: { simpl in Hu. injection Hu as <-. by apply urlunparse_suffix. }
  simpl in Hu.
  destruct (Url.fragment p) as [|f0 f] eqn:Hf.
  2: { cbn [last_part] in Hlast. cbn [truthy negb andb orb] in Hu.
       repeat match type of Hu with
              | context [if ?c then _ else _] => destruct c
              end; injection Hu as <-; by apply urlunparse_suffix. }
  destruct (Url.query p) as [|q0 q] eqn:Hq.
  2: { cbn [last_part] in Hlast. cbn [truthy negb andb orb] in Hu.
       repeat match type of Hu with
              | context [if ?c then _ else _] => destruct c
              end; injection Hu as <-; by apply urlunparse_suffix. }
  destruct (Url.params p) as [|x0 x] eqn:Hx.
  2: { cbn [last_part] in Hlast.
       destruct (Url.path p);
         simpl in Hu; injection Hu as <-; apply urlunparse_suffix; try done;
         cbn [last_part]; by destruct (if truthy _ then _ else _). }
  destruct (Url.path p) as [|p0 pth] eqn:Hpath.
  { simpl in Hlast. by apply suffix_nil_inv in Hlast. }
  cbn [last_part] in Hlast.
  change (negb (truthy (p0 :: pth)) && negb (truthy [])) with false in Hu.
  cbv iota in Hu.
  assert (Hinj : forall a c : str, @Ok str a = Ok c -> a = c)
    by (intros a c H; by injection H).
  apply Hinj in Hu. subst u. apply urlunparse_suffix; [done|].
  match goal with
  | |- context [if truthy ?j then ?j else ?k] =>
      assert (Hj : ext `suffix_of` (if truthy j then j else k))
  end.
  { apply (joined_suffix ext (p0 :: pth)); done. }
  pose proof (suffix_not_nil _ _ Hne Hj) as Hfull.
  cbn [last_part].
  by destruct (if truthy _ then _ else _).
Qed.

(** ** Links and files end with the letters of a file type *)

Lemma file_type_plain ft rs :
  FILE_REGEX !! ft = Some rs ->
  ft <> [] /\ Forall (fun c => plain c = true) ft.
Proof.
  intros Hft. unfold FILE_REGEX in Hft. apply elem_of_list_to_map_2 in Hft.
  repeat (apply elem_of_cons in Hft as [[= -> _]|Hft];
          [split; [done|]; apply (bool_decide_unpack _); vm_compute; exact I|]).
  by apply elem_of_nil in Hft.
Qed.

Lemma then_run_elem (a b : list str * result unit) u :
  u ∈ (then_run a b).1 -> u ∈ a.1 \/ u ∈ b.1.
Proof.
  unfold then_run. destruct a as [l [[]|e]]; simpl; [|by left].
  by rewrite elem_of_app.
Qed.

Lemma run_matches_elem url ms u :
  u ∈ (run_matches host_ok url ms).1 ->
  exists m, m ∈ ms /\ resolve_url host_ok url m = Ok u.
Proof.
  induction ms as [|m ms IH]; simpl; [by intros ?%elem_of_nil|].
  destruct (resolve_url host_ok url m) as [v|e] eqn:E;
    [|by intros ?%elem_of_nil].
  intros [H|H]%then_run_elem; simpl in H.
  - apply list_elem_of_singleton in H as ->. exists m. split; [left|done].
  - destruct (IH H) as (m' & Hm' & Hr). exists m'. split; [by right|done].
Qed.

Lemma run_regexes_elem url page rs u :
  u ∈ (run_regexes host_ok url page rs).1 ->
  exists r m, r ∈ rs /\ m ∈ findall r page /\ resolve_url host_ok url m = Ok u.
Proof.
  induction rs as [|r rs IH]; simpl; [by intros ?%elem_of_nil|].
  intros [H|H]%then_run_elem.
  - apply run_matches_elem in H as (m & Hm & Hr). exists r, m.
    split; [left|done].
  - destruct (IH H) as (r' & m & Hr' & Hm & Hr). exists r', m.
    split; [by right|done].
Qed.

Lemma run_filetypes_elem url page fts u :
  u ∈ (run_filetypes host_ok url page fts).1 ->
  exists ft rs r m,
    ft ∈ fts /\ FILE_REGEX !! ft = Some rs /\ r ∈ rs
    /\ m ∈ findall r page /\ resolve_url host_ok url m = Ok u.
Proof.
  induction fts as [|ft fts IH]; simpl; [by intros ?%elem_of_nil|].
  destruct (FILE_REGEX !! ft) as [rs|] eqn:Hft; [|by intros ?%elem_of_nil].
  intros [H|H]%then_run_elem.
  - apply run_regexes_elem in H as (r & m & Hr & Hm & Hu).
    exists ft, rs, r, m. split; [left|done].
  - destruct (IH H) as (ft' & rs' & r & m & Hin & Hrest).
    exists ft', rs', r, m. split; [by right|done].
Qed.

(** A link of the extractor ends with the letters of a file type that
    was asked for. *)
Lemma link_suffix w url fts u :
  u ∈ (extract_all host_ok w url fts).1 ->
  exists ft, ft ∈ fts /\ ft <> [] /\ ("/" ∉ ft) /\ ft `suffix_of` u.
Proof.
  unfold extract_all. destruct (get w url) as [response|]; [|by intros ?%elem_of_nil].
  destruct (negb (ok response)); [by intros ?%elem_of_nil|].
  intros (ft & rs & r & m & Hin & Hft & Hr & Hm & Hu)%run_filetypes_elem.
  destruct (file_type_plain ft rs Hft) as [Hne Hplain].
  exists ft. split; [done|]. split; [done|].
  split; [apply plain_absent; [done|left]|].
  destruct (pattern_shape ft rs r Hft Hr) as (lead & attr & ext & -> & ->).
  apply findall_target in Hm as (body & c & -> & _).
  eapply urljoin_suffix; [done|done|exact Hu|].
  exists (body ++ [c]). by rewrite <- app_assoc.
Qed.

(** X24. Every link that the generator yields ends with the letters of
    one of the file types it was asked for, whatever base URL it was
    resolved against. *)
Theorem extract_urls_link_endings w url fts links r u :
  iterates host_ok w (extract_urls url fts) links r ->
  u ∈ links ->
  exists ft, ft ∈ fts /\ ft `suffix_of` u.
Proof.
  intros Hit Hu.
  pose proof (iterates_extract_all host_ok w url fts) as Hall.
  destruct (iterates_functional _ _ _ _ _ _ _ Hit Hall) as [-> _].
  apply link_suffix in Hu as (ft & Hin & _ & _ & Hs). by exists ft.
Qed.

Lemma after_last_keeps_suffix (ext s : str) c :
  c ∉ ext -> ext `suffix_of` s -> ext `suffix_of` after_last c s.
Proof.
  intros Hc. induction s as [|x s IH]; simpl; [done|].
  intros Hsuf.
  assert (ext = x :: s \/ ext `suffix_of` s) as [->|Hs].
  { destruct Hsuf as [[|y k] Hk]; [by left|right].
    injection Hk as _ ->. by exists k. }
  - unfold contains. rewrite bool_decide_eq_false_2.
    2: { intros H. apply Hc. by right. }
    destruct (Ascii.eqb_spec x c) as [->|]; [|done].
    exfalso. apply Hc. left.
  - unfold contains. case_bool_decide; [by apply IH|].
    destruct (Ascii.eqb x c); [done|]. by apply suffix_cons_r.
Qed.

(** X25. Every file that a crawl which prints its report has added to
    the disk has a name that ends with the letters of one of the file
    types the crawl was asked for. *)
Theorem crawl_files_named_after_types
    w start stop evs fs url fts dest cpus obs rep :
  crawl host_ok w start stop evs fs url fts dest cpus = Some obs ->
  returned obs = Ok rep ->
  exists st,
    run w dest (Z.to_nat cpus) (length (submitted obs)) evs
        (submit (submitted obs) fs) = Some st
    /\ forall q, q ∈ dom (files st) -> q ∉ dom fs ->
         exists ft, ft ∈ fts /\ ft `suffix_of` q.
Proof.
  intros Hcrawl Hrep.
  destruct (crawl_ok_inv _ _ _ _ _ _ _ _ _ _ _ _ Hcrawl Hrep) as (_ & Hex & _).
  destruct (crawl_disk _ _ _ _ _ _ _ _ _ _ _ Hcrawl Hrep)
    as (st & Hrun & _ & _ & Hother & _).
  exists st. split; [done|]. intros q Hq Hnew.
  destruct (decide (q ∈ (successes w dest (submitted obs)).*1)) as [Hin|Hout].
  2: { exfalso. apply Hnew. apply elem_of_dom. rewrite <- (Hother q Hout).
       by apply elem_of_dom. }
  apply list_elem_of_fmap in Hin as ((p & d) & -> & Hpd). simpl.
  apply elem_of_successes in Hpd as (u & Hu & Hd).
  assert (Hlink : u ∈ (extract_all host_ok w url fts).1) by by rewrite Hex.
  apply link_suffix in Hlink as (ft & Hin & Hne & Hslash & Hs).
  exists ft. split; [done|].
  assert (p = OsPath.join dest (OsPath.basename u)) as ->.
  { apply downloaded_opened in Hd as (Ho & _).
    by destruct (opened_outcome _ _ _ _ _ Ho) as (-> & _). }
  apply (after_last_keeps_suffix ft u "/" Hslash) in Hs.
  fold (OsPath.basename u) in Hs.
  destruct (join_basename dest u) as [-> | ->].
  - by apply suffix_app_r.
  - by apply suffix_app_r, suffix_cons_r.
Qed.

End Further.
(** * The further properties on the sample sites *)

Import Sample Cases.

(** The first picture of [site] on the machine with the full disk:
    the download raises and leaves the first four bytes. *)
Lemma download_url_one_path_witness :
  (download_url full (lit "http://h/a/x.jpg") dest ∅).2 = ∅
  \/ exists r m,
      get full (lit "http://h/a/x.jpg") = Ok r
      /\ write_limit full (OsPath.join dest (OsPath.basename (lit "http://h/a/x.jpg")))
                     (content r) = Some m
      /\ (download_url full (lit "http://h/a/x.jpg") dest ∅).2
         = <[OsPath.join dest (OsPath.basename (lit "http://h/a/x.jpg")) :=
               take (Nat.min m (length (content r))) (content r)]> ∅.
Proof.
  apply (proj2 (proj2 (proj2
           (download_url_one_path full (lit "http://h/a/x.jpg") dest ∅))) OSError).
  vm_compute. reflexivity.
Defined.

(** Serving the two pictures of [site] leaves a path of another name
    alone. *)
Lemma run_keeps_other_files_witness :
  exists st,
    run site dest 2 2 interleaved (submit pictures ∅) = Some st
    /\ files st !! lit "out/y.jpg" = files (submit pictures ∅) !! lit "out/y.jpg".
Proof.
  destruct (run site dest 2 2 interleaved (submit pictures ∅))
    as [st|] eqn:E.
  - exists st. split; [reflexivity|].
    refine (run_keeps_other_files site dest 2 2 interleaved
              (lit "out/y.jpg") (submit pictures ∅) st _ E).
    intros i u.
    change (items (submit pictures ∅))
      with [(0, lit "http://h/a/x.jpg"); (1, lit "http://h/b/x.jpg")].
    intros [[= _ ->]|[[= _ ->]|[]%elem_of_nil]%elem_of_cons]%elem_of_cons;
      vm_compute; discriminate.
  - vm_compute in E. discriminate E.
Defined.

(** The first picture of [site] is stored as [out/x.jpg]. *)
Lemma download_url_local_path_witness :
  exists pre name,
    lit "http://h/a/x.jpg" = pre ++ name
    /\ ("/" ∉ name)
    /\ (pre = [] \/ exists pre', pre = pre' ++ ["/"])
    /\ ((dest = [] \/ exists d, dest = d ++ ["/"]) -> lit "out/x.jpg" = dest ++ name)
    /\ (dest <> [] -> (forall d, dest <> d ++ ["/"]) ->
        lit "out/x.jpg" = dest ++ "/" :: name)
    /\ OsPath.basename (lit "out/x.jpg") = name.
Proof.
  apply (download_url_local_path any_host site (lit "http://h/a/x.jpg") dest ∅).
  vm_compute. reflexivity.
Defined.

(** Asking [site] for pictures, an unknown type and documents: the two
    pictures are submitted and served, and the crawl ends with
    [KeyError]. *)
Lemma crawl_unknown_file_type_witness :
  mkObs pictures (Raise (KeyError gif)) = mkObs pictures (Raise (KeyError gif))
  /\ exists st,
      run site dest (Z.to_nat 2) (length pictures) interleaved (submit pictures ∅)
      = Some st
      /\ cancelled st = []
      /\ forall i u, pictures !! i = Some u ->
           futures st !! i = Some (outcome_of site dest u).
Proof.
  apply (crawl_unknown_file_type any_host site 1 3 interleaved ∅ base [jpg] gif
           [pdf] dest 2 pictures (mkObs pictures (Raise (KeyError gif)))).
  - split; [split; reflexivity|reflexivity].
  - apply (bool_decide_unpack _). vm_compute. exact I.
  - vm_compute. reflexivity.
  - vm_compute. reflexivity.
Defined.

(** A link whose authority opens a bracket it does not close. *)
Lemma resolve_url_raises_witness :
  ValueError = ValueError
  /\ ("[" ∈ base ++ lit "//[x.jpg" \/ "]" ∈ base ++ lit "//[x.jpg").
Proof.
  apply (resolve_url_raises any_host base (lit "//[x.jpg") ValueError).
  - apply (bool_decide_unpack _). vm_compute. exact I.
  - vm_compute. reflexivity.
Defined.

(** The generator for a page that is answered with a server error. *)
Lemma generator_single_pass_witness :
  Finished = Finished
  /\ forall us r, iterates any_host broken Finished us r -> us = [] /\ r = Ok tt.
Proof.
  apply (generator_single_pass any_host broken (extract_urls base [jpg])
           (Raised (SystemExit 5)) Finished).
  - vm_compute. reflexivity.
  - intros u. discriminate.
Defined.

(** The crawl of [site] served in order in two seconds, and served
    with the second picture first in five: the same links and two
    files in both reports, though the bytes differ. *)
Lemma crawl_schedule_independent_witness :
  links = links
  /\ files_downloaded site_report
     = files_downloaded
         (mkReport 2 20 (div_megabyte 20) 5 (div_megabyte 20 / 5)%float).
Proof.
  apply (crawl_schedule_independent any_host site 1 3 2 7
           (sequential site dest links) reversed ∅
           base [jpg; pdf] dest 2
           (mkObs links (Ok site_report))
           (mkObs links
              (Ok (mkReport 2 20 (div_megabyte 20) 5 (div_megabyte 20 / 5)%float)))).
  - vm_compute. reflexivity.
  - vm_compute. reflexivity.
  - vm_compute. reflexivity.
  - vm_compute. reflexivity.
Defined.

(** The picture that the image pattern finds in the page of [site]. *)
Lemma findall_candidates_witness :
  exists body c,
    lit "a/x.jpg" = body ++ c :: jpg
    /\ body <> []
    /\ Forall (fun x => x <> dquote /\ x <> " "%char) body
    /\ c <> LF.
Proof.
  apply (findall_candidates any_host jpg [img_src "jpg"; a_href "jpg"] (img_src "jpg")
           page (lit "a/x.jpg")).
  - vm_compute. reflexivity.
  - left.
  - apply list_elem_of_In. vm_compute. left. reflexivity.
Defined.

(** After the crawl of [mirror], whose two pictures are the same ten
    bytes under one name, the disk holds that one file with these
    bytes, however the two workers have written it. *)
Lemma crawl_leaves_files_witness :
  exists st,
    run mirror dest (Z.to_nat 2) (length links) interleaved_three (submit links ∅)
    = Some st
    /\ dom (files st) = dom (∅ : disk) ∪ list_to_set (successes mirror dest links).*1
    /\ (forall p d, (p, d) ∈ successes mirror dest links ->
          exists c d', files st !! p = Some c
                       /\ (p, d') ∈ successes mirror dest links
                       /\ length c = length d')
    /\ (forall p d, (p, d) ∈ successes mirror dest links ->
          (forall d', (p, d') ∈ successes mirror dest links -> d' = d) ->
          files st !! p = Some d)
    /\ (forall q, q ∉ (successes mirror dest links).*1 ->
          files st !! q = (∅ : disk) !! q).
Proof.
  apply (crawl_leaves_files any_host mirror 1 3 interleaved_three ∅ base
           [jpg; pdf] dest 2
           (mkObs links (Ok (mkReport 2 20 (div_megabyte 20) 2
                                (div_megabyte 20 / 2)%float)))
           (mkReport 2 20 (div_megabyte 20) 2 (div_megabyte 20 / 2)%float)).
  - vm_compute. reflexivity.
  - reflexivity.
Defined.

(** The picture linked twice: two files reported, one file added. *)
Lemma crawl_counts_links_witness :
  exists st,
    run twice_site dest (Z.to_nat 1) (length twice_links)
        (sequential twice_site dest twice_links)
        (submit twice_links ∅) = Some st
    /\ files_downloaded twice_report = length (successes twice_site dest twice_links)
    /\ size (dom (files st) ∖ dom (∅ : disk)) <= files_downloaded twice_report.
Proof.
  apply (crawl_counts_links any_host twice_site 1 3
           (sequential twice_site dest twice_links) ∅ twice [jpg]
           dest 1 (mkObs twice_links (Ok twice_report)) twice_report).
  - vm_compute. reflexivity.
  - reflexivity.
Defined.

(** The picture linked twice, served in order in two seconds and
    written by two workers at the same time in five. *)
Lemma crawl_confluent_witness :
  twice_links = twice_links
  /\ files_downloaded
       (mkReport 2 20 (div_megabyte 20) 5 (div_megabyte 20 / 5)%float)
     = files_downloaded twice_report
  /\ bytes_downloaded
       (mkReport 2 20 (div_megabyte 20) 5 (div_megabyte 20 / 5)%float)
     = bytes_downloaded twice_report
  /\ Mbytes_downloaded
       (mkReport 2 20 (div_megabyte 20) 5 (div_megabyte 20 / 5)%float)
     = Mbytes_downloaded twice_report
  /\ exists st st',
      run twice_site dest (Z.to_nat 2) (length twice_links)
          (sequential twice_site dest twice_links)
          (submit twice_links ∅) = Some st
      /\ run twice_site dest (Z.to_nat 2) (length twice_links) twice_interleaved
             (submit twice_links ∅) = Some st'
      /\ files st' = files st.
Proof.
  apply (crawl_confluent any_host twice_site 1 3 2 7
           (sequential twice_site dest twice_links) twice_interleaved ∅
           twice [jpg] dest 2 (mkObs twice_links (Ok twice_report))
           (mkObs twice_links
              (Ok (mkReport 2 20 (div_megabyte 20) 5 (div_megabyte 20 / 5)%float)))
           twice_report
           (mkReport 2 20 (div_megabyte 20) 5 (div_megabyte 20 / 5)%float)).
  - vm_compute. reflexivity.
  - vm_compute. reflexivity.
  - reflexivity.
  - reflexivity.
  - intros p d d'.
    change (successes twice_site dest _)
      with [(lit "out/p.jpg", ten); (lit "out/p.jpg", ten)].
    intros [[= _ ->]|[[= _ ->]|[]%elem_of_nil]%elem_of_cons]%elem_of_cons
           [[= _ ->]|[[= _ ->]|[]%elem_of_nil]%elem_of_cons]%elem_of_cons;
      reflexivity.
Defined.

(** Two pictures of different bodies under one name, each written in
    one piece by two workers that have both opened the file: the file
    that the crawl leaves is made of bytes of both. *)
Lemma interleaved_writes_mix :
  successes striped dest pictures
  = [(lit "out/x.jpg", lit "aaaaaaaaaa");
     (lit "out/x.jpg", lit "bbbbbbbbbbbbbbbbbbbb")]
  /\ crawl any_host striped 1 3 mixing ∅ base [jpg] dest 2
     = Some (mkObs pictures
               (Ok (mkReport 2 40 (div_megabyte 40) 2 (div_megabyte 40 / 2)%float)))
  /\ exists st,
      run striped dest 2 2 mixing (submit pictures ∅) = Some st
      /\ files st = {[lit "out/x.jpg" := lit "aaaaaaaaaabbbbbbbbbb"]}.
Proof.
  split; [vm_compute; reflexivity|]. split; [vm_compute; reflexivity|].
  destruct (run striped dest 2 2 mixing (submit pictures ∅)) as [st|] eqn:E;
    vm_compute in E; [|discriminate E].
  injection E as <-. eexists. split; [reflexivity|]. vm_compute. reflexivity.
Qed.

(** [-d out -f jpg,pdf URL] and [-d out -f jpg -f pdf URL]. *)
Lemma main_comma_file_types_witness :
  main any_host ready site 1 3 (sequential site dest links) ∅
    ([lit "-d"; dest] ++ lit "-f" :: join "," [jpg; pdf] :: [base])
  = main any_host ready site 1 3 (sequential site dest links) ∅
      ([lit "-d"; dest] ++ flat_map (fun t => [lit "-f"; t]) [jpg; pdf] ++ [base]).
Proof.
  apply (main_comma_file_types any_host ready site 1 3
           (sequential site dest links) ∅
           [lit "-d"; dest] [jpg; pdf] [base] (mkSettings dest 1 [] [])).
  - vm_compute. reflexivity.
  - discriminate.
  - apply (bool_decide_unpack _). vm_compute. exact I.
Defined.

(** [-x URL] ends with status 1. *)
Lemma main_usage_exits_witness :
  main any_host ready site 1 3 [] ∅ ([] ++ lit "-x" :: [base])
  = Some (Exception (SystemExit (if str_eqb (lit "-x") (lit "-h") then 0 else 1))).
Proof.
  apply (main_usage_exits any_host ready site 1 3 [] ∅ [] (lit "-x") [base]
           (mkSettings DESTINATION CPUS [] [])).
  - reflexivity.
  - reflexivity.
  - apply (bool_decide_unpack _). vm_compute. exact I.
Defined.

(** [URL -n] ends with [IndexError]. *)
Lemma main_missing_value_witness :
  main any_host ready site 1 3 [] ∅ ([base] ++ [lit "-n"]) = Some IndexError.
Proof.
  apply (main_missing_value any_host ready site 1 3 [] ∅ [base] (lit "-n")
           (mkSettings DESTINATION CPUS [] base)).
  - vm_compute. reflexivity.
  - right. left.
Defined.

(** [-n two URL] ends with [ValueError]. *)
Lemma main_cpus_not_a_number_witness :
  main any_host ready site 1 3 [] ∅ ([] ++ lit "-n" :: lit "two" :: [base])
  = Some (Exception ValueError).
Proof.
  apply (main_cpus_not_a_number any_host ready site 1 3 [] ∅ [] (lit "two")
           [base] (mkSettings DESTINATION CPUS [] []) ValueError).
  - reflexivity.
  - vm_compute. reflexivity.
Defined.

(** [-d -x] with an empty third argument: no URL. *)
Lemma main_without_url_witness :
  exists e,
    main any_host ready site 1 3 [] ∅ [lit "-d"; lit "-x"; []] = Some e
    /\ (e = Exception (SystemExit 0) \/ e = Exception (SystemExit 1)
        \/ e = Exception ValueError \/ e = IndexError).
Proof.
  apply (main_without_url any_host ready site 1 3 [] ∅ [lit "-d"; lit "-x"; []]).
  constructor; [right; reflexivity|].
  constructor; [right; reflexivity|].
  constructor; [left; reflexivity|]. constructor.
Defined.

(** The page of [site] has no square bracket: its three links are
    yielded. *)
Lemma extract_urls_without_brackets_witness :
  exists links',
    iterates any_host site (extract_urls base [jpg; pdf]) links' (Ok tt)
    /\ resolve_each any_host base (all_matches page [jpg; pdf]) = Ok links'.
Proof.
  apply (extract_urls_without_brackets any_host site base [jpg; pdf]
           (mkResponse 200 [] page)).
  - vm_compute. reflexivity.
  - reflexivity.
  - constructor; [|constructor; [|constructor]]; vm_compute; eexists; reflexivity.
  - apply (bool_decide_unpack _). vm_compute. exact I.
  - apply (bool_decide_unpack _). vm_compute. exact I.
Defined.

(** A picture of [site] on the machine with the full disk: the file is
    opened, and the write raises after four bytes. *)
Lemma download_url_raises_witness :
  (get full (lit "http://h/a/x.jpg") = Raise OSError
   /\ OSError <> RequestException
   /\ (download_url full (lit "http://h/a/x.jpg") dest ∅).2 = ∅)
  \/ exists r,
      get full (lit "http://h/a/x.jpg") = Ok r
      /\ raise_for_status r = Ok tt
      /\ ((OSError = ValueError
           /\ (NUL ∈ OsPath.join dest (OsPath.basename (lit "http://h/a/x.jpg")))
           /\ (download_url full (lit "http://h/a/x.jpg") dest ∅).2 = ∅)
          \/ (OSError = OSError
              /\ (NUL ∉ OsPath.join dest (OsPath.basename (lit "http://h/a/x.jpg")))
              /\ (OsPath.join dest (OsPath.basename (lit "http://h/a/x.jpg")) = []
                  \/ can_open full
                       (OsPath.join dest (OsPath.basename (lit "http://h/a/x.jpg")))
                     = false)
              /\ (download_url full (lit "http://h/a/x.jpg") dest ∅).2 = ∅)
          \/ (OSError = OSError
              /\ (NUL ∉ OsPath.join dest (OsPath.basename (lit "http://h/a/x.jpg")))
              /\ OsPath.join dest (OsPath.basename (lit "http://h/a/x.jpg")) <> []
              /\ can_open full
                   (OsPath.join dest (OsPath.basename (lit "http://h/a/x.jpg")))
                 = true
              /\ exists m,
                  write_limit full
                    (OsPath.join dest (OsPath.basename (lit "http://h/a/x.jpg")))
                    (content r) = Some m
                  /\ (download_url full (lit "http://h/a/x.jpg") dest ∅).2
                     = <[OsPath.join dest
                           (OsPath.basename (lit "http://h/a/x.jpg")) :=
                           take (Nat.min m (length (content r))) (content r)]>
                         ∅)).
Proof.
  apply (download_url_raises full (lit "http://h/a/x.jpg") dest ∅ OSError).
  vm_compute. reflexivity.
Defined.

(** [-d out -n 2 -f jpg,pdf URL]. *)
Lemma main_usage_line_witness :
  main any_host ready site 1 3 (sequential site dest links) ∅
    [lit "-d"; dest; lit "-n"; lit (NilEmpty.string_of_uint (D2 Nil));
     lit "-f"; join "," [jpg; pdf]; base]
  = Crawled <$> crawl any_host site 1 3 (sequential site dest links) ∅ base
                  [jpg; pdf] dest (Z.of_nat (Nat.of_uint (D2 Nil))).
Proof.
  apply (main_usage_line any_host ready site 1 3 (sequential site dest links) ∅
           dest (D2 Nil) [jpg; pdf] base).
  - discriminate.
  - vm_compute. lia.
  - discriminate.
  - apply (bool_decide_unpack _). vm_compute. exact I.
  - reflexivity.
  - reflexivity.
  - left. reflexivity.
Defined.

(** On the machine where no path can be opened the first picture of
    [site] raises: the crawl ends with its [OSError]. *)
Lemma crawl_first_exception_witness :
  mkObs links (Raise OSError)
  = mkObs ([] ++ lit "http://h/a/x.jpg"
              :: [lit "http://h/b/x.jpg"; lit "http://h/c.pdf"])
          (Raise OSError).
Proof.
  apply (crawl_first_exception any_host locked 1 3 interrupted ∅ base [jpg; pdf]
           dest 1 [] (lit "http://h/a/x.jpg")
           [lit "http://h/b/x.jpg"; lit "http://h/c.pdf"] OSError).
  - split; [split; reflexivity|reflexivity].
  - vm_compute. reflexivity.
  - intros v []%elem_of_nil.
  - vm_compute. reflexivity.
  - vm_compute. reflexivity.
Defined.

(** After that exception the document of [site], not yet queued, is
    cancelled and stays so while the second picture is served. *)
Lemma cancelled_never_downloaded_witness :
  exists st st',
    run locked dest 1 (length links)
        [Enqueue; Enqueue; Start; Begin 0; Finish 0; Cancel]
        (submit links ∅) = Some st
    /\ run locked dest 1 (length links) [Start; Begin 1; Finish 1] st = Some st'
    /\ (2, lit "http://h/c.pdf") ∈ cancelled st'
    /\ futures st' !! 2 = None.
Proof.
  destruct (run locked dest 1 (length links)
              [Enqueue; Enqueue; Start; Begin 0; Finish 0; Cancel] (submit links ∅))
    as [st|] eqn:E; [|vm_compute in E; discriminate E].
  destruct (run locked dest 1 (length links) [Start; Begin 1; Finish 1] st)
    as [st'|] eqn:E'.
  - exists st, st'. split; [reflexivity|]. split; [exact E'|].
    apply (cancelled_never_downloaded locked dest 1 links ∅
             [Enqueue; Enqueue; Start; Begin 0; Finish 0; Cancel]
             [Start; Begin 1; Finish 1]
             st st' 2 (lit "http://h/c.pdf") E); [|exact E'].
    vm_compute in E. injection E as <-. left.
  - vm_compute in E. injection E as <-. vm_compute in E'. discriminate E'.
Defined.

(** The document of [site] is found as a [pdf] link. *)
Lemma extract_urls_link_endings_witness :
  exists ft, ft ∈ [jpg; pdf] /\ ft `suffix_of` lit "http://h/c.pdf".
Proof.
  apply (extract_urls_link_endings any_host site base [jpg; pdf] links (Ok tt)
           (lit "http://h/c.pdf")).
  - exact (iterates_extract_all any_host site base [jpg; pdf]).
  - right. right. left.
Defined.

(** The files that the crawl of [site] adds are named after [jpg] or
    [pdf]. *)
Lemma crawl_files_named_after_types_witness :
  exists st,
    run site dest (Z.to_nat 2) (length links) (sequential site dest links)
        (submit links ∅)
    = Some st
    /\ forall q, q ∈ dom (files st) -> q ∉ dom (∅ : disk) ->
         exists ft, ft ∈ [jpg; pdf] /\ ft `suffix_of` q.
Proof.
  apply (crawl_files_named_after_types any_host site 1 3
           (sequential site dest links) ∅ base
           [jpg; pdf] dest 2 (mkObs links (Ok site_report)) site_report).
  - vm_compute. reflexivity.
  - reflexivity.
Defined.
